(** * TK-Storage-Madness: the change-tracking table mirror of [db-proxy.js]

    A shallow embedding of [createDeepProxy] and of the class [TableProxy]
    (constructor/[init], [_wrapRow], [_queueOperation] with its flush timer
    callback, [push], [splice]) over an explicit JavaScript object store,
    followed by the properties of the mirror that the specification states.

    Conventions of the embedding.
    - Objects live in a store ([heap]) and are named by their address, so
      that two references to one object alias, as in JavaScript.  A Proxy is
      a store cell of its own: it has an identity different from its
      target's.
    - Numbers are integers ([Z]): identities, positions and counters.
      Floating point values are outside the model.
    - Property keys are strings or the module-private symbol [INTERNAL].
      Only own data properties exist (no prototypes, functions or accessors).
      An object keeps its properties in the order of their creation and
      lists its keys as JavaScript does: array indices first, ascending,
      then the other keys in that order.
      A sequence-valued field is a composite whose keys are its indices: the
      tracker itself only asks [typeof value === "object"].
    - The host is explicit: a clock, the table of armed timeouts, the
      gateway calls that are awaited, and a trace of what happened. *)

From Stdlib Require Import ZArith Lia Sorted.
From stdpp Require Import base decidable option list strings.

Local Open Scope Z_scope.

(** ** Values and the object store *)

Definition addr := nat.

Inductive value :=
  | VUndef
  | VNull
  | VBool (b : bool)
  | VNum (n : Z)
  | VStr (s : string)
  | VRef (a : addr).

Arguments VRef a%_nat.

#[global] Instance value_eq_dec : EqDecision value.
Proof. solve_decision. Defined.

(** [typeof v === "object" && v !== null] *)
Definition is_object (v : value) : bool :=
  match v with VRef _ => true | _ => false end.

(** JavaScript truthiness, as used by [if (target[INTERNAL])]. *)
Definition truthy (v : value) : bool :=
  match v with
  | VUndef | VNull | VBool false => false
  | VNum n => negb (Z.eqb n 0)
  | VStr s => negb (String.eqb s "")
  | _ => true
  end.

(** Property keys: a string, or [const INTERNAL = Symbol("internalProxy")]. *)
Inductive pkey :=
  | KStr (s : string)
  | KInternal.

#[global] Instance pkey_eq_dec : EqDecision pkey.
Proof. solve_decision. Defined.

(** A data property: its value and its [enumerable] and [configurable]
    attributes (every property of the program is writable). *)
Record slot := Slot { sval : value; senum : bool; sconf : bool }.

(** The only [onChange] the program ever builds is the closure of [_wrapRow],
    [() => this._queueOperation(row, "save")]; it is represented by the row
    it captured. *)
Inductive callback :=
  | QueueSave (row : addr).

Arguments QueueSave row%_nat.

#[global] Instance callback_eq_dec : EqDecision callback.
Proof. solve_decision. Defined.

Inductive cell :=
  | Obj (props : list (pkey * slot))
  | Prx (target : addr) (cb : callback).

Arguments Prx target%_nat cb.

(** ** Insertion-ordered association lists

    Used for the properties of an object, for the [Map] that is the
    operation queue, and for the records sent to the gateway.  Writing an
    existing key keeps its place, as JavaScript objects and Maps do.  A Map
    lists its entries in this order; an object lists array indices first
    (see [own_order]). *)

Section Assoc.
Context {K V : Type} `{EqDecision K}.

Fixpoint assoc_get (k : K) (l : list (K * V)) : option V :=
  match l with
  | [] => None
  | (k', v) :: l' => if decide (k = k') then Some v else assoc_get k l'
  end.

(** [assoc_upd k f l]: the entry of [k] becomes [f old], in place when
    there is one and at the end otherwise. *)
Fixpoint assoc_upd (k : K) (f : option V → V) (l : list (K * V)) : list (K * V) :=
  match l with
  | [] => [(k, f None)]
  | (k', v) :: l' =>
      if decide (k = k') then (k', f (Some v)) :: l'
      else (k', v) :: assoc_upd k f l'
  end.

Definition assoc_set (k : K) (v : V) : list (K * V) → list (K * V) :=
  assoc_upd k (λ _, v).

Fixpoint assoc_del (k : K) (l : list (K * V)) : list (K * V) :=
  match l with
  | [] => []
  | (k', v) :: l' => if decide (k = k') then l' else (k', v) :: assoc_del k l'
  end.
End Assoc.

(** ** The order of an object's own keys

    An ordinary object lists its keys that are array indices first, in
    ascending order, and then its other string keys in the order in which
    they were created ([OrdinaryOwnPropertyKeys]); [Object.keys], [for-in]
    and [JSON.stringify] all follow it.  An array index is the decimal
    numeral, without a leading zero, of an integer below [2^32 - 1]. *)

Definition is_digit (c : Ascii.ascii) : bool :=
  (48 <=? Ascii.nat_of_ascii c)%nat && (Ascii.nat_of_ascii c <=? 57)%nat.

Fixpoint digits_value (k : string) (acc : N) : option N :=
  match k with
  | EmptyString => Some acc
  | String c k' =>
      if is_digit c
      then digits_value k' (10 * acc + N.of_nat (Ascii.nat_of_ascii c - 48))%N
      else None
  end.

Definition array_index (k : string) : option N :=
  match k with
  | EmptyString => None
  | String c k' =>
      match digits_value k 0%N with
      | Some n =>
          if (bool_decide (k' = EmptyString) || negb (Nat.eqb (Ascii.nat_of_ascii c) 48))
             && (n <? 4294967295)%N
          then Some n else None
      | None => None
      end
  end.

Section OwnOrder.
Context {A : Type} (key : A → string).

Fixpoint insert_index (n : N) (x : A) (l : list (N * A)) : list (N * A) :=
  match l with
  | [] => [(n, x)]
  | (m, y) :: l' =>
      if (n <? m)%N then (n, x) :: (m, y) :: l' else (m, y) :: insert_index n x l'
  end.

(** The entries of [l] whose key is an array index, in ascending order. *)
Fixpoint index_entries (l : list A) : list (N * A) :=
  match l with
  | [] => []
  | x :: l' =>
      match array_index (key x) with
      | Some n => insert_index n x (index_entries l')
      | None => index_entries l'
      end
  end.

(** The entries of [l] whose key is no array index, in their order. *)
Fixpoint named_entries (l : list A) : list A :=
  match l with
  | [] => []
  | x :: l' =>
      match array_index (key x) with
      | Some _ => named_entries l'
      | None => x :: named_entries l'
      end
  end.

(** [own_order l]: the entries of an object created in the order [l], in
    the order in which the object lists them. *)
Definition own_order (l : list A) : list A :=
  (index_entries l).*2 ++ named_entries l.
End OwnOrder.

(** ** What goes to the gateway *)

(** [JSON.stringify] is represented by the tree its text encodes. *)
#[warnings="-register-all"]
Inductive json :=
  | JNull
  | JBool (b : bool)
  | JNum (n : Z)
  | JStr (s : string)
  | JObj (fields : list (string * json)).

(** A column of an upserted record: a scalar, or the text of a composite. *)
Inductive col :=
  | CVal (v : value)
  | CJson (j : json).

(** A record is an object: its columns come in the order of its own keys. *)
Definition record := list (string * col).

Inductive stmt :=
  | Upsert (insertRows : list record)
  | DeleteIn (ids : list value).

(** ** The mirror and its host *)

Inductive optype := Save | Delete.

#[global] Instance optype_eq_dec : EqDecision optype.
Proof. solve_decision. Defined.

(** An entry [{ row, type }] of the operation queue: [row] is a reference. *)
Record op := Op { op_row : value; op_type : optype }.

#[global] Instance op_eq_dec : EqDecision op.
Proof. solve_decision. Defined.

Inductive event :=
  | Changed (cb : callback)            (* an [onChange()] call *)
  | Queued (key : value) (o : op)      (* [operationQueue.set(key, o)] *)
  | Armed (id : nat) (due : Z)         (* [setTimeout(flush, 500)] *)
  | Fired (id : nat)                   (* the timer callback starts *)
  | Issued (q : stmt)                  (* a statement handed to knex *)
  | Settled (ok : bool).               (* an awaited statement resolves or rejects *)

Record state := State {
  heap : list cell;                    (* the object store *)
  rows : list value;                   (* [this.rows] *)
  operationQueue : list (value * op);  (* [this.operationQueue], a Map *)
  queueTimer : option nat;             (* [this.queueTimer]: null or a handle *)
  now : Z;                             (* the clock, in milliseconds *)
  timers : list (nat * Z);             (* armed timeouts: handle and due time *)
  timer_ids : nat;                     (* next handle *)
  inflight : list (list op);           (* awaited gateway calls, each with the
                                          [deletes] its flush still holds *)
  trace : list event
}.

Definition with_heap (h : list cell) (s : state) : state :=
  State h (rows s) (operationQueue s) (queueTimer s) (now s) (timers s)
        (timer_ids s) (inflight s) (trace s).

Definition with_rows (r : list value) (s : state) : state :=
  State (heap s) r (operationQueue s) (queueTimer s) (now s) (timers s)
        (timer_ids s) (inflight s) (trace s).

Definition with_queue (q : list (value * op)) (s : state) : state :=
  State (heap s) (rows s) q (queueTimer s) (now s) (timers s)
        (timer_ids s) (inflight s) (trace s).

Definition with_inflight (f : list (list op)) (s : state) : state :=
  State (heap s) (rows s) (operationQueue s) (queueTimer s) (now s) (timers s)
        (timer_ids s) f (trace s).

Definition log (e : event) (s : state) : state :=
  State (heap s) (rows s) (operationQueue s) (queueTimer s) (now s) (timers s)
        (timer_ids s) (inflight s) (trace s ++ [e]).

(** A mirror that has just been constructed: nothing loaded yet. *)
Definition empty_state : state :=
  State [] [] [] None 0 [] 0 [] [].

(** *** Raw property access (no trap involved) *)

Definition props_get (k : pkey) (ps : list (pkey * slot)) : value :=
  match assoc_get k ps with Some sl => sval sl | None => VUndef end.

(** [t[prop]] on a plain object. *)
Definition obj_get (a : addr) (k : pkey) (s : state) : value :=
  match heap s !! a with
  | Some (Obj ps) => props_get k ps
  | _ => VUndef
  end.

Arguments obj_get a%_nat k s.

(** An ordinary write: an existing property keeps its attributes and its
    place, a new one is appended, enumerable and configurable. *)
Definition props_set (k : pkey) (v : value) (ps : list (pkey * slot)) : list (pkey * slot) :=
  assoc_upd k (λ o, match o with
                    | Some sl => Slot v (senum sl) (sconf sl)
                    | None => Slot v true true
                    end) ps.

Definition obj_set (a : addr) (k : pkey) (v : value) (s : state) : state :=
  match heap s !! a with
  | Some (Obj ps) => with_heap (<[a := Obj (props_set k v ps)]> (heap s)) s
  | _ => s
  end.

Arguments obj_set a%_nat k v s.

(** [Reflect.deleteProperty]: a non-configurable property stays. *)
Definition props_delete (k : pkey) (ps : list (pkey * slot)) : list (pkey * slot) :=
  match assoc_get k ps with
  | Some sl => if sconf sl then assoc_del k ps else ps
  | None => ps
  end.

Definition obj_delete (a : addr) (k : pkey) (s : state) : state :=
  match heap s !! a with
  | Some (Obj ps) => with_heap (<[a := Obj (props_delete k ps)]> (heap s)) s
  | _ => s
  end.

(** [Object.defineProperty(o, k, { value, enumerable: false, writable: true })]:
    a new property is not configurable, an existing one keeps that attribute. *)
Definition props_define_hidden (k : pkey) (v : value) (ps : list (pkey * slot)) : list (pkey * slot) :=
  assoc_upd k (λ o, match o with
                    | Some sl => Slot v false (sconf sl)
                    | None => Slot v false false
                    end) ps.

(** The own enumerable string keys, in the order of their creation. *)
Fixpoint props_keys (ps : list (pkey * slot)) : list string :=
  match ps with
  | [] => []
  | (KStr k, sl) :: ps' => if senum sl then k :: props_keys ps' else props_keys ps'
  | (KInternal, _) :: ps' => props_keys ps'
  end.

(** [Object.keys] of a plain object: its enumerable string keys, array
    indices first. *)
Definition own_keys (ps : list (pkey * slot)) : list string :=
  own_order id (props_keys ps).

Definition alloc (c : cell) (s : state) : addr * state :=
  (length (heap s), with_heap (heap s ++ [c]) s).

(** ** The operation queue and the debounce timer

    [[
    this.operationQueue.set(row._idx, { row, type });
    if (this.queueTimer) return;
    this.queueTimer = setTimeout(async () => { ... }, 500);
    ]] *)

Definition debounce : Z := 500.

Definition arm (s : state) : state :=
  match queueTimer s with
  | Some _ => s
  | None =>
      let id := timer_ids s in
      let due := now s + debounce in
      State (heap s) (rows s) (operationQueue s) (Some id) (now s)
            (timers s ++ [(id, due)]) (S id) (inflight s)
            (trace s ++ [Armed id due])
  end.

Definition enqueue (key : value) (o : op) (s : state) : state :=
  arm (log (Queued key o) (with_queue (assoc_set key o (operationQueue s)) s)).

(** [_queueOperation(row, type)], for a given way of reading and writing a
    property of [row]:
    [[
    if (row._idx === undefined) row._idx = this.rows.length;
    this.operationQueue.set(row._idx, { row, type });
    ]] *)
Section QueueOperation.
Variable get : value → pkey → state → value * state.
Variable set : value → pkey → value → state → state.

Definition queueOperation_with (row : value) (type : optype) (s : state) : state :=
  let '(i, s1) := get row (KStr "_idx") s in
  let s2 := if decide (i = VUndef)
            then set row (KStr "_idx") (VNum (Z.of_nat (length (rows s1)))) s1
            else s1 in
  let '(key, s3) := get row (KStr "_idx") s2 in
  enqueue key (Op row type) s3.
End QueueOperation.

Definition raw_get (v : value) (k : pkey) (s : state) : value * state :=
  match v with
  | VRef a => (obj_get a k s, s)
  | _ => (VUndef, s)
  end.

Definition raw_set (v : value) (k : pkey) (x : value) (s : state) : state :=
  match v with
  | VRef a => obj_set a k x s
  | _ => s
  end.

(** [onChange()].  The row captured by [_wrapRow] is a plain object, never a
    Proxy (a Proxy passes the guard [if (row[INTERNAL]) return row]), so its
    [_idx] is read and written without a trap. *)
Definition onChange (cb : callback) (s : state) : state :=
  match cb with
  | QueueSave row =>
      queueOperation_with raw_get raw_set (VRef row) Save (log (Changed cb) s)
  end.

(** ** createDeepProxy: the three traps *)

(** [[
    set(t, prop, value, receiver) {
      const oldValue = t[prop];
      const result = Reflect.set(t, prop, value, receiver);
      if (oldValue !== value) onChange();
      return result;
    }
    ]] *)
Definition set_trap (t : addr) (cb : callback) (k : pkey) (v : value) (s : state) : state :=
  let oldValue := obj_get t k s in
  let s1 := obj_set t k v s in
  if decide (oldValue = v) then s1 else onChange cb s1.

(** [[
    deleteProperty(t, prop) {
      const result = Reflect.deleteProperty(t, prop);
      onChange();
      return result;
    }
    ]] *)
Definition delete_trap (t : addr) (cb : callback) (k : pkey) (s : state) : state :=
  onChange cb (obj_delete t k s).

(** [target[INTERNAL]] as a condition.  Through a Proxy the read goes to the
    get trap, which hands back the marker of its target: the marker is only
    ever written as [true], so the trap's branch for composites is not
    taken there. *)
Definition has_marker (v : value) (s : state) : bool :=
  match v with
  | VRef a =>
      match heap s !! a with
      | Some (Obj ps) => truthy (props_get KInternal ps)
      | Some (Prx t _) => truthy (obj_get t KInternal s)
      | None => false
      end
  | _ => false
  end.

(** [[
    function createDeepProxy(target, onChange) {
      if (typeof target !== "object" || target === null) return target;
      if (target[INTERNAL]) return target;
      const proxy = new Proxy(target, { get, set, deleteProperty });
      proxy[INTERNAL] = true;
      return proxy;
    }
    ]]
    The last assignment is a write through the new Proxy: it runs the set
    trap. *)
Definition createDeepProxy (target : value) (cb : callback) (s : state) : value * state :=
  match target with
  | VRef a =>
      if has_marker target s then (target, s)
      else
        let '(p, s1) := alloc (Prx a cb) s in
        (VRef p, set_trap a cb KInternal (VBool true) s1)
  | _ => (target, s)
  end.

(** [[
    get(t, prop, receiver) {
      const value = Reflect.get(t, prop, receiver);
      if (typeof value === "object" && value !== null) {
        const proxied = createDeepProxy(value, onChange);
        Reflect.set(t, prop, proxied);
        return proxied;
      }
      return value;
    }
    ]] *)
Definition get_trap (t : addr) (cb : callback) (k : pkey) (s : state) : value * state :=
  let value := obj_get t k s in
  if is_object value then
    let '(proxied, s1) := createDeepProxy value cb s in
    (proxied, obj_set t k proxied s1)
  else (value, s).

(** *** Property access on any reference: plain object or Proxy

    Access to a property of a scalar is outside the model (JavaScript throws
    or ignores it): it reads [undefined] and writes nothing. *)

Definition js_get (v : value) (k : pkey) (s : state) : value * state :=
  match v with
  | VRef a =>
      match heap s !! a with
      | Some (Obj ps) => (props_get k ps, s)
      | Some (Prx t cb) => get_trap t cb k s
      | None => (VUndef, s)
      end
  | _ => (VUndef, s)
  end.

Definition js_set (v : value) (k : pkey) (x : value) (s : state) : state :=
  match v with
  | VRef a =>
      match heap s !! a with
      | Some (Obj _) => obj_set a k x s
      | Some (Prx t cb) => set_trap t cb k x s
      | None => s
      end
  | _ => s
  end.

Definition js_delete (v : value) (k : pkey) (s : state) : state :=
  match v with
  | VRef a =>
      match heap s !! a with
      | Some (Obj _) => obj_delete a k s
      | Some (Prx t cb) => delete_trap t cb k s
      | None => s
      end
  | _ => s
  end.

(** [Object.keys(v)]: a Proxy without an [ownKeys] trap lists its target's. *)
Definition js_keys (v : value) (s : state) : list string :=
  match v with
  | VRef a =>
      match heap s !! a with
      | Some (Obj ps) => own_keys ps
      | Some (Prx t _) =>
          match heap s !! t with
          | Some (Obj ps) => own_keys ps
          | _ => []
          end
      | None => []
      end
  | _ => []
  end.

(** ** Sequencing over arrays: [map] and [forEach] with effects *)

Section Loops.
Context {A B : Type}.

Fixpoint map_st (f : A → state → B * state) (l : list A) (s : state) : list B * state :=
  match l with
  | [] => ([], s)
  | x :: l' =>
      let '(y, s1) := f x s in
      let '(ys, s2) := map_st f l' s1 in
      (y :: ys, s2)
  end.

(** [l.forEach((x, i) => f(x, i))], counting from [i]. *)
Fixpoint foreach_from (f : A → nat → state → state) (l : list A) (i : nat) (s : state) : state :=
  match l with
  | [] => s
  | x :: l' => foreach_from f l' (S i) (f x i s)
  end.

Definition foreach (f : A → state → state) (l : list A) (s : state) : state :=
  foreach_from (λ x _, f x) l 0%nat s.
End Loops.

(** [map((x, i) => f(x, i))], counting from [i]. *)
Fixpoint mapi_st {A B : Type} (f : A → nat → state → B * state)
    (l : list A) (i : nat) (s : state) : list B * state :=
  match l with
  | [] => ([], s)
  | x :: l' =>
      let '(y, s1) := f x i s in
      let '(ys, s2) := mapi_st f l' (S i) s1 in
      (y :: ys, s2)
  end.

(** ** TableProxy *)

(** [_queueOperation(row, type)] on any reference: a row that is a Proxy is
    read and written through its traps. *)
Definition _queueOperation : value → optype → state → state :=
  queueOperation_with js_get js_set.

(** [[
    _wrapRow(row) {
      if (row[INTERNAL]) return row;
      const onChange = () => this._queueOperation(row, "save");
      const proxiedRow = createDeepProxy(row, onChange);
      Object.defineProperty(proxiedRow, "_internal", {
        value: { _isProxy: true }, enumerable: false, writable: true });
      return proxiedRow;
    }
    ]]
    [defineProperty] on the Proxy has no trap: it lands on the target.  A row
    that is not an object makes [defineProperty] throw: outside the model. *)
Definition _wrapRow (row : value) (s : state) : value * state :=
  match row with
  | VRef a =>
      if has_marker row s then (row, s)
      else
        let '(proxiedRow, s1) := createDeepProxy row (QueueSave a) s in
        let '(i, s2) := alloc (Obj [(KStr "_isProxy", Slot (VBool true) true true)]) s1 in
        match heap s2 !! a with
        | Some (Obj ps) =>
            (proxiedRow,
             with_heap (<[a := Obj (props_define_hidden (KStr "_internal") (VRef i) ps)]> (heap s2)) s2)
        | _ => (proxiedRow, s2)
        end
  | _ => (row, s)
  end.

(** The rows that [knex.select("*")] returns are fresh objects; a JSON column
    arrives parsed, as a fresh composite. *)
Fixpoint alloc_json (j : json) (s : state) : value * state :=
  match j with
  | JNull => (VNull, s)
  | JBool b => (VBool b, s)
  | JNum n => (VNum n, s)
  | JStr x => (VStr x, s)
  | JObj fields =>
      let fix go (fs : list (string * json)) (acc : list (pkey * slot)) (s : state) :=
        match fs with
        | [] => (acc, s)
        | (k, j') :: fs' =>
            let '(v, s1) := alloc_json j' s in
            go fs' (props_set (KStr k) v acc) s1
        end in
      let '(ps, s1) := go fields [] s in
      let '(a, s2) := alloc (Obj ps) s1 in
      (VRef a, s2)
  end.

(** The loop of [alloc_json] over the fields of a composite, by name. *)
Fixpoint alloc_fields (fs : list (string * json)) (acc : list (pkey * slot)) (s : state)
    : list (pkey * slot) * state :=
  match fs with
  | [] => (acc, s)
  | (k, j') :: fs' =>
      let '(v, s1) := alloc_json j' s in
      alloc_fields fs' (props_set (KStr k) v acc) s1
  end.

Definition new_object (fields : list (string * json)) : state → value * state :=
  alloc_json (JObj fields).

(** [[
    async init() {
      const data = await this.knex.withSchema(this.schema).select("*").from(this.table);
      data.forEach((row, i) => { if (row._idx === undefined) row._idx = i; });
      this.rows = data.map((row) => this._wrapRow(row));
      return this;
    }
    ]]
    While the rows are wrapped [this.rows] is still [null]; [_queueOperation]
    would read its length only for a row without [_idx], and there is none
    at that point. *)
Definition init (table : list (list (string * json))) (s : state) : state :=
  let '(data, s1) := map_st new_object table s in
  let s2 := foreach_from
              (λ row i s,
                 if decide ((raw_get row (KStr "_idx") s).1 = VUndef)
                 then raw_set row (KStr "_idx") (VNum (Z.of_nat i)) s
                 else s)
              data 0%nat s1 in
  let '(wrapped, s3) := map_st _wrapRow data s2 in
  with_rows wrapped s3.

(** [getAll() { return this.rows; }] *)
Definition getAll (s : state) : list value := rows s.

(** [[
    push(row) {
      row._idx = this.rows.length;
      const proxied = this._wrapRow(row);
      this.rows.push(proxied);
      this._queueOperation(proxied, "save");
      return proxied;
    }
    ]] *)
Definition push (row : value) (s : state) : value * state :=
  let s1 := js_set row (KStr "_idx") (VNum (Z.of_nat (length (rows s)))) s in
  let '(proxied, s2) := _wrapRow row s1 in
  let s3 := with_rows (rows s2 ++ [proxied]) s2 in
  (proxied, _queueOperation proxied Save s3).

(** [Array.prototype.splice]: where the removal starts and how many elements
    go, for an array of length [len]. *)
Definition splice_start (len : nat) (start : Z) : nat :=
  if start <? 0 then Z.to_nat (Z.max (Z.of_nat len + start) 0)
  else Z.to_nat (Z.min start (Z.of_nat len)).

Definition splice_count (len : nat) (start deleteCount : Z) : nat :=
  Z.to_nat (Z.min (Z.max deleteCount 0) (Z.of_nat len - Z.of_nat (splice_start len start))).

Definition array_splice {A} (l : list A) (start deleteCount : Z) (items : list A) : list A * list A :=
  let a := splice_start (length l) start in
  let c := splice_count (length l) start deleteCount in
  (take c (drop a l), take a l ++ items ++ drop (a + c) l).

(** [[
    splice(start, deleteCount, ...items) {
      const removed = this.rows.splice(start, deleteCount,
        ...items.map((i, idx) => { i._idx = start + idx; return this._wrapRow(i); }));
      removed.forEach((r) => this._queueOperation(r, "delete"));
      items.forEach((i) => this._queueOperation(i, "save"));
      this.rows.forEach((row, idx) => (row._idx = idx));
      return removed;
    }
    ]] *)
Definition splice (start deleteCount : Z) (items : list value) (s : state) : list value * state :=
  let '(wrapped, s1) :=
    mapi_st (λ i idx s, _wrapRow i (js_set i (KStr "_idx") (VNum (start + Z.of_nat idx)) s))
            items 0%nat s in
  let '(removed, kept) := array_splice (rows s1) start deleteCount wrapped in
  let s2 := with_rows kept s1 in
  let s3 := foreach (λ r, _queueOperation r Delete) removed s2 in
  let s4 := foreach (λ i, _queueOperation i Save) items s3 in
  let s5 := foreach_from (λ row idx, js_set row (KStr "_idx") (VNum (Z.of_nat idx))) (rows s4) 0%nat s4 in
  (removed, s5).

(** ** The flush: the timer callback of [_queueOperation] *)

(** [JSON.stringify(v)]: [Some (Some j)] is the text, [Some None] is
    [undefined] (a property that is left out), [None] is the TypeError for a
    circular structure.  An object is first asked for [toJSON] and then for
    each of its keys; on a Proxy every one of these reads runs the get trap.
    [fuel] bounds the depth: a path of distinct objects is no longer than
    the store, and lazy wrapping at most doubles the store. *)
Fixpoint stringify (fuel : nat) (stack : list addr) (v : value) (s : state)
    : option (option json) * state :=
  match v with
  | VUndef => (Some None, s)
  | VNull => (Some (Some JNull), s)
  | VBool b => (Some (Some (JBool b)), s)
  | VNum n => (Some (Some (JNum n)), s)
  | VStr x => (Some (Some (JStr x)), s)
  | VRef a =>
      match fuel with
      | O => (None, s)
      | S fuel' =>
          let '(_, s1) := js_get v (KStr "toJSON") s in
          if bool_decide (a ∈ stack) then (None, s1)
          else
            let fix fields (ks : list string) (acc : list (string * json)) (s : state) :=
              match ks with
              | [] => (Some acc, s)
              | k :: ks' =>
                  let '(x, s1) := js_get v (KStr k) s in
                  match stringify fuel' (a :: stack) x s1 with
                  | (None, s2) => (None, s2)
                  | (Some None, s2) => fields ks' acc s2
                  | (Some (Some j), s2) => fields ks' (acc ++ [(k, j)]) s2
                  end
              end in
            match fields (js_keys v s1) [] s1 with
            | (None, s2) => (None, s2)
            | (Some fs, s2) => (Some (Some (JObj fs)), s2)
            end
      end
  end.

(** The loop of [stringify] over the keys of an object, by name. *)
Definition stringify_fields (fuel : nat) (stack : list addr) (v : value)
    : list string → list (string * json) → state → option (list (string * json)) * state :=
  fix fields (ks : list string) (acc : list (string * json)) (s : state) :=
    match ks with
    | [] => (Some acc, s)
    | k :: ks' =>
        let '(x, s1) := js_get v (KStr k) s in
        match stringify fuel stack x s1 with
        | (None, s2) => (None, s2)
        | (Some None, s2) => fields ks' acc s2
        | (Some (Some j), s2) => fields ks' (acc ++ [(k, j)]) s2
        end
    end.

Definition stringify_depth (s : state) : nat := S (2 * length (heap s)).

Definition JSON_stringify (v : value) (s : state) : option (option json) * state :=
  stringify (stringify_depth s) [] v s.

(** [[
    const rowToSave = { _idx: op.row._idx };
    for (const key of Object.keys(op.row)) {
      if (key === "_internal") continue;
      const value = op.row[key];
      rowToSave[key] = typeof value === "object" && value !== null
        ? JSON.stringify(value) : value;
    }
    return rowToSave;
    ]]
    [rowToSave_fields] is the loop, which creates the columns one after the
    other; [rowToSave] is the object that is returned, whose columns knex
    reads in the order of its own keys. *)
Fixpoint rowToSave_fields (row : value) (keys : list string) (acc : record) (s : state)
    : option record * state :=
  match keys with
  | [] => (Some acc, s)
  | key :: keys' =>
      if decide (key = "_internal"%string) then rowToSave_fields row keys' acc s
      else
        let '(value, s1) := js_get row (KStr key) s in
        if is_object value then
          match JSON_stringify value s1 with
          | (Some (Some j), s2) => rowToSave_fields row keys' (assoc_set key (CJson j) acc) s2
          | (Some None, s2) => rowToSave_fields row keys' (assoc_set key (CVal VUndef) acc) s2
          | (None, s2) => (None, s2)
          end
        else rowToSave_fields row keys' (assoc_set key (CVal value) acc) s1
  end.

Definition rowToSave (o : op) (s : state) : option record * state :=
  let '(i, s1) := js_get (op_row o) (KStr "_idx") s in
  match rowToSave_fields (op_row o) (js_keys (op_row o) s1) [("_idx"%string, CVal i)] s1 with
  | (Some r, s2) => (Some (own_order fst r), s2)
  | (None, s2) => (None, s2)
  end.

(** [saves.map(...)]: a throw ends the callback. *)
Fixpoint insertRows (saves : list op) (s : state) : option (list record) * state :=
  match saves with
  | [] => (Some [], s)
  | o :: saves' =>
      match rowToSave o s with
      | (None, s1) => (None, s1)
      | (Some r, s1) =>
          match insertRows saves' s1 with
          | (None, s2) => (None, s2)
          | (Some rs, s2) => (Some (r :: rs), s2)
          end
      end
  end.

Definition is_save (o : op) : bool := bool_decide (op_type o = Save).
Definition is_delete (o : op) : bool := bool_decide (op_type o = Delete).

(** [[
    const operations = Array.from(this.operationQueue.values());
    this.operationQueue.clear();
    this.queueTimer = null;
    ]]
    The timeout that runs is armed no more. *)
Definition flush_begin (id : nat) (s : state) : list op * state :=
  (map snd (operationQueue s),
   State (heap s) (rows s) [] None (now s) (assoc_del id (timers s))
         (timer_ids s) (inflight s) (trace s ++ [Fired id])).

(** A statement is handed to the gateway and awaited; [k] is what the flush
    still has to do when it resolves. *)
Definition issue (q : stmt) (k : list op) (s : state) : state :=
  log (Issued q) (with_inflight (inflight s ++ [k]) s).

(** [[
    if (deletes.length > 0) {
      const ids = deletes.map((op) => op.row._idx);
      await this.knex(this.table).withSchema(this.schema).whereIn("_idx", ids).del();
    }
    ]] *)
Definition flush_deletes (deletes : list op) (s : state) : state :=
  match deletes with
  | [] => s
  | _ =>
      let '(ids, s1) := map_st (λ o, js_get (op_row o) (KStr "_idx")) deletes s in
      issue (DeleteIn ids) [] s1
  end.

(** [[
    const saves = operations.filter((op) => op.type === "save");
    const deletes = operations.filter((op) => op.type === "delete");
    if (saves.length > 0) {
      const insertRows = saves.map(...);
      await this.knex(this.table).withSchema(this.schema)
        .insert(insertRows).onConflict("_idx").merge();
    }
    if (deletes.length > 0) { ... }
    ]]
    The callback runs up to its first [await]; the deletes of a flush that
    has saves wait for the upsert to resolve. *)
Definition flush_body (operations : list op) (s : state) : state :=
  let saves := filter (λ o, is_save o = true) operations in
  let deletes := filter (λ o, is_delete o = true) operations in
  match saves with
  | [] => flush_deletes deletes s
  | _ =>
      match insertRows saves s with
      | (None, s1) => s1
      | (Some rs, s1) => issue (Upsert rs) deletes s1
      end
  end.

Definition flush (id : nat) (s : state) : state :=
  let '(operations, s1) := flush_begin id s in
  flush_body operations s1.

(** The [n]-th awaited statement resolves ([ok]) or rejects: the flush goes
    on after its [await], or ends there with the rejection. *)
Definition settle (n : nat) (ok : bool) (s : state) : state :=
  match inflight s !! n with
  | None => s
  | Some k =>
      let s1 := log (Settled ok) (with_inflight (delete n (inflight s)) s) in
      if ok then flush_deletes k s1 else s1
  end.

Arguments settle n%_nat ok s.

(** ** The host: time passes, a due timeout runs *)

Definition advance (d : Z) (s : state) : state :=
  if decide (0 ≤ d)
  then State (heap s) (rows s) (operationQueue s) (queueTimer s) (now s + d)
             (timers s) (timer_ids s) (inflight s) (trace s)
  else s.

Definition fire (id : nat) (s : state) : state :=
  match assoc_get id (timers s) with
  | Some due => if decide (due ≤ now s) then flush id s else s
  | None => s
  end.

(** What a caller and the host can do to a mirror. *)
Inductive action :=
  | ANew (fields : list (string * json))          (* an object literal *)
  | ARead (v : value) (k : string)                (* [v[k]] *)
  | AWrite (v : value) (k : string) (x : value)   (* [v[k] = x] *)
  | ARemove (v : value) (k : string)              (* [delete v[k]] *)
  | APush (row : value)
  | ASplice (start deleteCount : Z) (items : list value)
  | AAdvance (d : Z)
  | AFire (id : nat)
  | ASettle (n : nat) (ok : bool).

Arguments AFire id%_nat.
Arguments ASettle n%_nat ok.

Definition exec (a : action) (s : state) : state :=
  match a with
  | ANew fields => (new_object fields s).2
  | ARead v k => (js_get v (KStr k) s).2
  | AWrite v k x => js_set v (KStr k) x s
  | ARemove v k => js_delete v (KStr k) s
  | APush row => (push row s).2
  | ASplice start deleteCount items => (splice start deleteCount items s).2
  | AAdvance d => advance d s
  | AFire id => fire id s
  | ASettle n ok => settle n ok s
  end.

Definition run (acts : list action) (s : state) : state :=
  fold_left (λ s a, exec a s) acts s.

(** The statements handed to the gateway so far. *)
Fixpoint issued (t : list event) : list stmt :=
  match t with
  | [] => []
  | Issued q :: t' => q :: issued t'
  | _ :: t' => issued t'
  end.

(** The [onChange()] calls made so far. *)
Fixpoint changes (t : list event) : list callback :=
  match t with
  | [] => []
  | Changed cb :: t' => cb :: changes t'
  | _ :: t' => changes t'
  end.

(** The [operationQueue.set] calls made so far. *)
Fixpoint queued (t : list event) : list (value * op) :=
  match t with
  | [] => []
  | Queued key o :: t' => (key, o) :: queued t'
  | _ :: t' => queued t'
  end.

(** ** Two scenarios of the specification, run on the code *)

Module Scenario.

(** The table [{_idx: 0, name: "a"}, {_idx: 1, name: "b"}]. *)
Definition table_ab : list (list (string * json)) :=
  [ [("_idx"%string, JNum 0); ("name"%string, JStr "a")];
    [("_idx"%string, JNum 1); ("name"%string, JStr "b")] ].

Definition loaded : state := init table_ab empty_state.

Definition rec_ (i : Z) (name : string) : record :=
  [("_idx"%string, CVal (VNum i)); ("name"%string, CVal (VStr name))].

(** The mirror after its first flush has been sent and has resolved. *)
Definition settled : state :=
  run [AAdvance 500; AFire 0; ASettle 0 true] loaded.

(** Four rows, [a] to [d], loaded and flushed once. *)
Definition table_abcd : list (list (string * json)) :=
  [ [("_idx"%string, JNum 0); ("name"%string, JStr "a")];
    [("_idx"%string, JNum 1); ("name"%string, JStr "b")];
    [("_idx"%string, JNum 2); ("name"%string, JStr "c")];
    [("_idx"%string, JNum 3); ("name"%string, JStr "d")] ].

Definition settled_abcd : state :=
  run [AAdvance 500; AFire 0; ASettle 0 true] (init table_abcd empty_state).

(** A table with a JSON column: [{_idx: 0, data: {inner: {x: 1}}}], loaded
    and flushed once. *)
Definition table_nested : list (list (string * json)) :=
  [ [("_idx"%string, JNum 0);
     ("data"%string, JObj [("inner"%string, JObj [("x"%string, JNum 1)])])] ].

Definition nested : state :=
  run [AAdvance 500; AFire 0; ASettle 0 true] (init table_nested empty_state).

End Scenario.

(** * Invariants and relations between states *)

(** [onChange] of the closure built for [row], spelled out: the identity is
    filled in when it is missing, then the save is queued under it. *)
Definition fill_idx (row : addr) (s : state) : state :=
  if decide (obj_get row (KStr "_idx") s = VUndef)
  then obj_set row (KStr "_idx") (VNum (Z.of_nat (length (rows s)))) s
  else s.

(** The scheduler of a mirror: the queue, the handle, the armed timeouts,
    the next handle and the clock. *)
Definition ctl_of (s : state) : list (value * op) * option nat * list (nat * Z) * nat * Z :=
  (operationQueue s, queueTimer s, timers s, timer_ids s, now s).

(** [enqueues s s']: from [s] to [s'] the scheduler has only seen calls of
    [enqueue]. *)
Inductive enqueues : state → state → Prop :=
  | enqueues_none s s' :
      ctl_of s' = ctl_of s → enqueues s s'
  | enqueues_more s s1 s' key o :
      enqueues s s1 → ctl_of s' = ctl_of (enqueue key o s1) → enqueues s s'.

(** The handles of the timeouts that have run. *)
Fixpoint fired (t : list event) : list nat :=
  match t with
  | [] => []
  | Fired id :: t' => id :: fired t'
  | _ :: t' => fired t'
  end.

(** [tracked b s s']: from [s] to [s'] the rows of the mirror, the awaited
    calls and the issued statements are the same, the scheduler has only
    seen [enqueue]s, and the store has only grown: a Proxy stays what it is,
    an object stays an object and keeps its marker, and (when [b]) keeps an
    identity that is a number. *)
Record tracked (b : bool) (s s' : state) : Prop := Tracked {
  tr_ctl : enqueues s s';
  tr_rows : rows s' = rows s;
  tr_inflight : inflight s' = inflight s;
  tr_trace : ∃ t, trace s' = trace s ++ t ∧ issued t = [] ∧ fired t = [];
  tr_len : (length (heap s) ≤ length (heap s'))%nat;
  tr_prx a t cb : heap s !! a = Some (Prx t cb) → heap s' !! a = Some (Prx t cb);
  tr_obj a ps : heap s !! a = Some (Obj ps) →
    ∃ ps', heap s' !! a = Some (Obj ps') ∧
      (props_get KInternal ps = VBool true → props_get KInternal ps' = VBool true) ∧
      (b = true → ∀ i, props_get (KStr "_idx") ps = VNum i →
                       props_get (KStr "_idx") ps' = VNum i)
}.

(** [evolves b s s'] is [tracked b s s'] without the rows of the mirror, the
    awaited calls and the issued statements: what [push], [splice], the
    body of a flush and a settled call still guarantee. *)
Record evolves (b : bool) (s s' : state) : Prop := Evolves {
  ev_ctl : enqueues s s';
  ev_trace : ∃ t, trace s' = trace s ++ t ∧ fired t = [];
  ev_len : (length (heap s) ≤ length (heap s'))%nat;
  ev_prx a t cb : heap s !! a = Some (Prx t cb) → heap s' !! a = Some (Prx t cb);
  ev_obj a ps : heap s !! a = Some (Obj ps) →
    ∃ ps', heap s' !! a = Some (Obj ps') ∧
      (props_get KInternal ps = VBool true → props_get KInternal ps' = VBool true) ∧
      (b = true → ∀ i, props_get (KStr "_idx") ps = VNum i →
                       props_get (KStr "_idx") ps' = VNum i)
}.

(** Every action but a timer callback and the passing of time. *)
Definition is_call (a : action) : bool :=
  match a with
  | AFire _ | AAdvance _ => false
  | _ => true
  end.

(** At most one timeout is armed, and it is the one [queueTimer] names. *)
Definition timer_ok (s : state) : Prop :=
  match queueTimer s with
  | None => timers s = []
  | Some id => ∃ due, timers s = [(id, due)]
  end.

(** What holds of the scheduler in every state the mirror can reach: one
    timeout at most, handles that are fresh, one queue entry per key, and
    no timeout that runs twice or stays armed once it has run. *)
Record sched_inv (s : state) : Prop := SchedInv {
  si_timer : timer_ok s;
  si_fresh : ∀ id, id ∈ (timers s).*1 → (id < timer_ids s)%nat;
  si_keys : NoDup (operationQueue s).*1;
  si_fired : NoDup (fired (trace s));
  si_done : ∀ id, id ∈ fired (trace s) → (id < timer_ids s)%nat ∧ id ∉ (timers s).*1
}.




(** [touches l s s']: the store has grown, and of the cells it had only
    those named in [l] may have changed. *)
Definition touches (l : list addr) (s s' : state) : Prop :=
  (length (heap s) ≤ length (heap s'))%nat ∧
  ∀ b, b ∉ l → (b < length (heap s))%nat → heap s' !! b = heap s !! b.

(** A row of the mirror: a Proxy of a marked plain object [t], bound to the
    callback that saves [t]. *)
Definition row_struct (s : state) (w : value) (t : addr) : Prop :=
  ∃ p ps, w = VRef p ∧ heap s !! p = Some (Prx t (QueueSave t)) ∧
    heap s !! t = Some (Obj ps) ∧ props_get KInternal ps = VBool true.

(** A plain object that has not been wrapped yet. *)
Definition unmarked_row (s : state) (v : value) : Prop :=
  ∃ a ps, v = VRef a ∧ heap s !! a = Some (Obj ps) ∧ props_get KInternal ps = VUndef.

(** What wrapping guarantees of a wrapped row [w]: it is a Proxy of a row,
    bound to the callback that saves that row, and that save was notified
    and queued. *)
Definition wrapped_and_queued (s : state) (w : value) : Prop :=
  ∃ p a key, w = VRef p ∧ heap s !! p = Some (Prx a (QueueSave a)) ∧
    QueueSave a ∈ changes (trace s) ∧ (key, Op (VRef a) Save) ∈ queued (trace s).

(** The row [w] is a row of the mirror whose identity is [j]. *)
Definition row_at (s : state) (j : nat) (w : value) : Prop :=
  ∃ t, row_struct s w t ∧ obj_get t (KStr "_idx") s = VNum (Z.of_nat j).

(** Every entry of [this.rows] is a row Proxy whose target carries the
    entry's position as its identity. *)
Definition mirror_inv (s : state) : Prop :=
  ∀ j w, rows s !! j = Some w → row_at s j w.

(** The invariant of the specification: [row._idx] of every row is the
    position of the row in [this.rows]. *)
Definition identity_is_position (s : state) : Prop :=
  ∀ j w, rows s !! j = Some w → (js_get w (KStr "_idx") s).1 = VNum (Z.of_nat j).

(** The target of a row of the mirror. *)
Definition target_of (s : state) (w : value) : addr :=
  match w with
  | VRef p => match heap s !! p with Some (Prx t _) => t | _ => 0%nat end
  | _ => 0%nat
  end.

(** The address a reference names. *)
Definition addr_of (v : value) : addr :=
  match v with VRef a => a | _ => 0%nat end.

(** A stored row is positional when it carries no [_idx] or the [_idx] of
    the place where the load returns it. *)
Definition positional (i : nat) (fields : list (string * json)) : Prop :=
  ∀ j, ("_idx"%string, j) ∈ fields → j = JNum (Z.of_nat i).

(** Every row of a stored table is positional. *)
Definition positional_table (table : list (list (string * json))) : Prop :=
  ∀ i fields, table !! i = Some fields → positional i fields.

(** A loaded object that is positional at [i]. *)
Definition idx_ok (s : state) (i : nat) (v : value) : Prop :=
  ∃ a ps, v = VRef a ∧ heap s !! a = Some (Obj ps) ∧
    (props_get (KStr "_idx") ps = VUndef ∨ props_get (KStr "_idx") ps = VNum (Z.of_nat i)).

(** Calls that leave the identities to the mirror: the caller neither
    writes nor deletes [_idx], and what it hands to [push] and [splice]
    are new, distinct objects. *)
Definition allowed (a : action) (s : state) : Prop :=
  match a with
  | AWrite _ k _ | ARemove _ k => k ≠ "_idx"%string
  | APush row => unmarked_row s row
  | ASplice _ _ items => Forall (unmarked_row s) items ∧ NoDup items
  | _ => True
  end.

(** Every call of a sequence is allowed in the state it is made in. *)
Fixpoint permitted (acts : list action) (s : state) : Prop :=
  match acts with
  | [] => True
  | a :: acts' => allowed a s ∧ permitted acts' (exec a s)
  end.

Module Unordered.
(** The same two rows, returned by the store in the other order. *)
Definition table_ba : list (list (string * json)) :=
  [ [("_idx"%string, JNum 1); ("name"%string, JStr "b")];
    [("_idx"%string, JNum 0); ("name"%string, JStr "a")] ].
End Unordered.

(** What the caller does, as opposed to the host (time passing, a timer
    callback, a gateway call settling). *)
Definition is_caller (a : action) : bool :=
  match a with
  | AFire _ | AAdvance _ | ASettle _ _ => false
  | _ => true
  end.

(** [quiet s s']: no statement was issued and no awaited call was touched. *)
Definition quiet (s s' : state) : Prop :=
  inflight s' = inflight s ∧ issued (trace s') = issued (trace s).

(** A value all of whose fields (but [_internal]) are scalars, seen directly
    or through a Proxy: reading it changes nothing. *)
Definition scalar_view (s : state) (v : value) : Prop :=
  ∃ a ps, v = VRef a ∧
    (heap s !! a = Some (Obj ps) ∨
     ∃ t cb, heap s !! a = Some (Prx t cb) ∧ heap s !! t = Some (Obj ps)) ∧
    ∀ k, k ≠ "_internal"%string → is_object (props_get (KStr k) ps) = false.

(** * Further definitions: flushes, paths, JSON trees, names *)

(** The queue and the timer go together: the handle is null exactly when
    nothing is queued. *)
Definition queue_timer_agree (s : state) : Prop :=
  queueTimer s = None ↔ operationQueue s = [].

(** [row._idx], read as the flush reads it. *)
Definition idx_of (s : state) (row : value) : value :=
  (js_get row (KStr "_idx") s).1.

(** [v.k1.k2. ... .kn]: successive property reads, as a caller writes them
    ([Info.rows[0].extra.filesInfo]). *)
Fixpoint reads (v : value) (path : list string) (s : state) : value * state :=
  match path with
  | [] => (v, s)
  | k :: path' => let '(x, s1) := js_get v (KStr k) s in reads x path' s1
  end.

(** From the plain object [a] the keys of [path] lead through plain objects
    that have not been wrapped yet, all different and none of them in
    [seen]. *)
Fixpoint unwrapped_path (s : state) (a : addr) (path : list string) (seen : list addr) : Prop :=
  match path with
  | [] => True
  | k :: path' =>
      ∃ c psc, obj_get a (KStr k) s = VRef c ∧ heap s !! c = Some (Obj psc) ∧
        props_get KInternal psc = VUndef ∧ (c ∉ seen) ∧
        unwrapped_path s c path' (c :: seen)
  end.









(** ** The constructor: which schema, which table

    [[
    constructor({ dbUrl, schema = "tk", table, logging = false }) {
      if (table.includes(".")) {
        [schema, table] = table.split(".");
      }
      this.schema = schema;
      this.table = table;
      ...
    ]] *)

(** The separator ["."]. *)
Definition dot : Ascii.ascii := Ascii.ascii_of_nat 46.

(** [s.includes(c)] for a one-character [c]. *)
Fixpoint includes (c : Ascii.ascii) (s : string) : bool :=
  match s with
  | EmptyString => false
  | String x s' => if Ascii.eqb x c then true else includes c s'
  end.

(** [s.split(c)] for a one-character [c]: never empty, one part more than
    there are separators. *)
Fixpoint split (c : Ascii.ascii) (s : string) : list string :=
  match s with
  | EmptyString => [EmptyString]
  | String x s' =>
      if Ascii.eqb x c then EmptyString :: split c s'
      else match split c s' with
           | part :: parts => String x part :: parts
           | [] => [String x EmptyString]
           end
  end.

(** [this.schema] and [this.table]; [None] is [undefined], as a
    destructuring of too short an array would leave them.  The default of
    the [schema] option applies when the caller gives none. *)
Definition constructor_names (schema : option string) (table : string)
    : option string * option string :=
  let schema := default "tk"%string schema in
  if includes dot table
  then let parts := split dot table in (parts !! 0%nat, parts !! 1%nat)
  else (Some schema, Some table).

(** * Properties *)

(** ** Association lists *)

Section AssocFacts.
Context {K V : Type} `{EqDecision K}.
Implicit Types (l : list (K * V)) (k : K).

Lemma assoc_get_upd_eq k f l :
  assoc_get k (assoc_upd k f l) = Some (f (assoc_get k l)).
Proof.
  induction l as [|[k' v] l IH]; csimpl.
  - by rewrite decide_True.
  - destruct (decide (k = k')) as [->|Hne]; csimpl.
    + by rewrite decide_True.
    + by rewrite decide_False.
Qed.

Lemma assoc_get_upd_ne k k' f l :
  k ≠ k' → assoc_get k' (assoc_upd k f l) = assoc_get k' l.
Proof.
  intros Hne. induction l as [|[k0 v] l IH]; csimpl.
  - by rewrite decide_False.
  - destruct (decide (k = k0)) as [->|Hne0]; csimpl.
    + by rewrite !decide_False.
    + by rewrite IH.
Qed.

Lemma assoc_upd_keys_in k f l :
  is_Some (assoc_get k l) → (assoc_upd k f l).*1 = l.*1.
Proof.
  induction l as [|[k' v] l IH]; csimpl.
  - by intros [? ?].
  - destruct (decide (k = k')) as [->|Hne]; csimpl; [done|].
    intros Hs. by rewrite IH.
Qed.

Lemma assoc_upd_keys_notin k f l :
  assoc_get k l = None → (assoc_upd k f l).*1 = l.*1 ++ [k].
Proof.
  induction l as [|[k' v] l IH]; csimpl; [done|].
  destruct (decide (k = k')) as [->|Hne]; csimpl; [done|].
  intros Hs. by rewrite IH.
Qed.

Lemma assoc_get_None k l : assoc_get k l = None ↔ k ∉ l.*1.
Proof.
  induction l as [|[k' v] l IH]; csimpl.
  - split; [intros _; apply not_elem_of_nil | done].
  - rewrite not_elem_of_cons. destruct (decide (k = k')) as [->|Hne].
    + split; [done | by intros [? _]].
    + rewrite IH. tauto.
Qed.

Lemma assoc_get_Some_elem k v l : assoc_get k l = Some v → (k, v) ∈ l.
Proof.
  induction l as [|[k' v'] l IH]; csimpl; [done|].
  destruct (decide (k = k')) as [->|Hne].
  - intros [= ->]. apply list_elem_of_here.
  - intros Hg. apply list_elem_of_further. by apply IH.
Qed.

Lemma assoc_upd_NoDup k f l : NoDup l.*1 → NoDup (assoc_upd k f l).*1.
Proof.
  intros Hnd. destruct (assoc_get k l) as [v|] eqn:Hg.
  - by rewrite assoc_upd_keys_in.
  - rewrite assoc_upd_keys_notin by done.
    apply NoDup_app. split; [done|]. split.
    + intros x Hx Hk. apply list_elem_of_singleton in Hk as ->.
      by apply assoc_get_None in Hg.
    + apply NoDup_singleton.
Qed.



Lemma assoc_del_keys_subset k k' l : k' ∈ (assoc_del k l).*1 → k' ∈ l.*1.
Proof.
  induction l as [|[k0 v] l IH]; csimpl; [done|].
  destruct (decide (k = k0)) as [->|Hne]; csimpl.
  - apply list_elem_of_further.
  - rewrite !elem_of_cons. tauto.
Qed.
End AssocFacts.

(** ** The order of an object's own keys *)


Section OwnOrderFacts.
Context {A : Type} (key : A → string).

Lemma insert_index_perm n (x : A) l : insert_index n x l ≡ₚ (n, x) :: l.
Proof.
  induction l as [|[m y] l IH]; simpl; [done|].
  destruct (n <? m)%N; [done|]. rewrite IH. apply Permutation_swap.
Qed.

Lemma own_order_perm l : own_order key l ≡ₚ l.
Proof.
  unfold own_order. induction l as [|x l IH]; simpl; [done|].
  destruct (array_index (key x)) as [n|].
  - rewrite insert_index_perm. simpl. by rewrite IH.
  - rewrite <- Permutation_middle. by rewrite IH.
Qed.

Lemma elem_of_own_order x l : x ∈ own_order key l ↔ x ∈ l.
Proof. by rewrite own_order_perm. Qed.

Lemma index_entries_named l :
  Forall (λ x, array_index (key x) = None) l →
  index_entries key l = [] ∧ named_entries key l = l.
Proof.
  induction 1 as [|x l Hx _ [IH1 IH2]]; simpl; [done|].
  rewrite Hx. by rewrite IH1, IH2.
Qed.

(** An object without array indices among its keys lists them as they
    were created. *)
Lemma own_order_named l :
  Forall (λ x, array_index (key x) = None) l → own_order key l = l.
Proof.
  intros Hl. unfold own_order. by destruct (index_entries_named l Hl) as [-> ->].
Qed.

Lemma insert_index_keys n (x : A) l :
  array_index (key x) = Some n →
  Forall (λ nx, array_index (key nx.2) = Some nx.1) l →
  Forall (λ nx, array_index (key nx.2) = Some nx.1) (insert_index n x l).
Proof.
  intros Hx. induction 1 as [|[m y] l Hy Hl IH]; simpl.
  - by constructor.
  - destruct (n <? m)%N; repeat constructor; done.
Qed.

Lemma index_entries_keys l :
  Forall (λ nx, array_index (key nx.2) = Some nx.1) (index_entries key l).
Proof.
  induction l as [|x l IH]; simpl; [constructor|].
  destruct (array_index (key x)) as [n|] eqn:Hx; [|done]. by apply insert_index_keys.
Qed.

Lemma named_entries_keys l :
  Forall (λ x, array_index (key x) = None) (named_entries key l).
Proof.
  induction l as [|x l IH]; simpl; [constructor|].
  destruct (array_index (key x)) as [n|] eqn:Hx; [done|]. by constructor.
Qed.

Lemma insert_index_sorted n (x : A) l :
  StronglySorted (λ a b : N * A, (a.1 ≤ b.1)%N) l →
  StronglySorted (λ a b : N * A, (a.1 ≤ b.1)%N) (insert_index n x l).
Proof.
  induction 1 as [|[m y] l Hl IH Hall]; simpl.
  - repeat constructor.
  - destruct (n <? m)%N eqn:Hnm.
    + apply N.ltb_lt in Hnm. constructor; [by constructor|].
      constructor; [simpl; lia|]. eapply Forall_impl; [exact Hall|].
      intros [m' y'] Hm'. simpl in *. lia.
    + apply N.ltb_ge in Hnm. constructor; [done|].
      rewrite insert_index_perm. constructor; [done|exact Hall].
Qed.

Lemma index_entries_sorted l :
  StronglySorted (λ a b : N * A, (a.1 ≤ b.1)%N) (index_entries key l).
Proof.
  induction l as [|x l IH]; simpl; [constructor|].
  destruct (array_index (key x)); [by apply insert_index_sorted|done].
Qed.


Lemma named_entries_cons_named x l :
  array_index (key x) = None →
  own_order key (x :: l) = (index_entries key l).*2 ++ x :: named_entries key l.
Proof. intros Hx. unfold own_order. simpl. by rewrite Hx. Qed.
End OwnOrderFacts.

Lemma own_order_fst_keys {V} (r : list (string * V)) :
  (own_order fst r).*1 ≡ₚ r.*1.
Proof. by rewrite own_order_perm. Qed.


Lemma elem_of_own_keys k ps : k ∈ own_keys ps ↔ k ∈ props_keys ps.
Proof. apply elem_of_own_order. Qed.

(** [rowToSave] is its loop followed by the listing of the record. *)
Lemma rowToSave_loop o s :
  rowToSave o s =
    let i := (js_get (op_row o) (KStr "_idx") s).1 in
    let s1 := (js_get (op_row o) (KStr "_idx") s).2 in
    let r := rowToSave_fields (op_row o) (js_keys (op_row o) s1)
               [("_idx"%string, CVal i)] s1 in
    (own_order fst <$> r.1, r.2).
Proof.
  unfold rowToSave. destruct (js_get _ _ _) as [i s1]. simpl.
  by destruct (rowToSave_fields _ _ _ _) as [[r|] s2].
Qed.

(** ** The store *)

Lemma props_get_set_eq k v ps : props_get k (props_set k v ps) = v.
Proof.
  unfold props_get, props_set. rewrite assoc_get_upd_eq. by destruct (assoc_get k ps).
Qed.

Lemma props_get_set_ne k k' v ps : k ≠ k' → props_get k' (props_set k v ps) = props_get k' ps.
Proof. intros Hne. unfold props_get, props_set. by rewrite assoc_get_upd_ne. Qed.

Lemma obj_set_with_heap a k v s : ∃ h, obj_set a k v s = with_heap h s ∧ length h = length (heap s).
Proof.
  unfold obj_set. destruct (heap s !! a) as [[ps|t cb]|].
  - eexists. split; [done|]. by rewrite length_insert.
  - exists (heap s). by destruct s.
  - exists (heap s). by destruct s.
Qed.

Lemma obj_get_lookup a k ps s :
  heap s !! a = Some (Obj ps) → obj_get a k s = props_get k ps.
Proof. intros Ha. unfold obj_get. by rewrite Ha. Qed.

Lemma obj_get_set_eq a k v ps s :
  heap s !! a = Some (Obj ps) → obj_get a k (obj_set a k v s) = v.
Proof.
  intros Ha. unfold obj_get, obj_set. rewrite Ha. simpl.
  rewrite list_lookup_insert_eq by (by eapply lookup_lt_Some).
  apply props_get_set_eq.
Qed.

(** ** The trace of the tracker's steps *)

Lemma changes_app t1 t2 : changes (t1 ++ t2) = changes t1 ++ changes t2.
Proof.
  induction t1 as [|e t1 IH]; [done|]. destruct e; simpl; by rewrite ?IH.
Qed.

Lemma issued_app t1 t2 : issued (t1 ++ t2) = issued t1 ++ issued t2.
Proof.
  induction t1 as [|e t1 IH]; [done|]. destruct e; simpl; by rewrite ?IH.
Qed.

Lemma queued_app t1 t2 : queued (t1 ++ t2) = queued t1 ++ queued t2.
Proof.
  induction t1 as [|e t1 IH]; [done|]. destruct e; simpl; by rewrite ?IH.
Qed.

Lemma trace_obj_set a k v s : trace (obj_set a k v s) = trace s.
Proof. destruct (obj_set_with_heap a k v s) as (h & -> & _). done. Qed.

Lemma trace_arm s :
  trace (arm s) = trace s ++
    match queueTimer s with
    | Some _ => []
    | None => [Armed (timer_ids s) (now s + debounce)]
    end.
Proof. unfold arm. destruct (queueTimer s); simpl; by rewrite ?app_nil_r. Qed.

Lemma trace_enqueue key o s :
  trace (enqueue key o s) = trace s ++ Queued key o ::
    match queueTimer s with
    | Some _ => []
    | None => [Armed (timer_ids s) (now s + debounce)]
    end.
Proof. unfold enqueue. rewrite trace_arm. simpl. by rewrite <- app_assoc. Qed.

Lemma onChange_unfold row s :
  onChange (QueueSave row) s =
    let s1 := fill_idx row (log (Changed (QueueSave row)) s) in
    enqueue (obj_get row (KStr "_idx") s1) (Op (VRef row) Save) s1.
Proof.
  unfold onChange, queueOperation_with, fill_idx, raw_get, raw_set. simpl.
  by destruct (decide _).
Qed.

Lemma trace_fill_idx row s : trace (fill_idx row s) = trace s.
Proof. unfold fill_idx. destruct (decide _); [apply trace_obj_set | done]. Qed.

Lemma changes_onChange cb s :
  changes (trace (onChange cb s)) = changes (trace s) ++ [cb].
Proof.
  destruct cb as [row]. rewrite onChange_unfold. simpl.
  rewrite trace_enqueue, trace_fill_idx. simpl.
  rewrite !changes_app. simpl. destruct (queueTimer _); simpl; by rewrite app_nil_r.
Qed.

(** ** The set trap *)

(** C9. A write [p[k] = v] through a tracked value [p] whose target is [t]:
    the write to [t] is performed whatever the old value was; [onChange] runs
    on the store that already holds the write, and it runs exactly when the
    old value is not [v] under [===] (for two references: when they are not
    the same object, whatever the objects hold). *)
Theorem write_through_tracked_value (s : state) (p t : addr) (cb : callback)
    (ps : list (pkey * slot)) (k : pkey) (v : value) :
  heap s !! p = Some (Prx t cb) →
  heap s !! t = Some (Obj ps) →
  let old := obj_get t k s in
  let written := obj_set t k v s in
  let s' := js_set (VRef p) k v s in
  obj_get t k written = v ∧
  s' = (if decide (old = v) then written else onChange cb written) ∧
  changes (trace s') = changes (trace s) ++ (if decide (old = v) then [] else [cb]) ∧
  (∀ a b, old = VRef a → v = VRef b → a ≠ b →
     changes (trace s') = changes (trace s) ++ [cb]).
Proof.
  intros Hp Ht old written s'.
  assert (Hs' : s' = if decide (old = v) then written else onChange cb written).
  { subst s'. unfold js_set. rewrite Hp. reflexivity. }
  assert (Hch : changes (trace s') =
                changes (trace s) ++ (if decide (old = v) then [] else [cb])).
  { rewrite Hs'. destruct (decide (old = v)).
    - subst written. by rewrite trace_obj_set, app_nil_r.
    - rewrite changes_onChange. subst written. by rewrite trace_obj_set. }
  split; [by eapply obj_get_set_eq|]. split; [done|]. split; [done|].
  intros a b Ha Hb Hab. rewrite Hch. rewrite decide_False; [done|].
  rewrite Ha, Hb. congruence.
Qed.

Lemma write_through_tracked_value_witness :
  let s := Scenario.loaded in
  let ps := [(KStr "_idx", Slot (VNum 0) true true);
             (KStr "name", Slot (VStr "a") true true);
             (KInternal, Slot (VBool true) true true);
             (KStr "_internal", Slot (VRef 3) false false)] in
  heap s !! 2%nat = Some (Prx 0 (QueueSave 0)) ∧
  heap s !! 0%nat = Some (Obj ps) ∧
  obj_get 0 (KStr "name") (obj_set 0 (KStr "name") (VStr "a2") s) = VStr "a2" ∧
  changes (trace (js_set (VRef 2) (KStr "name") (VStr "a2") s)) =
    changes (trace s) ++ [QueueSave 0].
Proof.
  intros s ps.
  assert (Hp : heap s !! 2%nat = Some (Prx 0 (QueueSave 0))) by reflexivity.
  assert (Ht : heap s !! 0%nat = Some (Obj ps)) by reflexivity.
  destruct (write_through_tracked_value s 2%nat 0%nat (QueueSave 0) ps (KStr "name")
              (VStr "a2") Hp Ht) as (Hw & _ & Hc & _).
  split; [exact Hp|]. split; [exact Ht|]. split; [exact Hw|]. exact Hc.
Defined.

(** ** A rejected gateway call *)

(** When the [n]-th awaited statement is rejected, the flush that awaited
    it ends there: the rejection itself queues nothing, arms no timer and
    issues no statement (the deletes that the flush still held are dropped),
    and the rows and every object of the store are as they were. *)
Lemma rejected_call_is_dropped (s : state) (n : nat) (k : list op) :
  inflight s !! n = Some k →
  let s' := settle n false s in
  heap s' = heap s ∧ rows s' = rows s ∧
  operationQueue s' = operationQueue s ∧
  queueTimer s' = queueTimer s ∧ timers s' = timers s ∧
  queued (trace s') = queued (trace s) ∧
  issued (trace s') = issued (trace s) ∧
  inflight s' = delete n (inflight s).
Proof.
  intros Hn s'. subst s'. unfold settle. rewrite Hn. simpl.
  rewrite queued_app, issued_app. simpl. by rewrite !app_nil_r.
Qed.

(** C10. The batch of a rejected call is not always lost.  The mirror holds
    the row [{_idx: 0, data: {inner: {x: 1}}}], loaded and flushed.  The
    caller sets [rows[0].data.flag = true]; the timer fires and the upsert
    of the row is sent.  Building that upsert serialises [data] through its
    Proxy, the read of [inner] wraps it, and the marker write of the new
    Proxy calls [onChange]: when the upsert is handed to the gateway the
    save of the row is in the queue again and a timeout is armed.  The
    upsert is rejected; the rows and the store are as they were, but
    500 ms later the same record goes out once more, with nothing done by
    the caller in between. *)
Theorem rejected_nested_save_is_sent_again :
  let row := VRef 3 in
  let r : record :=
    [("_idx"%string, CVal (VNum 0));
     ("data"%string,
      CJson (JObj [("inner"%string, JObj [("x"%string, JNum 1)]);
                   ("flag"%string, JBool true)]))] in
  let s0 := run [ARead row "data"; AWrite (VRef 5) "flag" (VBool true); AAdvance 500]
                Scenario.nested in
  let s := fire 1 s0 in
  let rejected := settle 0 false s in
  let later := run [AAdvance 500; AFire 2] rejected in
  rows Scenario.nested = [row] ∧
  (js_get row (KStr "data") Scenario.nested).1 = VRef 5 ∧
  operationQueue s0 = [(VNum 0, Op (VRef 2) Save)] ∧ timers s0 = [(1%nat, now s0)] ∧
  issued (trace s) = issued (trace s0) ++ [Upsert [r]] ∧ inflight s = [[]] ∧
  operationQueue s = [(VNum 0, Op (VRef 2) Save)] ∧
  queueTimer s = Some 2%nat ∧ timers s = [(2%nat, now s + 500)] ∧
  heap rejected = heap s ∧ rows rejected = rows s ∧ inflight rejected = [] ∧
  operationQueue rejected = operationQueue s ∧ timers rejected = timers s ∧
  issued (trace later) = issued (trace s0) ++ [Upsert [r]; Upsert [r]] ∧
  operationQueue later = [] ∧ timers later = [].
Proof. vm_compute. repeat split. Qed.

(** ** The specification's scenarios on the code *)

(** C1. The mirror loads [{_idx:0, name:"a"}] and [{_idx:1, name:"b"}] and
    the caller sets the name of row 0 to ["a2"].  Wrapping a row writes the
    marker through the new Proxy, so loading alone queues a save of both
    rows.  When the write comes before the first flush, the one upsert
    carries row 1 as well; when it comes after it, row 1 has already been
    upserted by the flush that the load itself armed. *)
Theorem load_then_one_write_upserts_both_rows :
  let row0 := VRef 2 in
  rows Scenario.loaded !! 0%nat = Some row0 ∧
  operationQueue Scenario.loaded =
    [(VNum 0, Op (VRef 0) Save); (VNum 1, Op (VRef 1) Save)] ∧
  issued (trace (run [AWrite row0 "name" (VStr "a2"); AAdvance 500; AFire 0]
                     Scenario.loaded)) =
    [Upsert [Scenario.rec_ 0 "a2"; Scenario.rec_ 1 "b"]] ∧
  issued (trace (run [AAdvance 500; AFire 0; ASettle 0 true;
                      AWrite row0 "name" (VStr "a2"); AAdvance 500; AFire 1]
                     Scenario.loaded)) =
    [Upsert [Scenario.rec_ 0 "a"; Scenario.rec_ 1 "b"];
     Upsert [Scenario.rec_ 0 "a2"]].
Proof. repeat split; reflexivity. Qed.

(** C2. Two rows are loaded and flushed.  Then
    - [splice(0, 1)] queues the delete of the removed row under identity 0,
      and the reindexing of the row that stays queues its save under the
      same key: the delete is replaced, and the flush is one upsert;
    - [splice(1, 1)] followed by [push({name: "c"})] queues the delete under
      identity 1 and then the save of the new row under 1: again the flush
      is one upsert and no delete. *)
Theorem delete_is_replaced_by_save_of_same_identity :
  let after_remove := run [ASplice 0 1 []] Scenario.settled in
  let after_replace :=
    run [ANew [("name"%string, JStr "c")]; ASplice 1 1 []; APush (VRef 6)]
        Scenario.settled in
  operationQueue Scenario.settled = [] ∧
  queued (trace after_remove) = queued (trace Scenario.settled) ++
    [(VNum 0, Op (VRef 2) Delete); (VNum 0, Op (VRef 1) Save)] ∧
  operationQueue after_remove = [(VNum 0, Op (VRef 1) Save)] ∧
  issued (trace (run [AAdvance 500; AFire 1] after_remove)) =
    issued (trace Scenario.settled) ++ [Upsert [Scenario.rec_ 0 "b"]] ∧
  operationQueue after_replace = [(VNum 1, Op (VRef 7) Save)] ∧
  issued (trace (run [AAdvance 500; AFire 1] after_replace)) =
    issued (trace Scenario.settled) ++ [Upsert [Scenario.rec_ 1 "c"]].
Proof. repeat split; reflexivity. Qed.

(** ** What the tracker's steps leave alone

    The part of the state that belongs to the scheduler, and the steps that
    change it by [enqueue] only. *)

Lemma enqueues_ctl s1 s2 s3 : enqueues s1 s2 → ctl_of s3 = ctl_of s2 → enqueues s1 s3.
Proof.
  intros H12 Heq. inversion H12 as [? ? Heq'|? sm ? key o Hm Heq']; subst.
  - apply enqueues_none. by rewrite Heq.
  - eapply enqueues_more; [exact Hm|]. by rewrite Heq.
Qed.

Lemma enqueues_trans s1 s2 s3 : enqueues s1 s2 → enqueues s2 s3 → enqueues s1 s3.
Proof.
  intros H12 H23. induction H23 as [s2 s3 Heq|s2 sm s3 key o Hm IH Heq].
  - by eapply enqueues_ctl.
  - eapply enqueues_more; [by apply IH|done].
Qed.

Lemma enqueues_refl s : enqueues s s.
Proof. by apply enqueues_none. Qed.

Lemma tracked_refl b s : tracked b s s.
Proof.
  split; try done.
  - apply enqueues_refl.
  - exists []. by rewrite app_nil_r.
  - intros a ps Ha. by exists ps.
Qed.

Lemma tracked_trans b s1 s2 s3 : tracked b s1 s2 → tracked b s2 s3 → tracked b s1 s3.
Proof.
  intros [c1 r1 i1 (t1 & e1 & n1 & f1) l1 p1 o1] [c2 r2 i2 (t2 & e2 & n2 & f2) l2 p2 o2].
  split.
  - by eapply enqueues_trans.
  - congruence.
  - congruence.
  - exists (t1 ++ t2). rewrite e2, e1, <- app_assoc. split; [done|].
    split.
    + rewrite issued_app, n1, n2. done.
    + clear -f1 f2. induction t1 as [|e t1 IH]; [done|].
      destruct e; simpl in *; try by apply IH. done.
  - lia.
  - intros a t cb Ha. by apply p2, p1.
  - intros a ps Ha. destruct (o1 a ps Ha) as (ps1 & Ha1 & Hm1 & Hi1).
    destruct (o2 a ps1 Ha1) as (ps2 & Ha2 & Hm2 & Hi2).
    exists ps2. split; [done|]. split; [tauto|].
    intros Hb i Hi. by apply Hi2, Hi1.
Qed.

Lemma tracked_weaken b s s' : tracked true s s' → tracked b s s'.
Proof.
  intros [c r i t l p o]. split; try done.
  intros a ps Ha. destruct (o a ps Ha) as (ps' & Ha' & Hm & Hi).
  exists ps'. split; [done|]. split; [done|]. intros _. by apply Hi.
Qed.

(** Steps that touch neither the scheduler nor the trace. *)
Lemma tracked_heap_only b s s' :
  ctl_of s' = ctl_of s → rows s' = rows s → inflight s' = inflight s →
  trace s' = trace s →
  (length (heap s) ≤ length (heap s'))%nat →
  (∀ a t cb, heap s !! a = Some (Prx t cb) → heap s' !! a = Some (Prx t cb)) →
  (∀ a ps, heap s !! a = Some (Obj ps) →
     ∃ ps', heap s' !! a = Some (Obj ps') ∧
       (props_get KInternal ps = VBool true → props_get KInternal ps' = VBool true) ∧
       (b = true → ∀ i, props_get (KStr "_idx") ps = VNum i →
                        props_get (KStr "_idx") ps' = VNum i)) →
  tracked b s s'.
Proof.
  intros Hc Hr Hi Ht Hl Hp Ho. split; try assumption.
  - by apply enqueues_none.
  - exists []. by rewrite app_nil_r.
Qed.

(** Replacing the properties of one object. *)
Lemma tracked_update b a ps ps' s :
  heap s !! a = Some (Obj ps) →
  (props_get KInternal ps = VBool true → props_get KInternal ps' = VBool true) →
  (b = true → ∀ i, props_get (KStr "_idx") ps = VNum i →
                   props_get (KStr "_idx") ps' = VNum i) →
  tracked b s (with_heap (<[a := Obj ps']> (heap s)) s).
Proof.
  intros Ha Hm Hi. apply tracked_heap_only; simpl; try reflexivity.
  - by rewrite length_insert.
  - intros a' t cb Ha'. destruct (decide (a = a')) as [<-|Hne].
    + congruence.
    + by rewrite list_lookup_insert_ne.
  - intros a' ps0 Ha'. destruct (decide (a = a')) as [<-|Hne].
    + rewrite list_lookup_insert_eq by (by eapply lookup_lt_Some).
      exists ps'. split; [done|]. assert (ps0 = ps) as -> by congruence. done.
    + rewrite list_lookup_insert_ne by done. exists ps0. done.
Qed.

Lemma tracked_obj_set b a k v s :
  (k = KInternal → v = VBool true) →
  (b = true → k = KStr "_idx" → ∀ i, obj_get a k s ≠ VNum i) →
  tracked b s (obj_set a k v s).
Proof.
  intros Hk Hi. unfold obj_set.
  destruct (heap s !! a) as [[ps|t cb]|] eqn:Ha; try apply tracked_refl.
  apply (tracked_update _ _ ps); [done| |].
  - intros Hm. destruct (decide (k = KInternal)) as [->|Hne].
    + rewrite props_get_set_eq. by apply Hk.
    + by rewrite props_get_set_ne.
  - intros Hb i Hidx. destruct (decide (k = KStr "_idx")) as [->|Hne].
    + exfalso. apply (Hi Hb eq_refl i). unfold obj_get. by rewrite Ha.
    + by rewrite props_get_set_ne.
Qed.

Lemma props_get_delete_ne k k' ps : k ≠ k' → props_get k' (props_delete k ps) = props_get k' ps.
Proof.
  intros Hne. unfold props_get, props_delete.
  destruct (assoc_get k ps) as [sl|]; [|done]. destruct (sconf sl); [|done].
  f_equal. induction ps as [|[k0 v] ps IH]; [done|]. simpl.
  destruct (decide (k = k0)) as [->|Hne0]; simpl.
  - by rewrite decide_False.
  - destruct (decide (k' = k0)); [done|]. apply IH.
Qed.

Lemma tracked_obj_delete b a k s :
  k ≠ KInternal →
  (b = true → k ≠ KStr "_idx") →
  tracked b s (obj_delete a k s).
Proof.
  intros Hk Hi. unfold obj_delete.
  destruct (heap s !! a) as [[ps|t cb]|] eqn:Ha; try apply tracked_refl.
  apply (tracked_update _ _ ps); [done| |].
  - intros Hm. by rewrite props_get_delete_ne.
  - intros Hb i Hidx. rewrite props_get_delete_ne; [done|]. by apply Hi.
Qed.

Lemma tracked_alloc b c s : tracked b s (alloc c s).2.
Proof.
  unfold alloc. apply tracked_heap_only; simpl; try reflexivity.
  - rewrite length_app. lia.
  - intros a t cb Ha. by apply lookup_app_l_Some.
  - intros a ps Ha. exists ps. split; [by apply lookup_app_l_Some|done].
Qed.

Lemma tracked_log b e s :
  (∀ q, e ≠ Issued q) → (∀ id, e ≠ Fired id) → tracked b s (log e s).
Proof.
  intros Hq Hf. split; simpl; try reflexivity.
  - by apply enqueues_none.
  - exists [e]. split; [done|]. destruct e; try done.
    + by destruct (Hf id).
    + by destruct (Hq q).
  - by intros.
  - intros a ps Ha. by exists ps.
Qed.

Lemma heap_arm s : heap (arm s) = heap s.
Proof. unfold arm. by destruct (queueTimer s). Qed.

Lemma rows_arm s : rows (arm s) = rows s.
Proof. unfold arm. by destruct (queueTimer s). Qed.

Lemma inflight_arm s : inflight (arm s) = inflight s.
Proof. unfold arm. by destruct (queueTimer s). Qed.

Lemma tracked_enqueue b key o s : tracked b s (enqueue key o s).
Proof.
  split.
  - eapply enqueues_more; [apply enqueues_refl|done].
  - unfold enqueue. by rewrite rows_arm.
  - unfold enqueue. by rewrite inflight_arm.
  - eexists. split; [apply trace_enqueue|]. by destruct (queueTimer s).
  - unfold enqueue. by rewrite heap_arm.
  - intros a t cb Ha. unfold enqueue. by rewrite heap_arm.
  - intros a ps Ha. exists ps. unfold enqueue. by rewrite heap_arm.
Qed.

Lemma tracked_fill_idx b row s : tracked b s (fill_idx row s).
Proof.
  unfold fill_idx. destruct (decide _) as [Hu|]; [|apply tracked_refl].
  apply tracked_obj_set; [done|]. intros _ _ i. by rewrite Hu.
Qed.

Lemma tracked_onChange b cb s : tracked b s (onChange cb s).
Proof.
  destruct cb as [row]. rewrite onChange_unfold. simpl.
  eapply tracked_trans; [apply (tracked_log b (Changed (QueueSave row))); intros ? ?; discriminate|].
  eapply tracked_trans; [apply tracked_fill_idx|]. apply tracked_enqueue.
Qed.

Lemma tracked_set_trap b t cb k v s :
  (k = KInternal → v = VBool true) →
  (b = true → k = KStr "_idx" → ∀ i, obj_get t k s ≠ VNum i) →
  tracked b s (set_trap t cb k v s).
Proof.
  intros Hk Hi. unfold set_trap.
  destruct (decide _); [by apply tracked_obj_set|].
  eapply tracked_trans; [by apply tracked_obj_set|]. apply tracked_onChange.
Qed.

Lemma tracked_delete_trap b t cb k s :
  k ≠ KInternal → (b = true → k ≠ KStr "_idx") →
  tracked b s (delete_trap t cb k s).
Proof.
  intros Hk Hi. unfold delete_trap.
  eapply tracked_trans; [by apply tracked_obj_delete|]. apply tracked_onChange.
Qed.

Lemma tracked_createDeepProxy b target cb s : tracked b s (createDeepProxy target cb s).2.
Proof.
  unfold createDeepProxy. destruct target as [| | | | |a]; try apply tracked_refl.
  destruct (has_marker _ _); [apply tracked_refl|].
  destruct (alloc (Prx a cb) s) as [p s1] eqn:Hal. simpl.
  eapply tracked_trans.
  - pose proof (tracked_alloc b (Prx a cb) s) as H. by rewrite Hal in H.
  - by apply tracked_set_trap.
Qed.

(** A property that holds a reference keeps it while something else is
    wrapped. *)
Lemma obj_get_obj_set_ne a k v a' k' s :
  (a, k) ≠ (a', k') → obj_get a' k' (obj_set a k v s) = obj_get a' k' s.
Proof.
  intros Hne. unfold obj_get, obj_set.
  destruct (heap s !! a) as [[ps|t cb]|] eqn:Ha; [|done..]. simpl.
  destruct (decide (a = a')) as [<-|Hna].
  - rewrite list_lookup_insert_eq by (by eapply lookup_lt_Some). rewrite Ha.
    apply props_get_set_ne. congruence.
  - by rewrite list_lookup_insert_ne.
Qed.

Lemma obj_get_alloc c a k s :
  is_Some (heap s !! a) → obj_get a k (alloc c s).2 = obj_get a k s.
Proof.
  intros [x Hx]. unfold obj_get, alloc. simpl.
  by rewrite (lookup_app_l_Some _ _ _ _ Hx), Hx.
Qed.

Lemma obj_get_heap_eq a k s s' : heap s' = heap s → obj_get a k s' = obj_get a k s.
Proof. intros Hh. unfold obj_get. by rewrite Hh. Qed.

Lemma heap_enqueue key o s : heap (enqueue key o s) = heap s.
Proof. unfold enqueue. by rewrite heap_arm. Qed.

Lemma obj_get_fill_idx_ref row a k c s :
  obj_get a k s = VRef c → obj_get a k (fill_idx row s) = VRef c.
Proof.
  intros Hg. unfold fill_idx. destruct (decide _) as [Hu|]; [|done].
  rewrite obj_get_obj_set_ne; [done|]. intros [= Hr Hk]. subst. congruence.
Qed.

Lemma obj_get_onChange_ref cb a k c s :
  obj_get a k s = VRef c → obj_get a k (onChange cb s) = VRef c.
Proof.
  intros Hg. destruct cb as [row]. rewrite onChange_unfold. cbv zeta.
  rewrite (obj_get_heap_eq _ _ _ _ (heap_enqueue _ _ _)).
  apply obj_get_fill_idx_ref. by rewrite (obj_get_heap_eq _ _ s).
Qed.

Lemma createDeepProxy_keeps_ref target cb a k c s :
  obj_get a (KStr k) s = VRef c →
  obj_get a (KStr k) (createDeepProxy target cb s).2 = VRef c.
Proof.
  intros Hg. unfold createDeepProxy. destruct target as [| | | | |t]; try done.
  destruct (has_marker _ _); [done|].
  destruct (alloc (Prx t cb) s) as [p s1] eqn:Hal. simpl.
  assert (Hg1 : obj_get a (KStr k) s1 = VRef c).
  { replace s1 with (alloc (Prx t cb) s).2 by (by rewrite Hal).
    rewrite obj_get_alloc; [done|]. unfold obj_get in Hg.
    destruct (heap s !! a); [done|discriminate]. }
  unfold set_trap. destruct (decide _).
  - by rewrite obj_get_obj_set_ne.
  - apply obj_get_onChange_ref. by rewrite obj_get_obj_set_ne.
Qed.

Lemma tracked_get_trap b t cb k s : tracked b s (get_trap t cb (KStr k) s).2.
Proof.
  unfold get_trap. destruct (is_object _) eqn:Hobj; [|apply tracked_refl].
  destruct (obj_get t (KStr k) s) as [| | | | |c] eqn:Hg; try discriminate.
  pose proof (tracked_createDeepProxy b (VRef c) cb s) as Htr.
  pose proof (createDeepProxy_keeps_ref (VRef c) cb t k c s Hg) as Hk.
  destruct (createDeepProxy (VRef c) cb s) as [proxied s1]. simpl in *.
  eapply tracked_trans; [exact Htr|].
  apply tracked_obj_set; [done|]. intros _ [= ->] i. by rewrite Hk.
Qed.

Lemma tracked_js_get b v k s : tracked b s (js_get v (KStr k) s).2.
Proof.
  unfold js_get. destruct v as [| | | | |a]; try apply tracked_refl.
  destruct (heap s !! a) as [[ps|t cb]|]; try apply tracked_refl.
  apply tracked_get_trap.
Qed.

Lemma tracked_js_set b v k x s :
  (b = true → k ≠ "_idx"%string) → tracked b s (js_set v (KStr k) x s).
Proof.
  intros Hk. unfold js_set. destruct v as [| | | | |a]; try apply tracked_refl.
  destruct (heap s !! a) as [[ps|t cb]|]; try apply tracked_refl.
  - apply tracked_obj_set; [done|]. intros Hb [= ->]. by destruct (Hk Hb).
  - apply tracked_set_trap; [done|]. intros Hb [= ->]. by destruct (Hk Hb).
Qed.

Lemma tracked_js_delete b v k s :
  (b = true → k ≠ "_idx"%string) → tracked b s (js_delete v (KStr k) s).
Proof.
  intros Hk. unfold js_delete. destruct v as [| | | | |a]; try apply tracked_refl.
  destruct (heap s !! a) as [[ps|t cb]|]; try apply tracked_refl.
  - apply tracked_obj_delete; [done|]. intros Hb [= ->]. by destruct (Hk Hb).
  - apply tracked_delete_trap; [done|]. intros Hb [= ->]. by destruct (Hk Hb).
Qed.

(** A read that yields [undefined] has changed nothing, and a write of the
    same property finds it undefined. *)
Lemma js_get_undef v k s s1 :
  js_get v (KStr k) s = (VUndef, s1) →
  s1 = s ∧ ∀ b x, tracked b s (js_set v (KStr k) x s).
Proof.
  unfold js_get, js_set. destruct v as [| | | | |a];
    try (intros [= <-]; split; [done|]; intros; apply tracked_refl).
  destruct (heap s !! a) as [[ps|t cb]|] eqn:Ha;
    try (intros [= <-]; split; [done|]; intros; apply tracked_refl).
  - intros [= Hu <-]. split; [done|]. intros b x.
    apply tracked_obj_set; [done|]. intros _ _ i. unfold obj_get. rewrite Ha. congruence.
  - unfold get_trap. destruct (is_object _) eqn:Hobj.
    + destruct (createDeepProxy _ _ _) as [proxied s2] eqn:Hc. intros [= -> <-].
      unfold createDeepProxy in Hc.
      destruct (obj_get t (KStr k) s) as [| | | | |c]; try discriminate.
      destruct (has_marker _ _); [discriminate|].
      by destruct (alloc _ _).
    + intros [= Hu <-]. split; [done|]. intros b x.
      apply tracked_set_trap; [done|]. intros _ _ i. congruence.
Qed.

Lemma tracked_queueOperation b row type s : tracked b s (_queueOperation row type s).
Proof.
  unfold _queueOperation, queueOperation_with.
  destruct (js_get row (KStr "_idx") s) as [i s1] eqn:Hg1.
  pose proof (tracked_js_get b row "_idx" s) as H1. rewrite Hg1 in H1. simpl in H1.
  destruct (decide (i = VUndef)) as [->|Hi].
  - apply js_get_undef in Hg1 as [-> Hset].
    destruct (js_get row (KStr "_idx") (js_set _ _ _ _)) as [key s3] eqn:Hg3.
    eapply tracked_trans; [apply Hset|].
    eapply tracked_trans; [|apply tracked_enqueue].
    pose proof (tracked_js_get b row "_idx"
      (js_set row (KStr "_idx") (VNum (Z.of_nat (length (rows s)))) s)) as H3.
    by rewrite Hg3 in H3.
  - destruct (js_get row (KStr "_idx") s1) as [key s3] eqn:Hg3.
    eapply tracked_trans; [exact H1|].
    eapply tracked_trans; [|apply tracked_enqueue].
    pose proof (tracked_js_get b row "_idx" s1) as H3. by rewrite Hg3 in H3.
Qed.

(** Loops of tracked steps are tracked. *)
Lemma tracked_map_st {A B} b (f : A → state → B * state) l s :
  (∀ x s, tracked b s (f x s).2) → tracked b s (map_st f l s).2.
Proof.
  intros Hf. revert s. induction l as [|x l IH]; intros s; [apply tracked_refl|].
  simpl. pose proof (Hf x s) as H1. destruct (f x s) as [y s1].
  pose proof (IH s1) as H2. destruct (map_st f l s1) as [ys s2].
  by eapply tracked_trans.
Qed.

Lemma tracked_mapi_st {A B} b (f : A → nat → state → B * state) l i s :
  (∀ x i s, tracked b s (f x i s).2) → tracked b s (mapi_st f l i s).2.
Proof.
  intros Hf. revert i s. induction l as [|x l IH]; intros i s; [apply tracked_refl|].
  simpl. pose proof (Hf x i s) as H1. destruct (f x i s) as [y s1].
  pose proof (IH (S i) s1) as H2. destruct (mapi_st f l (S i) s1) as [ys s2].
  by eapply tracked_trans.
Qed.

Lemma tracked_foreach_from {A} b (f : A → nat → state → state) l i s :
  (∀ x i s, tracked b s (f x i s)) → tracked b s (foreach_from f l i s).
Proof.
  intros Hf. revert i s. induction l as [|x l IH]; intros i s; [apply tracked_refl|].
  simpl. eapply tracked_trans; [apply Hf|apply IH].
Qed.

Lemma tracked_foreach {A} b (f : A → state → state) l s :
  (∀ x s, tracked b s (f x s)) → tracked b s (foreach f l s).
Proof. intros Hf. apply tracked_foreach_from. intros x _ s'. apply Hf. Qed.

Lemma props_get_define_ne k k' v ps :
  k ≠ k' → props_get k' (props_define_hidden k v ps) = props_get k' ps.
Proof. intros Hne. unfold props_get, props_define_hidden. by rewrite assoc_get_upd_ne. Qed.

Lemma tracked_wrapRow b row s : tracked b s (_wrapRow row s).2.
Proof.
  unfold _wrapRow. destruct row as [| | | | |a]; try apply tracked_refl.
  destruct (has_marker _ _); [apply tracked_refl|].
  pose proof (tracked_createDeepProxy b (VRef a) (QueueSave a) s) as H1.
  destruct (createDeepProxy _ _ _) as [proxiedRow s1]. simpl in H1.
  pose proof (tracked_alloc b (Obj [(KStr "_isProxy", Slot (VBool true) true true)]) s1) as H2.
  destruct (alloc _ s1) as [i s2]. simpl in H2.
  destruct (heap s2 !! a) as [[ps|t cb]|] eqn:Ha; simpl;
    try (by eapply tracked_trans).
  eapply tracked_trans; [exact H1|]. eapply tracked_trans; [exact H2|].
  apply (tracked_update _ _ ps); [done| |].
  - intros Hm. by rewrite props_get_define_ne.
  - intros _ n Hn. by rewrite props_get_define_ne.
Qed.

Lemma alloc_json_obj fields s :
  alloc_json (JObj fields) s =
    let '(ps, s1) := alloc_fields fields [] s in
    let '(a, s2) := alloc (Obj ps) s1 in
    (VRef a, s2).
Proof. reflexivity. Qed.

Section JsonInd.
Variable P : json → Prop.
Hypothesis HNull : P JNull.
Hypothesis HBool : ∀ b, P (JBool b).
Hypothesis HNum : ∀ n, P (JNum n).
Hypothesis HStr : ∀ x, P (JStr x).
Hypothesis HObj : ∀ fields, Forall (λ kj, P kj.2) fields → P (JObj fields).

Fixpoint json_rect_fields (j : json) : P j :=
  match j with
  | JNull => HNull
  | JBool b => HBool b
  | JNum n => HNum n
  | JStr x => HStr x
  | JObj fields =>
      HObj fields
        ((fix go (fs : list (string * json)) : Forall (λ kj, P kj.2) fs :=
            match fs with
            | [] => @List.Forall_nil _ (λ kj, P kj.2)
            | (k, j') :: fs' =>
                @List.Forall_cons _ (λ kj, P kj.2) (k, j') fs' (json_rect_fields j') (go fs')
            end) fields)
  end.
End JsonInd.

Lemma tracked_alloc_json b j s : tracked b s (alloc_json j s).2.
Proof.
  revert s. induction j as [| | | |fields IH] using json_rect_fields;
    intros s; try apply tracked_refl.
  rewrite alloc_json_obj.
  assert (Hgo : ∀ acc s, tracked b s (alloc_fields fields acc s).2).
  { clear s. induction IH as [|[k j'] fs Hj _ IHfs]; intros acc s; [apply tracked_refl|].
    simpl. pose proof (Hj s) as H1. simpl in H1. destruct (alloc_json j' s) as [v s1].
    eapply tracked_trans; [exact H1|]. apply IHfs. }
  pose proof (Hgo [] s) as H1. destruct (alloc_fields fields [] s) as [ps s1].
  pose proof (tracked_alloc b (Obj ps) s1) as H2.
  destruct (alloc (Obj ps) s1) as [a s2]. simpl in *.
  by eapply tracked_trans.
Qed.

Lemma stringify_ref fuel stack a s :
  stringify (S fuel) stack (VRef a) s =
    let '(_, s1) := js_get (VRef a) (KStr "toJSON") s in
    if bool_decide (a ∈ stack) then (None, s1)
    else
      match stringify_fields fuel (a :: stack) (VRef a) (js_keys (VRef a) s1) [] s1 with
      | (None, s2) => (None, s2)
      | (Some fs, s2) => (Some (Some (JObj fs)), s2)
      end.
Proof. reflexivity. Qed.

Lemma stringify_fields_cons fuel stack v k ks acc s :
  stringify_fields fuel stack v (k :: ks) acc s =
    let '(x, s1) := js_get v (KStr k) s in
    match stringify fuel stack x s1 with
    | (None, s2) => (None, s2)
    | (Some None, s2) => stringify_fields fuel stack v ks acc s2
    | (Some (Some j), s2) => stringify_fields fuel stack v ks (acc ++ [(k, j)]) s2
    end.
Proof. reflexivity. Qed.

Lemma tracked_stringify b fuel stack v s : tracked b s (stringify fuel stack v s).2.
Proof.
  revert stack v s. induction fuel as [|fuel IH]; intros stack v s.
  - destruct v; apply tracked_refl.
  - destruct v as [| | | | |a]; try apply tracked_refl.
    rewrite stringify_ref.
    pose proof (tracked_js_get b (VRef a) "toJSON" s) as H1.
    destruct (js_get (VRef a) (KStr "toJSON") s) as [x s1]. simpl in H1.
    destruct (bool_decide _); [done|].
    assert (Hf : ∀ ks acc s,
      tracked b s (stringify_fields fuel (a :: stack) (VRef a) ks acc s).2).
    { clear -IH. induction ks as [|k ks IHks]; intros acc s; [apply tracked_refl|].
      rewrite stringify_fields_cons. pose proof (tracked_js_get b (VRef a) k s) as H1.
      destruct (js_get (VRef a) (KStr k) s) as [x s1]. simpl in H1.
      pose proof (IH (a :: stack) x s1) as H2.
      destruct (stringify fuel (a :: stack) x s1) as [[[j|]|] s2]; simpl in H2.
      - eapply tracked_trans; [exact H1|]. eapply tracked_trans; [exact H2|]. apply IHks.
      - eapply tracked_trans; [exact H1|]. eapply tracked_trans; [exact H2|]. apply IHks.
      - by eapply tracked_trans. }
    pose proof (Hf (js_keys (VRef a) s1) [] s1) as H2.
    destruct (stringify_fields _ _ _ _ _ _) as [[fs|] s2]; simpl in *;
      by eapply tracked_trans.
Qed.

Lemma tracked_rowToSave_fields b row keys acc s :
  tracked b s (rowToSave_fields row keys acc s).2.
Proof.
  revert acc s. induction keys as [|key keys IH]; intros acc s; [apply tracked_refl|].
  simpl. destruct (decide _); [apply IH|].
  pose proof (tracked_js_get b row key s) as H1.
  destruct (js_get row (KStr key) s) as [x s1]. simpl in H1.
  destruct (is_object x).
  - pose proof (tracked_stringify b (stringify_depth s1) [] x s1) as H2.
    unfold JSON_stringify.
    destruct (stringify _ _ _ _) as [[[j|]|] s2]; simpl in H2.
    + eapply tracked_trans; [exact H1|]. eapply tracked_trans; [exact H2|]. apply IH.
    + eapply tracked_trans; [exact H1|]. eapply tracked_trans; [exact H2|]. apply IH.
    + by eapply tracked_trans.
  - eapply tracked_trans; [exact H1|]. apply IH.
Qed.

Lemma tracked_rowToSave b o s : tracked b s (rowToSave o s).2.
Proof.
  rewrite rowToSave_loop. cbn [snd]. pose proof (tracked_js_get b (op_row o) "_idx" s) as H1.
  destruct (js_get _ _ _) as [i s1]. simpl in H1.
  eapply tracked_trans; [exact H1|]. apply tracked_rowToSave_fields.
Qed.

Lemma tracked_insertRows b saves s : tracked b s (insertRows saves s).2.
Proof.
  revert s. induction saves as [|o saves IH]; intros s; [apply tracked_refl|].
  simpl. pose proof (tracked_rowToSave b o s) as H1.
  destruct (rowToSave o s) as [[r|] s1]; simpl in H1; [|done].
  pose proof (IH s1) as H2. destruct (insertRows saves s1) as [[rs|] s2]; simpl in *;
    by eapply tracked_trans.
Qed.

(** ** The operations of the mirror *)

Lemma fired_app t1 t2 : fired (t1 ++ t2) = fired t1 ++ fired t2.
Proof.
  induction t1 as [|e t1 IH]; [done|]. destruct e; simpl; by rewrite ?IH.
Qed.

Lemma tracked_evolves b s s' : tracked b s s' → evolves b s s'.
Proof.
  intros [c r i (t & e & n & f) l p o]. split; try done. by exists t.
Qed.

Lemma evolves_refl b s : evolves b s s.
Proof. apply tracked_evolves, tracked_refl. Qed.

Lemma evolves_trans b s1 s2 s3 : evolves b s1 s2 → evolves b s2 s3 → evolves b s1 s3.
Proof.
  intros [c1 (t1 & e1 & f1) l1 p1 o1] [c2 (t2 & e2 & f2) l2 p2 o2]. split.
  - by eapply enqueues_trans.
  - exists (t1 ++ t2). rewrite e2, e1, <- app_assoc. split; [done|].
    by rewrite fired_app, f1, f2.
  - lia.
  - intros a t cb Ha. by apply p2, p1.
  - intros a ps Ha. destruct (o1 a ps Ha) as (ps1 & Ha1 & Hm1 & Hi1).
    destruct (o2 a ps1 Ha1) as (ps2 & Ha2 & Hm2 & Hi2).
    exists ps2. split; [done|]. split; [tauto|].
    intros Hb i Hi. by apply Hi2, Hi1.
Qed.

Lemma evolves_weaken b s s' : evolves true s s' → evolves b s s'.
Proof.
  intros [c t l p o]. split; try done.
  intros a ps Ha. destruct (o a ps Ha) as (ps' & Ha' & Hm & Hi).
  exists ps'. split; [done|]. split; [done|]. intros _. by apply Hi.
Qed.

(** A step that touches neither the scheduler nor the store. *)
Lemma evolves_same b s s' t :
  ctl_of s' = ctl_of s → heap s' = heap s → trace s' = trace s ++ t → fired t = [] →
  evolves b s s'.
Proof.
  intros Hc Hh Ht Hf. split.
  - by apply enqueues_none.
  - by exists t.
  - by rewrite Hh.
  - intros a t0 cb Ha. by rewrite Hh.
  - intros a ps Ha. exists ps. by rewrite Hh.
Qed.

Lemma evolves_with_rows b r s : evolves b s (with_rows r s).
Proof. apply (evolves_same _ _ _ []); try done. simpl. by rewrite app_nil_r. Qed.

Lemma evolves_issue b q k s : evolves b s (issue q k s).
Proof. by apply (evolves_same _ _ _ [Issued q]). Qed.

Lemma evolves_push row s : evolves false s (push row s).2.
Proof.
  unfold push.
  pose proof (tracked_js_set false row "_idx" (VNum (Z.of_nat (length (rows s)))) s) as H1.
  pose proof (tracked_wrapRow false row
                (js_set row (KStr "_idx") (VNum (Z.of_nat (length (rows s)))) s)) as H2.
  destruct (_wrapRow _ _) as [proxied s2]. simpl in *.
  eapply evolves_trans; [apply tracked_evolves, H1; done|].
  eapply evolves_trans; [apply tracked_evolves, H2|].
  eapply evolves_trans; [apply evolves_with_rows|].
  apply tracked_evolves, tracked_queueOperation.
Qed.

Lemma evolves_splice start deleteCount items s :
  evolves false s (splice start deleteCount items s).2.
Proof.
  unfold splice.
  pose proof (tracked_mapi_st false
    (λ i idx s, _wrapRow i (js_set i (KStr "_idx") (VNum (start + Z.of_nat idx)) s))
    items 0%nat s) as H1.
  destruct (mapi_st _ _ _ _) as [wrapped s1].
  destruct (array_splice _ _ _ _) as [removed kept]. simpl.
  eapply evolves_trans;
    [|apply tracked_evolves, tracked_foreach_from; intros; by apply tracked_js_set].
  eapply evolves_trans;
    [|apply tracked_evolves, tracked_foreach; intros; apply tracked_queueOperation].
  eapply evolves_trans;
    [|apply tracked_evolves, tracked_foreach; intros; apply tracked_queueOperation].
  eapply evolves_trans; [|apply evolves_with_rows].
  apply tracked_evolves, H1. intros x i s0.
  eapply tracked_trans; [by apply tracked_js_set|apply tracked_wrapRow].
Qed.

Lemma evolves_flush_deletes deletes s :
  evolves true s (flush_deletes deletes s) ∧ rows (flush_deletes deletes s) = rows s.
Proof.
  unfold flush_deletes. destruct deletes as [|o deletes]; [split; [apply evolves_refl|done]|].
  pose proof (tracked_map_st true (λ o, js_get (op_row o) (KStr "_idx")) (o :: deletes) s) as H1.
  destruct (map_st _ _ _) as [ids s1]. simpl in H1.
  assert (Ht : tracked true s s1) by (apply H1; intros; apply tracked_js_get).
  split.
  - eapply evolves_trans; [apply tracked_evolves, Ht|apply evolves_issue].
  - simpl. apply Ht.
Qed.

Lemma evolves_flush_body operations s :
  evolves true s (flush_body operations s) ∧ rows (flush_body operations s) = rows s.
Proof.
  unfold flush_body. destruct (filter _ operations) as [|o saves] eqn:Hs.
  - apply evolves_flush_deletes.
  - pose proof (tracked_insertRows true (o :: saves) s) as H1.
    destruct (insertRows _ _) as [[rs|] s1]; simpl in H1.
    + split; [|simpl; apply H1].
      eapply evolves_trans; [apply tracked_evolves, H1|apply evolves_issue].
    + split; [by apply tracked_evolves|apply H1].
Qed.

Lemma evolves_settle n ok s :
  evolves true s (settle n ok s) ∧ rows (settle n ok s) = rows s.
Proof.
  unfold settle. destruct (inflight s !! n) as [k|]; [|split; [apply evolves_refl|done]].
  set (s1 := log (Settled ok) (with_inflight (delete n (inflight s)) s)).
  assert (H1 : evolves true s s1) by (by apply (evolves_same _ _ _ [Settled ok])).
  destruct ok; [|done].
  destruct (evolves_flush_deletes k s1) as [H2 H3].
  split; [by eapply evolves_trans|by rewrite H3].
Qed.

Lemma evolves_init table s : evolves true s (init table s).
Proof.
  unfold init.
  pose proof (tracked_map_st true new_object table s) as H1.
  destruct (map_st new_object table s) as [data s1].
  set (s2 := foreach_from _ data 0%nat s1).
  pose proof (tracked_map_st true _wrapRow data s2) as H3.
  destruct (map_st _wrapRow data s2) as [wrapped s3]. simpl in *.
  eapply evolves_trans; [|apply evolves_with_rows].
  eapply evolves_trans; [|apply tracked_evolves, H3; intros; apply tracked_wrapRow].
  eapply evolves_trans;
    [apply tracked_evolves, H1; intros; apply tracked_alloc_json|].
  apply tracked_evolves, tracked_foreach_from. intros row i s0.
  destruct (decide _) as [Hu|]; [|apply tracked_refl].
  destruct row as [| | | | |a]; try apply tracked_refl. simpl in *.
  apply tracked_obj_set; [done|]. intros _ _ n. by rewrite Hu.
Qed.

Lemma evolves_exec a s : is_call a = true → evolves false s (exec a s).
Proof.
  destruct a as [fields|v k|v k x|v k|row|start dc items|d|id|n ok]; try done; intros _; simpl.
  - apply tracked_evolves, tracked_alloc_json.
  - apply tracked_evolves, tracked_js_get.
  - by apply tracked_evolves, tracked_js_set.
  - by apply tracked_evolves, tracked_js_delete.
  - apply evolves_push.
  - apply evolves_splice.
  - apply evolves_weaken, evolves_settle.
Qed.

(** ** The scheduler under [enqueue] *)

Lemma enqueues_ind_ctl (P : list (value * op) * option nat * list (nat * Z) * nat * Z → Prop) s s' :
  (∀ key o s0, P (ctl_of s0) → P (ctl_of (enqueue key o s0))) →
  enqueues s s' → P (ctl_of s) → P (ctl_of s').
Proof.
  intros Hstep Henq HP. induction Henq as [s s' Heq|s s1 s' key o Hm IH Heq].
  - by rewrite Heq.
  - rewrite Heq. apply Hstep, IH, HP.
Qed.

Lemma timer_ok_enqueue key o s : timer_ok s → timer_ok (enqueue key o s).
Proof.
  unfold timer_ok, enqueue, arm. simpl.
  destruct (queueTimer s) as [id|] eqn:Hq; simpl.
  - by rewrite Hq.
  - intros ->. by eexists.
Qed.

Lemma timer_ok_enqueues s s' : enqueues s s' → timer_ok s → timer_ok s'.
Proof.
  intros Henq.
  apply (enqueues_ind_ctl
    (λ c, match c.1.1.1.2 with
          | None => c.1.1.2 = []
          | Some id => ∃ due, c.1.1.2 = [(id, due)]
          end) s s'); [|done].
  intros key o s0. apply timer_ok_enqueue.
Qed.

(** A pending timeout is left as it is. *)
Lemma pending_enqueues s s' id :
  enqueues s s' → queueTimer s = Some id →
  queueTimer s' = Some id ∧ timers s' = timers s ∧ timer_ids s' = timer_ids s ∧ now s' = now s.
Proof.
  intros Henq Hq.
  apply (enqueues_ind_ctl
    (λ c, c.1.1.1.2 = Some id ∧ c.1.1.2 = timers s ∧ c.1.2 = timer_ids s ∧ c.2 = now s)
    s s'); [|done|done].
  intros key o s0 (Hq0 & ? & ? & ?). simpl in *.
  unfold enqueue, arm. simpl. rewrite Hq0. done.
Qed.

(** Handles only grow, and a timeout that is armed was armed before or
    got a fresh handle. *)
Lemma handles_enqueues s s' :
  enqueues s s' →
  (timer_ids s ≤ timer_ids s')%nat ∧
  (∀ id, id ∈ (timers s').*1 → id ∈ (timers s).*1 ∨ (timer_ids s ≤ id < timer_ids s')%nat) ∧
  now s' = now s.
Proof.
  intros Henq.
  apply (enqueues_ind_ctl
    (λ c, (timer_ids s ≤ c.1.2)%nat ∧
          (∀ id, id ∈ (c.1.1.2).*1 → id ∈ (timers s).*1 ∨ (timer_ids s ≤ id < c.1.2)%nat) ∧
          c.2 = now s) s s'); [|done|].
  - intros key o s0. unfold enqueue, arm. simpl. intros (Hle & Hin & Hnow).
    destruct (queueTimer s0); simpl; [done|]. split; [lia|]. split; [|done].
    intros id. rewrite fmap_app, elem_of_app. simpl. rewrite list_elem_of_singleton.
    intros [Hid| ->]; [|right; lia]. destruct (Hin id Hid); [by left|right; lia].
  - simpl. split; [lia|]. split; [|done]. intros id Hid. by left.
Qed.

Lemma queue_NoDup_enqueues s s' :
  enqueues s s' → NoDup (operationQueue s).*1 → NoDup (operationQueue s').*1.
Proof.
  intros Henq.
  apply (enqueues_ind_ctl (λ c, NoDup (c.1.1.1.1).*1) s s'); [|done].
  intros key o s0. unfold enqueue, arm. simpl. intros Hnd.
  destruct (queueTimer s0); simpl; by apply assoc_upd_NoDup.
Qed.

(** ** What holds of the scheduler in every state the mirror can reach *)

Lemma sched_inv_empty : sched_inv empty_state.
Proof.
  split; simpl; try done.
  - intros id Hid. by apply elem_of_nil in Hid.
  - apply NoDup_nil_2.
  - apply NoDup_nil_2.
  - intros id Hid. by apply elem_of_nil in Hid.
Qed.

Lemma sched_inv_evolves b s s' : evolves b s s' → sched_inv s → sched_inv s'.
Proof.
  intros [Hc (t & Ht & Hf) _ _ _] [Htm Hfr Hk Hfd Hd].
  destruct (handles_enqueues s s' Hc) as (Hle & Hin & _).
  split.
  - by eapply timer_ok_enqueues.
  - intros id Hid. destruct (Hin id Hid) as [Hold|?]; [|lia].
    specialize (Hfr id Hold). lia.
  - by eapply queue_NoDup_enqueues.
  - by rewrite Ht, fired_app, Hf, app_nil_r.
  - intros id. rewrite Ht, fired_app, Hf, app_nil_r. intros Hid.
    destruct (Hd id Hid) as [Hlt Hnot]. split; [lia|].
    intros Hid'. destruct (Hin id Hid') as [?|?]; [done|lia].
Qed.

Lemma sched_inv_advance d s : sched_inv s → sched_inv (advance d s).
Proof. unfold advance. destruct (decide _); [|done]. by intros []. Qed.

Lemma assoc_get_Some_fst {K V} `{EqDecision K} (k : K) (v : V) l :
  assoc_get k l = Some v → k ∈ l.*1.
Proof.
  intros Hg. apply assoc_get_Some_elem in Hg.
  apply list_elem_of_fmap. by exists (k, v).
Qed.

(** The state in which the body of a flush starts. *)
Lemma sched_inv_flush_begin id due s :
  assoc_get id (timers s) = Some due → sched_inv s →
  sched_inv (flush_begin id s).2 ∧ timers (flush_begin id s).2 = [] ∧
  id ∉ fired (trace s).
Proof.
  intros Hg [Htm Hfr Hk Hfd Hd].
  pose proof (assoc_get_Some_fst _ _ _ Hg) as Hin.
  assert (Hts : timers s = [(id, due)]).
  { unfold timer_ok in Htm. destruct (queueTimer s) as [id'|].
    - destruct Htm as [due' Hts]. rewrite Hts in Hg. simpl in Hg.
      destruct (decide (id = id')) as [->|]; [|done]. by injection Hg as ->.
    - rewrite Htm in Hin. by apply elem_of_nil in Hin. }
  assert (Hdel : assoc_del id (timers s) = []).
  { rewrite Hts. simpl. by rewrite decide_True. }
  assert (Hnf : id ∉ fired (trace s)).
  { intros Hf. by destruct (Hd id Hf). }
  split; [|done]. split; simpl.
  - unfold timer_ok. simpl. done.
  - rewrite Hdel. intros id' Hid'. by apply elem_of_nil in Hid'.
  - apply NoDup_nil_2.
  - rewrite fired_app. simpl. apply NoDup_app. split; [done|]. split.
    + intros x Hx Hx'. apply list_elem_of_singleton in Hx' as ->. done.
    + apply NoDup_singleton.
  - rewrite fired_app, Hdel. simpl. intros id'. rewrite elem_of_app, list_elem_of_singleton.
    intros [Hid'| ->].
    + split; [by apply Hd|]. apply not_elem_of_nil.
    + split; [by apply Hfr|]. apply not_elem_of_nil.
Qed.

Lemma sched_inv_fire id s : sched_inv s → sched_inv (fire id s).
Proof.
  intros Hinv. unfold fire. destruct (assoc_get id (timers s)) as [due|] eqn:Hg; [|done].
  destruct (decide _); [|done]. unfold flush.
  destruct (sched_inv_flush_begin id due s Hg Hinv) as (Hb & _ & _).
  destruct (flush_begin id s) as [operations s1]. simpl in Hb.
  eapply sched_inv_evolves; [apply evolves_flush_body|done].
Qed.

Lemma sched_inv_exec a s : sched_inv s → sched_inv (exec a s).
Proof.
  intros Hinv. destruct (is_call a) eqn:Hc.
  - eapply sched_inv_evolves; [by apply evolves_exec|done].
  - destruct a; try done; simpl.
    + by apply sched_inv_advance.
    + by apply sched_inv_fire.
Qed.

Lemma sched_inv_run acts s : sched_inv s → sched_inv (run acts s).
Proof.
  revert s. induction acts as [|a acts IH]; intros s Hinv; [done|].
  simpl. apply IH. by apply sched_inv_exec.
Qed.

Lemma sched_inv_reach table acts : sched_inv (run acts (init table empty_state)).
Proof.
  apply sched_inv_run. eapply sched_inv_evolves; [apply evolves_init|].
  apply sched_inv_empty.
Qed.

(** From an idle scheduler, steps that only enqueue leave it idle or arm one
    timeout, due a debounce window after the present. *)
Lemma idle_enqueues s s' :
  enqueues s s' → queueTimer s = None → timers s = [] →
  (queueTimer s' = None ∧ timers s' = []) ∨
  (queueTimer s' = Some (timer_ids s) ∧ timers s' = [(timer_ids s, now s + debounce)]).
Proof.
  intros Henq Hq Ht.
  apply (enqueues_ind_ctl
    (λ c, (c.1.1.1.2 = None ∧ c.1.1.2 = [] ∧ c.1.2 = timer_ids s ∧ c.2 = now s) ∨
          (c.1.1.1.2 = Some (timer_ids s) ∧
           c.1.1.2 = [(timer_ids s, now s + debounce)])) s s') in Henq.
  - simpl in Henq. tauto.
  - intros key o s0. simpl. unfold enqueue, arm. simpl.
    intros [(Hq0 & Ht0 & Hi0 & Hn0)|(Hq0 & Ht0)]; rewrite Hq0; simpl.
    + right. by rewrite Ht0, Hi0, Hn0.
    + by right.
  - simpl. by left.
Qed.

Lemma timer_ok_single s id due :
  timer_ok s → (id, due) ∈ timers s →
  queueTimer s = Some id ∧ timers s = [(id, due)].
Proof.
  unfold timer_ok. destruct (queueTimer s) as [id'|].
  - intros [due' ->] Hin. apply list_elem_of_singleton in Hin. by injection Hin as -> ->.
  - intros -> Hin. by apply elem_of_nil in Hin.
Qed.

(** ** Coalescing, and what a flush serialises *)

Lemma assoc_upd_idem {K V} `{EqDecision K} (k : K) (v : V) l :
  assoc_set k v (assoc_set k v l) = assoc_set k v l.
Proof.
  unfold assoc_set. induction l as [|[k' v'] l IH]; simpl.
  - by rewrite decide_True.
  - destruct (decide (k = k')) as [->|Hne]; simpl.
    + by rewrite decide_True.
    + rewrite decide_False by done. by rewrite IH.
Qed.

Lemma queue_enqueue key o s :
  operationQueue (enqueue key o s) = assoc_set key o (operationQueue s).
Proof. unfold enqueue, arm. simpl. by destruct (queueTimer s). Qed.

(** [onChange] for a row that has its identity. *)
Lemma onChange_with_idx row i s :
  obj_get row (KStr "_idx") s = VNum i →
  onChange (QueueSave row) s =
    enqueue (VNum i) (Op (VRef row) Save) (log (Changed (QueueSave row)) s).
Proof.
  intros Hi. rewrite onChange_unfold. unfold fill_idx.
  rewrite (obj_get_heap_eq _ _ s (log _ s)) by done. rewrite Hi.
  destruct (decide (VNum i = VUndef)); [discriminate|]. cbv zeta.
  by rewrite (obj_get_heap_eq _ _ s (log _ s)), Hi.
Qed.

Lemma heap_obj_set_other a k v a' s :
  a ≠ a' → heap (obj_set a k v s) !! a' = heap s !! a'.
Proof.
  intros Hne. unfold obj_set. destruct (heap s !! a) as [[ps|t cb]|]; [|done..].
  simpl. by rewrite list_lookup_insert_ne.
Qed.









(** ** Wrapping notifies *)

Lemma touches_refl l s : touches l s s.
Proof. by split. Qed.

Lemma touches_trans l s1 s2 s3 : touches l s1 s2 → touches l s2 s3 → touches l s1 s3.
Proof.
  intros [L1 H1] [L2 H2]. split; [lia|]. intros b Hb Hlt.
  rewrite H2 by (done || lia). by apply H1.
Qed.

Lemma touches_mono l l' s s' : l ⊆ l' → touches l s s' → touches l' s s'.
Proof.
  intros Hsub [L H]. split; [done|]. intros b Hb Hlt. apply H; [|done].
  intros Hin. by apply Hb, Hsub.
Qed.

Lemma touches_heap_eq l s s' : heap s' = heap s → touches l s s'.
Proof. intros Hh. split; by rewrite Hh. Qed.

Lemma touches_obj_set l a k v s : a ∈ l → touches l s (obj_set a k v s).
Proof.
  intros Ha. unfold obj_set. destruct (heap s !! a) as [[ps|t cb]|]; try apply touches_refl.
  split; simpl; [by rewrite length_insert|].
  intros b Hb Hlt. rewrite list_lookup_insert_ne; [done|]. intros ->. done.
Qed.

Lemma touches_alloc l c s : touches l s (alloc c s).2.
Proof.
  unfold alloc. split; simpl; [rewrite length_app; lia|].
  intros b _ Hlt. by rewrite lookup_app_l.
Qed.

Lemma is_Some_queueTimer_enqueue key o s : is_Some (queueTimer (enqueue key o s)).
Proof. unfold enqueue, arm. simpl. destruct (queueTimer s) eqn:Hq; simpl; eauto. Qed.

(** What one [onChange()] does. *)
Lemma onChange_effect r s :
  let s' := onChange (QueueSave r) s in
  ∃ key,
    changes (trace s') = changes (trace s) ++ [QueueSave r] ∧
    queued (trace s') = queued (trace s) ++ [(key, Op (VRef r) Save)] ∧
    assoc_get key (operationQueue s') = Some (Op (VRef r) Save) ∧
    is_Some (queueTimer s') ∧
    touches [r] s s'.
Proof.
  intros s'. subst s'. pose proof (changes_onChange (QueueSave r) s) as Hch.
  rewrite onChange_unfold in *. cbv zeta in *.
  set (s1 := fill_idx r (log (Changed (QueueSave r)) s)) in *.
  exists (obj_get r (KStr "_idx") s1).
  split; [exact Hch|].
  split.
  { rewrite trace_enqueue. subst s1. rewrite trace_fill_idx. simpl.
    rewrite !queued_app. simpl. destruct (queueTimer _); simpl; by rewrite app_nil_r. }
  split; [rewrite queue_enqueue; unfold assoc_set; by rewrite assoc_get_upd_eq|].
  split; [apply is_Some_queueTimer_enqueue|].
  eapply touches_trans; [|apply touches_heap_eq, heap_enqueue].
  subst s1. unfold fill_idx. destruct (decide _).
  - eapply touches_trans;
      [apply (touches_heap_eq _ s (log (Changed (QueueSave r)) s)); done|].
    apply touches_obj_set, list_elem_of_here.
  - by apply touches_heap_eq.
Qed.

Lemma has_marker_false_old a s :
  has_marker (VRef a) s = false →
  obj_get a KInternal (alloc (Prx a (QueueSave a)) s).2 ≠ VBool true ∧
  ∀ cb, obj_get a KInternal (alloc (Prx a cb) s).2 ≠ VBool true.
Proof.
  intros Hm.
  assert (H : ∀ cb, obj_get a KInternal (alloc (Prx a cb) s).2 ≠ VBool true).
  { intros cb. unfold obj_get, alloc. simpl. unfold has_marker in Hm.
    destruct (heap s !! a) as [[ps|t cb']|] eqn:Ha.
    - rewrite (lookup_app_l_Some _ _ _ _ Ha). intros Heq. by rewrite Heq in Hm.
    - by rewrite (lookup_app_l_Some _ _ _ _ Ha).
    - apply lookup_ge_None in Ha.
      destruct (decide (a = length (heap s))) as [->|Hne].
      + by rewrite list_lookup_middle.
      + rewrite lookup_ge_None_2; [done|]. rewrite length_app. simpl. lia. }
  split; [apply H|apply H].
Qed.

(** Wrapping a reference that carries no marker. *)
Lemma createDeepProxy_fresh a r s :
  has_marker (VRef a) s = false →
  ∃ key s',
    createDeepProxy (VRef a) (QueueSave r) s = (VRef (length (heap s)), s') ∧
    heap s' !! length (heap s) = Some (Prx a (QueueSave r)) ∧
    changes (trace s') = changes (trace s) ++ [QueueSave r] ∧
    queued (trace s') = queued (trace s) ++ [(key, Op (VRef r) Save)] ∧
    assoc_get key (operationQueue s') = Some (Op (VRef r) Save) ∧
    is_Some (queueTimer s') ∧
    touches [a; r] s s' ∧
    (∀ ps, heap s !! a = Some (Obj ps) → obj_get a KInternal s' = VBool true).
Proof.
  intros Hm. unfold createDeepProxy. rewrite Hm.
  destruct (has_marker_false_old a s Hm) as [_ Hold]. specialize (Hold (QueueSave r)).
  pose proof (touches_alloc [a; r] (Prx a (QueueSave r)) s) as Hta.
  unfold alloc in *. simpl in *.
  set (s1 := with_heap (heap s ++ [Prx a (QueueSave r)]) s) in *.
  unfold set_trap. rewrite decide_False by done.
  set (w := obj_set a KInternal (VBool true) s1).
  destruct (onChange_effect r w) as (key & Hc & Hq & Hg & Ht & Htouch).
  exists key, (onChange (QueueSave r) w). split; [done|].
  assert (Htw : touches [a; r] s1 w) by (apply touches_obj_set, list_elem_of_here).
  assert (Htr : trace w = trace s) by (subst w; by rewrite trace_obj_set).
  split.
  { assert (Hp1 : heap s1 !! length (heap s) = Some (Prx a (QueueSave r)))
      by (subst s1; simpl; by rewrite list_lookup_middle).
    destruct (tracked_obj_set true a KInternal (VBool true) s1) as [_ _ _ _ _ Hprx _];
      [done|done|].
    destruct (tracked_onChange true (QueueSave r) w) as [_ _ _ _ _ Hprx' _].
    by apply Hprx', Hprx. }
  rewrite Hc, Hq, Htr. do 4 (split; [done|]). split.
  { apply (touches_trans _ s s1 _ Hta). apply (touches_trans _ s1 w _ Htw).
    eapply touches_mono; [|exact Htouch]. intros x Hx.
    apply list_elem_of_singleton in Hx as ->. apply list_elem_of_further, list_elem_of_here. }
  intros ps Hc0.
  assert (Hps : heap s1 !! a = Some (Obj ps)).
  { subst s1. simpl. by rewrite (lookup_app_l_Some _ _ _ _ Hc0). }
  assert (Hw : obj_get a KInternal w = VBool true) by (by eapply obj_get_set_eq).
  unfold obj_get in Hw. destruct (heap w !! a) as [[psw|]|] eqn:Haw; try discriminate.
  destruct (tr_obj _ _ _ (tracked_onChange true (QueueSave r) w) a psw Haw) as (ps' & Ha' & Hm' & _).
  rewrite (obj_get_lookup _ _ _ _ Ha'). by apply Hm'.
Qed.

Lemma wrapRow_fresh a ps s :
  heap s !! a = Some (Obj ps) → props_get KInternal ps = VUndef →
  ∃ key s',
    _wrapRow (VRef a) s = (VRef (length (heap s)), s') ∧
    heap s' !! length (heap s) = Some (Prx a (QueueSave a)) ∧
    changes (trace s') = changes (trace s) ++ [QueueSave a] ∧
    queued (trace s') = queued (trace s) ++ [(key, Op (VRef a) Save)] ∧
    is_Some (queueTimer s') ∧
    touches [a] s s' ∧
    row_struct s' (VRef (length (heap s))) a.
Proof.
  intros Ha Hu.
  assert (Hm : has_marker (VRef a) s = false).
  { unfold has_marker. by rewrite Ha, Hu. }
  unfold _wrapRow. rewrite Hm.
  pose proof (tracked_createDeepProxy true (VRef a) (QueueSave a) s) as Htr.
  destruct (createDeepProxy_fresh a a s Hm) as (key & s1 & Heq & Hp & Hc & Hq & _ & Ht & Hto & Hmk).
  rewrite Heq in *. simpl in Htr.
  assert (Hto1 : touches [a] s s1).
  { eapply touches_mono; [|exact Hto]. intros x. rewrite !elem_of_cons. tauto. }
  destruct (tr_obj _ _ _ Htr a ps Ha) as (ps1 & Ha1 & _).
  unfold alloc. simpl.
  rewrite (lookup_app_l_Some _ _ _ _ Ha1).
  exists key. eexists. split; [reflexivity|]. simpl.
  assert (Hlt : (a < length (heap s))%nat) by (by eapply lookup_lt_Some).
  split.
  { rewrite list_lookup_insert_ne by lia. by apply lookup_app_l_Some. }
  do 3 (split; [done|]). split.
  { eapply touches_trans; [exact Hto1|]. split; simpl.
    - rewrite length_insert, length_app. lia.
    - intros b Hb Hb'. rewrite list_lookup_insert_ne.
      + by rewrite lookup_app_l.
      + intros ->. apply Hb, list_elem_of_here. }
  eexists (length (heap s)), _. split; [done|]. simpl. split.
  { rewrite list_lookup_insert_ne by lia. by apply lookup_app_l_Some. }
  split.
  { apply list_lookup_insert_eq. rewrite length_app.
    apply lookup_lt_Some in Ha1. lia. }
  rewrite props_get_define_ne by done.
  specialize (Hmk ps Ha). by rewrite (obj_get_lookup _ _ _ _ Ha1) in Hmk.
Qed.

(** The first read, through a tracked value, of a composite field that is
    not wrapped yet. *)
Lemma get_trap_fresh p t r k c s :
  heap s !! p = Some (Prx t (QueueSave r)) →
  obj_get t (KStr k) s = VRef c →
  has_marker (VRef c) s = false →
  ∃ key s',
    js_get (VRef p) (KStr k) s = (VRef (length (heap s)), s') ∧
    heap s' !! length (heap s) = Some (Prx c (QueueSave r)) ∧
    obj_get t (KStr k) s' = VRef (length (heap s)) ∧
    changes (trace s') = changes (trace s) ++ [QueueSave r] ∧
    queued (trace s') = queued (trace s) ++ [(key, Op (VRef r) Save)] ∧
    assoc_get key (operationQueue s') = Some (Op (VRef r) Save) ∧
    is_Some (queueTimer s').
Proof.
  intros Hp Hg Hm. unfold js_get. rewrite Hp. unfold get_trap. rewrite Hg.
  cbn [is_object].
  destruct (createDeepProxy_fresh c r s Hm) as (key & s1 & Heq & Hp1 & Hc & Hq & Hk & Ht & _ & _).
  pose proof (tracked_createDeepProxy true (VRef c) (QueueSave r) s) as Htr.
  rewrite Heq in *. simpl in Htr.
  assert (Ht0 : ∃ ps, heap s !! t = Some (Obj ps)).
  { unfold obj_get in Hg. destruct (heap s !! t) as [[ps|]|]; try discriminate. by exists ps. }
  destruct Ht0 as [ps Hts]. destruct (tr_obj _ _ _ Htr t ps Hts) as (ps1 & Ht1 & _).
  exists key. eexists. split; [reflexivity|].
  destruct (obj_set_with_heap t (KStr k) (VRef (length (heap s))) s1) as (h & Hw & _).
  split.
  { destruct (tracked_obj_set false t (KStr k) (VRef (length (heap s))) s1)
      as [_ _ _ _ _ Hprx _]; [done|done|]. by apply Hprx. }
  split; [by eapply obj_get_set_eq|].
  rewrite Hw. simpl. done.
Qed.

Lemma unmarked_row_touches l s s' v :
  touches l s s' → (∀ a, v = VRef a → a ∉ l) → unmarked_row s v → unmarked_row s' v.
Proof.
  intros [_ Ht] Hv (a & ps & -> & Ha & Hu). exists a, ps. split; [done|].
  split; [|done]. rewrite Ht; [done|by apply Hv|by eapply lookup_lt_Some].
Qed.

Lemma touches_alloc_json j s : touches [] s (alloc_json j s).2.
Proof.
  revert s. induction j as [| | | |fields IH] using json_rect_fields;
    intros s; try apply touches_refl.
  rewrite alloc_json_obj.
  assert (Hgo : ∀ acc s, touches [] s (alloc_fields fields acc s).2).
  { clear s. induction IH as [|[k j'] fs Hj _ IHfs]; intros acc s; [apply touches_refl|].
    simpl. pose proof (Hj s) as H1. simpl in H1. destruct (alloc_json j' s) as [v s1].
    eapply touches_trans; [exact H1|]. apply IHfs. }
  pose proof (Hgo [] s) as H1. destruct (alloc_fields fields [] s) as [ps s1].
  pose proof (touches_alloc [] (Obj ps) s1) as H2.
  destruct (alloc (Obj ps) s1) as [a s2]. simpl in *.
  by eapply touches_trans.
Qed.

Lemma alloc_fields_unmarked fs acc s :
  props_get KInternal acc = VUndef →
  props_get KInternal (alloc_fields fs acc s).1 = VUndef.
Proof.
  revert acc s. induction fs as [|[k j] fs IH]; intros acc s Hu; [done|].
  simpl. destruct (alloc_json j s) as [v s1]. apply IH.
  by rewrite props_get_set_ne.
Qed.

Lemma touches_alloc_fields fs acc s : touches [] s (alloc_fields fs acc s).2.
Proof.
  revert acc s. induction fs as [|[k j] fs IH]; intros acc s; [apply touches_refl|].
  simpl. pose proof (touches_alloc_json j s) as H1. destruct (alloc_json j s) as [v s1].
  eapply touches_trans; [exact H1|]. apply IH.
Qed.

(** A loaded row is a new plain object without the marker. *)
Lemma new_object_fresh fields s :
  ∃ a s', new_object fields s = (VRef a, s') ∧
    (length (heap s) ≤ a < length (heap s'))%nat ∧
    unmarked_row s' (VRef a) ∧ touches [] s s'.
Proof.
  unfold new_object. rewrite alloc_json_obj.
  pose proof (alloc_fields_unmarked fields [] s eq_refl) as Hu.
  pose proof (touches_alloc_fields fields [] s) as Hto.
  destruct (alloc_fields fields [] s) as [ps s1]. simpl in *.
  exists (length (heap s1)). eexists. split; [reflexivity|]. simpl.
  rewrite length_app. simpl. split; [destruct Hto; lia|]. split.
  - exists (length (heap s1)), ps. split; [done|]. split; [|done].
    simpl. by rewrite list_lookup_middle.
  - eapply touches_trans; [exact Hto|]. apply (touches_alloc [] (Obj ps) s1).
Qed.

Lemma load_fresh table s :
  ∃ data s1, map_st new_object table s = (data, s1) ∧
    Forall (unmarked_row s1) data ∧ NoDup data ∧
    (∀ v, v ∈ data → ∃ a, v = VRef a ∧ (length (heap s) ≤ a < length (heap s1))%nat) ∧
    length data = length table ∧ touches [] s s1.
Proof.
  revert s. induction table as [|fields table IH]; intros s.
  - exists [], s. split; [done|]. split; [done|]. split; [apply NoDup_nil_2|].
    split; [by intros v Hv%elem_of_nil|]. split; [done|apply touches_refl].
  - simpl. destruct (new_object_fresh fields s) as (a & s0 & -> & Ha & Hu & Ht0).
    destruct (IH s0) as (data & s1 & -> & Hf & Hnd & Hge & Hlen & Ht1).
    exists (VRef a :: data), s1. split; [done|]. split.
    { apply Forall_cons. split; [|done].
      eapply unmarked_row_touches; [exact Ht1| |exact Hu]. intros ? _. apply not_elem_of_nil. }
    split.
    { apply NoDup_cons. split; [|done]. intros Hin.
      destruct (Hge _ Hin) as (a' & [= <-] & Hlt). lia. }
    split.
    { intros v [->|Hv]%elem_of_cons.
      - exists a. split; [done|]. destruct Ht1. lia.
      - destruct (Hge v Hv) as (a' & -> & Hlt). exists a'. split; [done|].
        destruct Ht0. lia. }
    split; [simpl; by rewrite Hlen|by eapply touches_trans].
Qed.

Lemma unmarked_row_obj_set a k x s v :
  unmarked_row s v → unmarked_row (obj_set a (KStr k) x s) v.
Proof.
  intros (b & ps & -> & Hb & Hu). unfold obj_set.
  destruct (heap s !! a) as [[psa|t cb]|] eqn:Ha; try (by exists b, ps).
  destruct (decide (a = b)) as [->|Hne].
  - exists b, (props_set (KStr k) x psa). split; [done|]. simpl.
    rewrite list_lookup_insert_eq by (by eapply lookup_lt_Some). split; [done|].
    rewrite props_get_set_ne by done. congruence.
  - exists b, ps. split; [done|]. simpl. by rewrite list_lookup_insert_ne.
Qed.

Lemma assign_idx_unmarked data i s v :
  unmarked_row s v →
  unmarked_row
    (foreach_from
       (λ row i s,
          if decide ((raw_get row (KStr "_idx") s).1 = VUndef)
          then raw_set row (KStr "_idx") (VNum (Z.of_nat i)) s
          else s) data i s) v.
Proof.
  revert i s. induction data as [|row data IH]; intros i s Hu; [done|].
  simpl. apply IH. destruct (decide _); [|done].
  destruct row; try done. simpl. by apply unmarked_row_obj_set.
Qed.

Lemma elem_of_changes_app cb t1 t2 : cb ∈ changes t1 → cb ∈ changes (t1 ++ t2).
Proof. rewrite changes_app, elem_of_app. by left. Qed.

Lemma elem_of_queued_app e t1 t2 : e ∈ queued t1 → e ∈ queued (t1 ++ t2).
Proof. rewrite queued_app, elem_of_app. by left. Qed.

Lemma is_Some_queueTimer_enqueues s s' :
  enqueues s s' → is_Some (queueTimer s) → is_Some (queueTimer s').
Proof.
  intros Henq [id Hid]. destruct (pending_enqueues s s' id Henq Hid) as [-> _]. by eexists.
Qed.

Lemma wrapped_and_queued_tracked b s s' w :
  tracked b s s' → wrapped_and_queued s w → wrapped_and_queued s' w.
Proof.
  intros Htr (p & a & key & -> & Hp & Hc & Hq).
  destruct (tr_trace _ _ _ Htr) as (t & Ht & _).
  exists p, a, key. split; [done|]. split; [by eapply tr_prx|].
  rewrite Ht. split; [by apply elem_of_changes_app|by apply elem_of_queued_app].
Qed.

Lemma wrap_all_fresh data s :
  Forall (unmarked_row s) data → NoDup data →
  ∃ ws s', map_st _wrapRow data s = (ws, s') ∧ length ws = length data ∧
    Forall (wrapped_and_queued s') ws ∧
    (data ≠ [] → is_Some (queueTimer s')) ∧
    tracked true s s'.
Proof.
  revert s. induction data as [|v data IH]; intros s Hf Hnd.
  - exists [], s. split; [done|]. split; [done|]. split; [done|].
    split; [done|apply tracked_refl].
  - apply Forall_cons in Hf as [(a & ps & -> & Ha & Hu) Hf].
    apply NoDup_cons in Hnd as [Hnin Hnd].
    destruct (wrapRow_fresh a ps s Ha Hu) as (key & s1 & Heq & Hp & Hc & Hq & Ht & Hto & _).
    pose proof (tracked_wrapRow true (VRef a) s) as Htr1. rewrite Heq in Htr1. simpl in Htr1.
    assert (Hf1 : Forall (unmarked_row s1) data).
    { apply Forall_forall. intros v Hv. rewrite Forall_forall in Hf.
      eapply unmarked_row_touches; [exact Hto| |by apply Hf].
      intros a' -> Hin. apply list_elem_of_singleton in Hin as ->. done. }
    destruct (IH s1 Hf1 Hnd) as (ws & s' & Heq' & Hlen & Hw & _ & Htr2).
    cbn [map_st]. rewrite Heq, Heq'. exists (VRef (length (heap s)) :: ws), s'.
    split; [done|]. split; [simpl; by rewrite Hlen|]. split.
    { apply Forall_cons. split; [|done].
      apply (wrapped_and_queued_tracked true s1 s'); [done|].
      exists (length (heap s)), a, key. split; [done|]. split; [done|].
      rewrite Hc, Hq. split; apply elem_of_app; right; apply list_elem_of_here. }
    split.
    { intros _. eapply is_Some_queueTimer_enqueues; [apply Htr2|done]. }
    by eapply tracked_trans.
Qed.

(** Initialisation queues a save of every loaded row and arms the timer. *)
Lemma init_queues_every_row table :
  let s := init table empty_state in
  length (rows s) = length table ∧
  Forall (wrapped_and_queued s) (rows s) ∧
  (table ≠ [] → queueTimer s = Some 0%nat ∧ timers s = [(0%nat, 500)]).
Proof.
  intros s.
  assert (Hidle : (queueTimer s = None ∧ timers s = []) ∨
                  (queueTimer s = Some 0%nat ∧ timers s = [(0%nat, 500)])).
  { apply (idle_enqueues empty_state s); [|done|done]. apply (evolves_init table empty_state). }
  subst s. unfold init in *.
  destruct (load_fresh table empty_state) as (data & s1 & Heq1 & Hf & Hnd & _ & Hlen & _).
  rewrite Heq1 in *.
  set (s2 := foreach_from _ data 0%nat s1) in *.
  assert (Hf2 : Forall (unmarked_row s2) data).
  { apply Forall_forall. intros v Hv. rewrite Forall_forall in Hf.
    subst s2. by apply assign_idx_unmarked, Hf. }
  destruct (wrap_all_fresh data s2 Hf2 Hnd) as (ws & s3 & Heq & Hlen3 & Hw & Ht & _).
  rewrite Heq in *. simpl in *.
  split; [congruence|]. split; [done|].
  intros Hne. destruct Hidle as [[Hnone _]|Hsome]; [|done].
  assert (Hd : data ≠ []) by (intros ->; by destruct table).
  destruct (Ht Hd) as [id Hid]. congruence.
Qed.

(** C3. (1) Wrapping a reference that carries no marker calls [onChange]
    once, while it is being wrapped: the marker is written through the new
    Proxy.  (2) Initialisation therefore leaves every loaded row wrapped,
    notified and queued for a save, with the timer armed (due 500 ms after
    the load).  (3) The first read, through a tracked value, of a composite
    field that is not wrapped yet notifies as well: a save of the owning row
    is queued and a timer is armed. *)
Theorem wrapping_notifies :
  (∀ s a cb, has_marker (VRef a) s = false →
     changes (trace (createDeepProxy (VRef a) cb s).2) = changes (trace s) ++ [cb]) ∧
  (∀ table,
     let s := init table empty_state in
     length (rows s) = length table ∧
     Forall (wrapped_and_queued s) (rows s) ∧
     (table ≠ [] → queueTimer s = Some 0%nat ∧ timers s = [(0%nat, 500)])) ∧
  (∀ s p t r k c,
     heap s !! p = Some (Prx t (QueueSave r)) →
     obj_get t (KStr k) s = VRef c →
     has_marker (VRef c) s = false →
     let s' := (js_get (VRef p) (KStr k) s).2 in
     changes (trace s') = changes (trace s) ++ [QueueSave r] ∧
     (∃ key, queued (trace s') = queued (trace s) ++ [(key, Op (VRef r) Save)] ∧
             assoc_get key (operationQueue s') = Some (Op (VRef r) Save)) ∧
     is_Some (queueTimer s')).
Proof.
  split; [|split].
  - intros s a [r] Hm.
    destruct (createDeepProxy_fresh a r s Hm) as (key & s' & -> & _ & Hc & _). done.
  - apply init_queues_every_row.
  - intros s p t r k c Hp Hg Hm s'. subst s'.
    destruct (get_trap_fresh p t r k c s Hp Hg Hm)
      as (key & s' & -> & _ & _ & Hc & Hq & Hk & Ht).
    simpl. split; [done|]. split; [by exists key|done].
Qed.

Lemma wrapping_notifies_witness :
  let s := Scenario.nested in
  has_marker (VRef 1) s = false ∧
  heap s !! 3%nat = Some (Prx 2 (QueueSave 2)) ∧
  obj_get 2 (KStr "data") s = VRef 1 ∧
  changes (trace (createDeepProxy (VRef 1) (QueueSave 2) s).2) =
    changes (trace s) ++ [QueueSave 2] ∧
  changes (trace (js_get (VRef 3) (KStr "data") s).2) =
    changes (trace s) ++ [QueueSave 2] ∧
  is_Some (queueTimer (js_get (VRef 3) (KStr "data") s).2).
Proof.
  intros s.
  assert (Hm : has_marker (VRef 1) s = false) by reflexivity.
  assert (Hp : heap s !! 3%nat = Some (Prx 2 (QueueSave 2))) by reflexivity.
  assert (Hg : obj_get 2 (KStr "data") s = VRef 1) by reflexivity.
  destruct wrapping_notifies as (H1 & _ & H3).
  destruct (H3 s 3%nat 2%nat 2%nat "data"%string 1%nat Hp Hg Hm) as (Hc & _ & Ht).
  split; [exact Hm|]. split; [exact Hp|]. split; [exact Hg|].
  split; [exact (H1 s 1%nat (QueueSave 2) Hm)|]. split; [exact Hc|exact Ht].
Defined.


(** ** Identity and position *)

Lemma row_struct_evolves b s s' w t : evolves b s s' → row_struct s w t → row_struct s' w t.
Proof.
  intros Hev (p & ps & -> & Hp & Ht & Hm).
  destruct (ev_obj _ _ _ Hev t ps Ht) as (ps' & Ht' & Hm' & _).
  exists p, ps'. split; [done|]. split; [by eapply ev_prx|]. split; [done|by apply Hm'].
Qed.

Lemma row_at_evolves s s' j w : evolves true s s' → row_at s j w → row_at s' j w.
Proof.
  intros Hev (t & Hs & Hi). exists t. split; [by eapply row_struct_evolves|].
  destruct Hs as (p & ps & _ & _ & Ht & _).
  destruct (ev_obj _ _ _ Hev t ps Ht) as (ps' & Ht' & _ & Hi').
  rewrite (obj_get_lookup _ _ _ _ Ht'). apply Hi'; [done|].
  by rewrite <- (obj_get_lookup _ _ _ _ Ht).
Qed.

Lemma mirror_inv_evolves s s' :
  evolves true s s' → rows s' = rows s → mirror_inv s → mirror_inv s'.
Proof.
  intros Hev Hr Hinv j w Hj. rewrite Hr in Hj. eapply row_at_evolves; [done|]. by apply Hinv.
Qed.

Lemma mirror_inv_identity s : mirror_inv s → identity_is_position s.
Proof.
  intros Hinv j w Hj. destruct (Hinv j w Hj) as (t & (p & ps & -> & Hp & Ht & _) & Hi).
  unfold js_get. rewrite Hp. unfold get_trap. rewrite Hi. done.
Qed.

(** [row._idx = idx] through the Proxy of a row. *)
Lemma set_idx_step p t ps i s :
  heap s !! p = Some (Prx t (QueueSave t)) → heap s !! t = Some (Obj ps) →
  let s' := js_set (VRef p) (KStr "_idx") (VNum i) s in
  obj_get t (KStr "_idx") s' = VNum i ∧ touches [t] s s' ∧ tracked false s s'.
Proof.
  intros Hp Ht s'.
  assert (Htr : tracked false s s') by (by apply tracked_js_set).
  split; [|split; [|done]].
  - subst s'. unfold js_set. rewrite Hp. unfold set_trap.
    set (w := obj_set t (KStr "_idx") (VNum i) s).
    assert (Hw : obj_get t (KStr "_idx") w = VNum i) by (by eapply obj_get_set_eq).
    destruct (decide _); [done|].
    rewrite (onChange_with_idx t i w Hw).
    by rewrite (obj_get_heap_eq _ _ _ _ (heap_enqueue _ _ _)).
  - subst s'. unfold js_set. rewrite Hp. unfold set_trap.
    destruct (decide _).
    + apply touches_obj_set, list_elem_of_here.
    + eapply touches_trans; [apply touches_obj_set, list_elem_of_here|].
      by destruct (onChange_effect t (obj_set t (KStr "_idx") (VNum i) s))
        as (? & _ & _ & _ & _ & ?).
Qed.

Lemma obj_get_touches l s s' a k :
  touches l s s' → a ∉ l → is_Some (heap s !! a) → obj_get a k s' = obj_get a k s.
Proof.
  intros [_ Ht] Ha [c Hc]. unfold obj_get. rewrite Ht; [done|done|by eapply lookup_lt_Some].
Qed.

(** The reindexing loop of [splice]:
    [this.rows.forEach((row, idx) => (row._idx = idx))]. *)
Lemma reindex_rows l ts i0 s :
  Forall2 (row_struct s) l ts → NoDup ts →
  let s' := foreach_from (λ row idx, js_set row (KStr "_idx") (VNum (Z.of_nat idx))) l i0 s in
  (∀ j w, l !! j = Some w → row_at s' (i0 + j) w) ∧
  touches ts s s' ∧ tracked false s s'.
Proof.
  revert ts i0 s. induction l as [|w l IH]; intros ts i0 s Hl Hnd s'.
  - split; [by intros j w Hj|]. split; [apply touches_refl|apply tracked_refl].
  - apply Forall2_cons_inv_l in Hl as (t & ts' & Hw & Hl & ->).
    apply NoDup_cons in Hnd as [Hnin Hnd]. subst s'. simpl.
    destruct Hw as (p & ps & -> & Hp & Ht & Hm).
    destruct (set_idx_step p t ps (Z.of_nat i0) s Hp Ht) as (Hi & Hto & Htr).
    set (s1 := js_set (VRef p) (KStr "_idx") (VNum (Z.of_nat i0)) s) in *.
    assert (Hs1 : row_struct s1 (VRef p) t).
    { eapply row_struct_evolves; [apply tracked_evolves, Htr|]. by exists p, ps. }
    assert (Hl1 : Forall2 (row_struct s1) l ts').
    { eapply Forall2_impl; [exact Hl|]. intros w' t' Hs.
      eapply row_struct_evolves; [apply tracked_evolves, Htr|done]. }
    destruct (IH ts' (S i0) s1 Hl1 Hnd) as (Hrows & Hto' & Htr').
    set (s2 := foreach_from _ l (S i0) s1) in *.
    split; [|split].
    + intros [|j] w Hj; simpl in Hj.
      * injection Hj as <-. exists t. split.
        { eapply row_struct_evolves; [apply tracked_evolves, Htr'|done]. }
        rewrite Nat.add_0_r. rewrite (obj_get_touches ts' s1 s2); [done|done|done|].
        destruct Hs1 as (? & ? & _ & _ & -> & _). by eexists.
      * replace (i0 + S j)%nat with (S i0 + j)%nat by lia. by apply Hrows.
    + eapply touches_trans.
      * eapply touches_mono; [|exact Hto]. intros x Hx.
        apply list_elem_of_singleton in Hx as ->. apply list_elem_of_here.
      * eapply touches_mono; [|exact Hto']. intros x Hx. by apply list_elem_of_further.
    + by eapply tracked_trans.
Qed.

(** Wrapping new rows one after the other, each after a step [pre] of its
    own (its identity is assigned first). *)
Section WrapLoop.
Variable b : bool.
Variable pre : value → nat → state → state.
Hypothesis pre_tracked : ∀ v i s, tracked b s (pre v i s).
Hypothesis pre_unmarked : ∀ v i s v', unmarked_row s v' → unmarked_row (pre v i s) v'.

Lemma wrap_loop items i0 s :
  Forall (unmarked_row s) items → NoDup items →
  ∃ ws s', mapi_st (λ v i s, _wrapRow v (pre v i s)) items i0 s = (ws, s') ∧
    Forall2 (λ v w, ∃ a, v = VRef a ∧ row_struct s' w a) items ws ∧
    tracked b s s'.
Proof.
  revert i0 s. induction items as [|v items IH]; intros i0 s Hf Hnd.
  - exists [], s. split; [done|]. split; [constructor|apply tracked_refl].
  - apply Forall_cons in Hf as [Hv Hf]. apply NoDup_cons in Hnd as [Hnin Hnd].
    pose proof (pre_unmarked v i0 s v Hv) as (a & ps & -> & Ha & Hu).
    destruct (wrapRow_fresh a ps (pre (VRef a) i0 s) Ha Hu)
      as (key & s1 & Heq & _ & _ & _ & _ & Hto & Hrs).
    pose proof (tracked_wrapRow b (VRef a) (pre (VRef a) i0 s)) as Htr1.
    rewrite Heq in Htr1. simpl in Htr1.
    assert (Hf1 : Forall (unmarked_row s1) items).
    { apply Forall_forall. intros v' Hv'. rewrite Forall_forall in Hf.
      eapply unmarked_row_touches; [exact Hto| |by apply pre_unmarked, Hf].
      intros a' -> Hin. apply list_elem_of_singleton in Hin as ->. done. }
    destruct (IH (S i0) s1 Hf1 Hnd) as (ws & s' & Heq' & Hws & Htr2).
    cbn [mapi_st]. rewrite Heq, Heq'. eexists _, s'. split; [done|]. split.
    + constructor; [|done]. exists a. split; [done|].
      eapply row_struct_evolves; [apply tracked_evolves, Htr2|done].
    + eapply tracked_trans; [apply pre_tracked|]. by eapply tracked_trans.
Qed.
End WrapLoop.

Lemma map_st_mapi {A B} (f : A → state → B * state) l i s :
  map_st f l s = mapi_st (λ x _, f x) l i s.
Proof.
  revert i s. induction l as [|x l IH]; intros i s; [done|].
  simpl. destruct (f x s) as [y s1]. by rewrite (IH (S i)).
Qed.

Lemma row_struct_target s w t : row_struct s w t → target_of s w = t.
Proof. intros (p & ps & -> & Hp & _). unfold target_of. by rewrite Hp. Qed.

Lemma mirror_inv_targets s :
  mirror_inv s →
  Forall2 (row_struct s) (rows s) (target_of s <$> rows s) ∧
  NoDup (target_of s <$> rows s).
Proof.
  intros Hinv. split.
  - apply Forall2_fmap_r, Forall_Forall2_diag, Forall_lookup. intros j w Hj.
    destruct (Hinv j w Hj) as (t & Hs & _). unfold compose.
    by rewrite (row_struct_target s w t Hs).
  - apply NoDup_alt. intros i j t Hi Hj.
    apply list_lookup_fmap_Some in Hi as (wi & -> & Hi).
    apply list_lookup_fmap_Some in Hj as (wj & Heq & Hj).
    destruct (Hinv i wi Hi) as (ti & Hsi & Hii), (Hinv j wj Hj) as (tj & Hsj & Hij).
    rewrite (row_struct_target _ _ _ Hsi) in *. rewrite (row_struct_target _ _ _ Hsj) in *.
    subst tj. rewrite Hii in Hij. injection Hij. lia.
Qed.

Lemma unmarked_row_heap_eq s s' v : heap s' = heap s → unmarked_row s v → unmarked_row s' v.
Proof. intros Hh (a & ps & -> & Ha & Hu). exists a, ps. by rewrite Hh. Qed.

Lemma unmarked_row_onChange cb s v : unmarked_row s v → unmarked_row (onChange cb s) v.
Proof.
  intros Hv. destruct cb as [r]. rewrite onChange_unfold. cbv zeta.
  apply (unmarked_row_heap_eq _ _ _ (heap_enqueue _ _ _)).
  unfold fill_idx. destruct (decide _).
  - apply unmarked_row_obj_set. by apply (unmarked_row_heap_eq s).
  - by apply (unmarked_row_heap_eq s).
Qed.

Lemma unmarked_row_js_set v k x s v' :
  unmarked_row s v' → unmarked_row (js_set v (KStr k) x s) v'.
Proof.
  intros Hv. unfold js_set. destruct v as [| | | | |a]; try done.
  destruct (heap s !! a) as [[ps|t cb]|]; try done.
  - by apply unmarked_row_obj_set.
  - unfold set_trap. destruct (decide _).
    + by apply unmarked_row_obj_set.
    + by apply unmarked_row_onChange, unmarked_row_obj_set.
Qed.

Lemma row_at_touches l s s' j w :
  touches l s s' → row_at s j w →
  (∀ p, w = VRef p → p ∉ l) → target_of s w ∉ l → row_at s' j w.
Proof.
  intros [Hlen Hto] (t & (p & ps & -> & Hp & Ht & Hm) & Hi) Hpl Htl.
  assert (target_of s (VRef p) = t) as Heq by (unfold target_of; by rewrite Hp).
  rewrite Heq in Htl.
  assert (Hp' : heap s' !! p = heap s !! p).
  { apply Hto; [by apply Hpl|by eapply lookup_lt_Some]. }
  assert (Ht' : heap s' !! t = heap s !! t).
  { apply Hto; [done|by eapply lookup_lt_Some]. }
  exists t. split.
  - exists p, ps. by rewrite Hp', Ht'.
  - unfold obj_get in *. by rewrite Ht'.
Qed.

(** [push(row)] of a new object keeps every identity equal to its
    position. *)
Lemma mirror_inv_push row s :
  mirror_inv s → unmarked_row s row → mirror_inv (push row s).2.
Proof.
  intros Hinv (a & ps & -> & Ha & Hu). unfold push.
  assert (Hs1 : js_set (VRef a) (KStr "_idx") (VNum (Z.of_nat (length (rows s)))) s =
                obj_set a (KStr "_idx") (VNum (Z.of_nat (length (rows s)))) s).
  { unfold js_set. by rewrite Ha. }
  rewrite Hs1. set (s1 := obj_set a (KStr "_idx") (VNum (Z.of_nat (length (rows s)))) s).
  assert (Hto : touches [a] s s1) by apply touches_obj_set, list_elem_of_here.
  assert (Hr1 : rows s1 = rows s).
  { subst s1. by destruct (obj_set_with_heap a (KStr "_idx")
      (VNum (Z.of_nat (length (rows s)))) s) as (h & -> & _). }
  assert (Ha1 : heap s1 !! a = Some (Obj (props_set (KStr "_idx")
                  (VNum (Z.of_nat (length (rows s)))) ps))).
  { subst s1. unfold obj_set. rewrite Ha. simpl.
    apply list_lookup_insert_eq. by eapply lookup_lt_Some. }
  assert (Hold : ∀ j w, rows s !! j = Some w → row_at s1 j w).
  { intros j w Hj. pose proof (Hinv j w Hj) as Hrow.
    eapply row_at_touches; [exact Hto|exact Hrow| |].
    - intros p -> Hin. apply list_elem_of_singleton in Hin as ->.
      destruct Hrow as (t & (p' & ps' & [= <-] & Hp & _) & _). congruence.
    - intros Hin. apply list_elem_of_singleton in Hin.
      destruct Hrow as (t & Hs & _). rewrite (row_struct_target _ _ _ Hs) in Hin. subst t.
      destruct Hs as (p & ps' & _ & _ & Ht & Hm). congruence. }
  destruct (wrapRow_fresh a _ s1 Ha1) as (key & s2 & Heq & _ & _ & _ & _ & _ & Hrs).
  { by rewrite props_get_set_ne. }
  pose proof (tracked_wrapRow true (VRef a) s1) as Htr. rewrite Heq in *. simpl in Htr.
  set (w0 := VRef (length (heap s1))) in *.
  set (s3 := with_rows (rows s2 ++ [w0]) s2).
  assert (Hev : evolves true s2 (_queueOperation w0 Save s3)).
  { eapply evolves_trans; [apply (evolves_with_rows true (rows s2 ++ [w0]) s2)|].
    apply tracked_evolves, tracked_queueOperation. }
  assert (Hrows : rows (_queueOperation w0 Save s3) = rows s ++ [w0]).
  { rewrite (tr_rows _ _ _ (tracked_queueOperation true w0 Save s3)). simpl.
    by rewrite (tr_rows _ _ _ Htr), Hr1. }
  simpl. intros j w Hj. rewrite Hrows in Hj.
  apply lookup_app_Some in Hj as [Hj|[Hlen Hj]].
  - eapply row_at_evolves; [exact Hev|]. eapply row_at_evolves; [apply tracked_evolves, Htr|].
    by apply Hold.
  - apply list_lookup_singleton_Some in Hj as [Hj <-].
    assert (j = length (rows s)) as -> by lia.
    eapply row_at_evolves; [exact Hev|]. exists a. split; [done|].
    destruct (tr_obj _ _ _ Htr a _ Ha1) as (ps2 & Ha2 & _ & Hi2).
    rewrite (obj_get_lookup _ _ _ _ Ha2). apply Hi2; [done|]. apply props_get_set_eq.
Qed.

Lemma NoDup_insert_middle {A} (l1 m l2 : list A) :
  NoDup (l1 ++ l2) → NoDup m → (∀ x, x ∈ m → x ∉ l1 ++ l2) → NoDup (l1 ++ m ++ l2).
Proof.
  intros H12 Hm Hd. rewrite (Permutation_app_swap_app l1 m l2).
  apply NoDup_app. split; [done|]. split; [done|done].
Qed.

Lemma take_drop_sublist {A} (l : list A) a c : sublist (take a l ++ drop (a + c) l) l.
Proof.
  rewrite <- (take_drop a l) at 3. apply sublist_app; [done|].
  rewrite <- drop_drop. apply sublist_drop.
Qed.

(** [splice(start, deleteCount, ...items)] with new objects as items leaves
    every identity equal to its position. *)
Lemma splice_identities start deleteCount items s ts_old :
  Forall2 (row_struct s) (rows s) ts_old → NoDup ts_old →
  Forall (unmarked_row s) items → NoDup items →
  mirror_inv (splice start deleteCount items s).2.
Proof.
  intros Hold Hndold Hit Hnd. unfold splice.
  destruct (wrap_loop false
      (λ i idx s, js_set i (KStr "_idx") (VNum (start + Z.of_nat idx)) s)
      (λ v i s, tracked_js_set false v "_idx" _ s (λ H, ltac:(discriminate)))
      (λ v i s v', unmarked_row_js_set v "_idx" _ s v')
      items 0%nat s Hit Hnd) as (ws & s1 & -> & Hws & Htr1).
  assert (Hr1 : rows s1 = rows s) by apply Htr1. rewrite Hr1.
  unfold array_splice.
  set (a0 := splice_start (length (rows s)) start).
  set (c0 := splice_count (length (rows s)) start deleteCount).
  cbv zeta. cbn [snd].
  set (kept := take a0 (rows s) ++ ws ++ drop (a0 + c0) (rows s)).
  set (ts := take a0 ts_old ++ (addr_of <$> items) ++ drop (a0 + c0) ts_old).
  assert (Hold1 : Forall2 (row_struct s1) (rows s) ts_old).
  { eapply Forall2_impl; [exact Hold|]. intros w t Hs.
    eapply row_struct_evolves; [apply tracked_evolves, Htr1|done]. }
  assert (Hnew : Forall2 (row_struct s1) ws (addr_of <$> items)).
  { apply Forall2_fmap_r, Forall2_flip. eapply Forall2_impl; [exact Hws|].
    intros v w (a & -> & Hs). done. }
  assert (Hkept : Forall2 (row_struct s1) kept ts).
  { subst kept ts. apply Forall2_app; [by apply Forall2_take|].
    apply Forall2_app; [done|by apply Forall2_drop]. }
  assert (Hndts : NoDup ts).
  { subst ts. apply NoDup_insert_middle.
    - eapply sublist_NoDup; [exact Hndold|apply take_drop_sublist].
    - apply NoDup_fmap_2_strong; [|done].
      intros x y Hx Hy Heq. rewrite Forall_forall in Hit.
      destruct (Hit x Hx) as (ax & ? & -> & _), (Hit y Hy) as (ay & ? & -> & _).
      simpl in Heq. by subst.
    - intros a Ha Hin.
      apply list_elem_of_fmap in Ha as (v & -> & Hv).
      assert (Hin' : addr_of v ∈ ts_old).
      { eapply elem_of_sublist; [exact Hin|apply take_drop_sublist]. }
      rewrite Forall_forall in Hit. destruct (Hit v Hv) as (a & ps & -> & Hpa & Hu).
      simpl in Hin'. apply list_elem_of_lookup in Hin' as [j Hj].
      destruct (Forall2_lookup_r _ _ _ _ _ Hold Hj) as (w & _ & Hs).
      destruct Hs as (p & ps' & _ & _ & Hpa' & Hm). congruence. }
  set (s2 := with_rows kept s1).
  set (s3 := foreach (λ r, _queueOperation r Delete) (take c0 (drop a0 (rows s))) s2).
  set (s4 := foreach (λ i, _queueOperation i Save) items s3).
  assert (Htr3 : tracked false s2 s3).
  { apply tracked_foreach. intros. apply tracked_queueOperation. }
  assert (Htr4 : tracked false s3 s4).
  { apply tracked_foreach. intros. apply tracked_queueOperation. }
  assert (Hr4 : rows s4 = kept).
  { by rewrite (tr_rows _ _ _ Htr4), (tr_rows _ _ _ Htr3). }
  assert (Hkept4 : Forall2 (row_struct s4) kept ts).
  { eapply Forall2_impl; [exact Hkept|]. intros w t Hs.
    eapply row_struct_evolves; [apply tracked_evolves, Htr4|].
    eapply row_struct_evolves; [apply tracked_evolves, Htr3|].
    eapply row_struct_evolves; [apply (evolves_with_rows false kept s1)|done]. }
  rewrite Hr4.
  destruct (reindex_rows kept ts 0%nat s4 Hkept4 Hndts) as (Hres & _ & Htr5).
  intros j w Hj. rewrite (tr_rows _ _ _ Htr5), Hr4 in Hj.
  by apply (Hres j w Hj).
Qed.

Lemma mirror_inv_splice start deleteCount items s :
  mirror_inv s → Forall (unmarked_row s) items → NoDup items →
  mirror_inv (splice start deleteCount items s).2.
Proof.
  intros Hinv. destruct (mirror_inv_targets s Hinv) as [Hold Hndold].
  by eapply splice_identities.
Qed.

(** *** The initial load *)

Lemma alloc_fields_idx fs acc s i :
  positional i fs →
  (props_get (KStr "_idx") acc = VUndef ∨ props_get (KStr "_idx") acc = VNum (Z.of_nat i)) →
  props_get (KStr "_idx") (alloc_fields fs acc s).1 = VUndef ∨
  props_get (KStr "_idx") (alloc_fields fs acc s).1 = VNum (Z.of_nat i).
Proof.
  revert acc s. induction fs as [|[k j] fs IH]; intros acc s Hpos Hacc; [done|].
  simpl. destruct (alloc_json j s) as [v s1] eqn:Hj. apply IH.
  - intros j' Hj'. apply Hpos. by apply list_elem_of_further.
  - destruct (decide (k = "_idx"%string)) as [->|Hne].
    + right. rewrite props_get_set_eq.
      rewrite (Hpos j) in Hj by apply list_elem_of_here. simpl in Hj. congruence.
    + rewrite props_get_set_ne by congruence. done.
Qed.

Lemma new_object_idx fields i s :
  positional i fields → idx_ok (new_object fields s).2 i (new_object fields s).1.
Proof.
  intros Hpos. unfold new_object. rewrite alloc_json_obj.
  pose proof (alloc_fields_idx fields [] s i Hpos (or_introl eq_refl)) as Hi.
  destruct (alloc_fields fields [] s) as [ps s1]. simpl in *.
  exists (length (heap s1)), ps. split; [done|]. split; [|done].
  simpl. by rewrite list_lookup_middle.
Qed.

Lemma idx_ok_touches l s s' i v :
  touches l s s' → (∀ a, v = VRef a → a ∉ l) → idx_ok s i v → idx_ok s' i v.
Proof.
  intros [_ Ht] Hv (a & ps & -> & Ha & Hi). exists a, ps. split; [done|].
  split; [|done]. rewrite Ht; [done|by apply Hv|by eapply lookup_lt_Some].
Qed.

Lemma load_positional table i0 s :
  (∀ i fields, table !! i = Some fields → positional (i0 + i) fields) →
  ∀ i v, (map_st new_object table s).1 !! i = Some v →
         idx_ok (map_st new_object table s).2 (i0 + i) v.
Proof.
  revert i0 s. induction table as [|fields table IH]; intros i0 s Hpos i v Hi; [done|].
  simpl in *. pose proof (new_object_idx fields i0 s) as H0.
  destruct (new_object fields s) as [v0 s0]. simpl in H0.
  pose proof (IH (S i0) s0) as IH'.
  pose proof (load_fresh table s0) as (data & s1 & Heq & _ & _ & _ & _ & Hto).
  rewrite Heq in *. simpl in *.
  destruct i as [|i]; simpl in Hi.
  - injection Hi as <-. rewrite Nat.add_0_r.
    eapply idx_ok_touches; [exact Hto|intros ? _; apply not_elem_of_nil|].
    apply H0. specialize (Hpos 0%nat fields eq_refl). by rewrite Nat.add_0_r in Hpos.
  - replace (i0 + S i)%nat with (S (i0 + i))%nat by lia. apply IH'; [|done].
    intros i' f' Hf'. specialize (Hpos (S i') f' Hf').
    by replace (S (i0 + i'))%nat with (i0 + S i')%nat by lia.
Qed.

Lemma assign_idx_sets data i0 s :
  NoDup data →
  (∀ i v, data !! i = Some v → idx_ok s (i0 + i) v) →
  let s' := foreach_from
              (λ row i s,
                 if decide ((raw_get row (KStr "_idx") s).1 = VUndef)
                 then raw_set row (KStr "_idx") (VNum (Z.of_nat i)) s
                 else s) data i0 s in
  (∀ i v, data !! i = Some v →
     ∃ a, v = VRef a ∧ obj_get a (KStr "_idx") s' = VNum (Z.of_nat (i0 + i))) ∧
  touches (addr_of <$> data) s s'.
Proof.
  revert i0 s. induction data as [|v data IH]; intros i0 s Hnd Hok s'.
  - split; [done|apply touches_refl].
  - apply NoDup_cons in Hnd as [Hnin Hnd]. subst s'. cbn [foreach_from].
    destruct (Hok 0%nat v eq_refl) as (a & ps & -> & Ha & Hi). rewrite Nat.add_0_r in Hi.
    set (s1 := if decide _ then _ else s).
    assert (Hi1 : obj_get a (KStr "_idx") s1 = VNum (Z.of_nat i0)).
    { subst s1. simpl. destruct (decide _) as [Hu|Hd].
      - by eapply obj_get_set_eq.
      - rewrite (obj_get_lookup _ _ _ _ Ha) in *. by destruct Hi. }
    assert (Hto1 : touches [a] s s1).
    { subst s1. simpl.
      destruct (decide _); [apply touches_obj_set, list_elem_of_here|apply touches_refl]. }
    assert (Ha1 : is_Some (heap s1 !! a)).
    { unfold obj_get in Hi1. by destruct (heap s1 !! a). }
    destruct (IH (S i0) s1 Hnd) as [Hres Hto].
    { intros i v Hv. replace (S i0 + i)%nat with (i0 + S i)%nat by lia.
      eapply idx_ok_touches; [exact Hto1| |by apply (Hok (S i))].
      intros a' -> Hin. apply list_elem_of_singleton in Hin as ->.
      apply Hnin. by eapply list_elem_of_lookup_2. }
    split.
    + intros [|i] v Hv; simpl in Hv.
      * injection Hv as <-. exists a. split; [done|]. rewrite Nat.add_0_r.
        rewrite (obj_get_touches (addr_of <$> data) s1 _ a (KStr "_idx") Hto); [done| |done].
        intros Hin. apply list_elem_of_fmap in Hin as (v' & Heq & Hv').
        assert (v' = VRef a) as ->.
        { destruct (list_elem_of_lookup_1 _ _ Hv') as [i Hi'].
          destruct (Hres i v' Hi') as (a' & -> & _). simpl in Heq. by subst. }
        done.
      * replace (i0 + S i)%nat with (S i0 + i)%nat by lia. by apply Hres.
    + eapply touches_trans.
      * eapply touches_mono; [|exact Hto1]. intros x Hx.
        apply list_elem_of_singleton in Hx as ->. apply list_elem_of_here.
      * eapply touches_mono; [|exact Hto]. intros x Hx. by apply list_elem_of_further.
Qed.

(** After a positional load every identity is a position. *)
Lemma mirror_inv_init table :
  positional_table table → mirror_inv (init table empty_state).
Proof.
  intros Hpos. unfold init.
  pose proof (load_positional table 0%nat empty_state Hpos) as Hok.
  destruct (load_fresh table empty_state) as (data & s1 & Heq1 & Hf & Hnd & _ & _ & _).
  rewrite Heq1 in *. simpl in Hok.
  destruct (assign_idx_sets data 0%nat s1 Hnd Hok) as [Hidx _].
  set (s2 := foreach_from _ data 0%nat s1) in *.
  assert (Hf2 : Forall (unmarked_row s2) data).
  { apply Forall_forall. intros v Hv. rewrite Forall_forall in Hf.
    subst s2. by apply assign_idx_unmarked, Hf. }
  destruct (wrap_loop true (λ _ _ s, s) (λ _ _ s, tracked_refl true s)
              (λ _ _ s v' H, H) data 0%nat s2 Hf2 Hnd) as (ws & s3 & Heq3 & Hws & Htr).
  assert (Hm : map_st _wrapRow data s2 = (ws, s3)).
  { rewrite (map_st_mapi _ data 0%nat s2). exact Heq3. }
  rewrite Hm. simpl.
  intros j w Hj.
  destruct (Forall2_lookup_r _ _ _ _ _ Hws Hj) as (v & Hv & a & -> & Hs).
  exists a. split.
  - by apply (row_struct_evolves true s3 _ _ _ (evolves_with_rows true ws s3)).
  - destruct (Hidx j (VRef a) Hv) as (a' & [= <-] & Hi).
    assert (Ha2 : ∃ ps, heap s2 !! a = Some (Obj ps)).
    { unfold obj_get in Hi. destruct (heap s2 !! a) as [[ps|]|]; try discriminate. by exists ps. }
    destruct Ha2 as [ps Ha2]. destruct (tr_obj _ _ _ Htr a ps Ha2) as (ps3 & Ha3 & _ & Hi3).
    rewrite (obj_get_lookup a _ ps3) by done. apply Hi3; [done|].
    by rewrite <- (obj_get_lookup _ _ _ _ Ha2).
Qed.

(** *** Calls that leave the identities to the mirror *)

Lemma mirror_inv_fire id s : mirror_inv s → mirror_inv (fire id s).
Proof.
  intros Hinv. unfold fire. destruct (assoc_get id (timers s)); [|done].
  destruct (decide _); [|done]. unfold flush, flush_begin.
  set (s1 := State _ _ _ _ _ _ _ _ _).
  destruct (evolves_flush_body (map snd (operationQueue s)) s1) as [Hev Hr].
  eapply mirror_inv_evolves; [exact Hev|exact Hr|]. exact Hinv.
Qed.

Lemma mirror_inv_exec a s : allowed a s → mirror_inv s → mirror_inv (exec a s).
Proof.
  destruct a as [fields|v k|v k x|v k|row|start dc items|d|id|n ok]; simpl; intros Hal Hinv.
  - pose proof (tracked_alloc_json true (JObj fields) s) as Htr.
    eapply mirror_inv_evolves; [apply tracked_evolves, Htr|apply Htr|done].
  - pose proof (tracked_js_get true v k s) as Htr.
    eapply mirror_inv_evolves; [apply tracked_evolves, Htr|apply Htr|done].
  - pose proof (tracked_js_set true v k x s (λ _, Hal)) as Htr.
    eapply mirror_inv_evolves; [apply tracked_evolves, Htr|apply Htr|done].
  - pose proof (tracked_js_delete true v k s (λ _, Hal)) as Htr.
    eapply mirror_inv_evolves; [apply tracked_evolves, Htr|apply Htr|done].
  - by apply mirror_inv_push.
  - destruct Hal. by apply mirror_inv_splice.
  - unfold advance. by destruct (decide _).
  - by apply mirror_inv_fire.
  - destruct (evolves_settle n ok s) as [Hev Hr]. by eapply mirror_inv_evolves.
Qed.

Lemma mirror_inv_run acts s : permitted acts s → mirror_inv s → mirror_inv (run acts s).
Proof.
  revert s. induction acts as [|a acts IH]; intros s Hp Hinv; [done|].
  destruct Hp as [Ha Hp]. simpl. apply IH; [done|]. by apply mirror_inv_exec.
Qed.

(** C8, as the code has it.  When the load returns every row without [_idx]
    or with the [_idx] of its place, and the caller leaves [_idx] alone and
    hands new objects to [push] and [splice], then in every state the mirror
    reaches (in particular whenever a timer fires and the queue is cleared)
    the [_idx] of every row is its position in [this.rows]. *)
Theorem identity_is_position_after_positional_load
    (table : list (list (string * json))) (acts : list action) :
  positional_table table →
  permitted acts (init table empty_state) →
  identity_is_position (run acts (init table empty_state)).
Proof.
  intros Hpos Hperm. apply mirror_inv_identity, mirror_inv_run; [done|].
  by apply mirror_inv_init.
Qed.

(** C8, as stated, fails: [init] assigns an identity only to a row that has
    none ([if (row._idx === undefined)]).  Rows that the store returns as
    [{_idx: 1}, {_idx: 0}] keep these values: when the timer fires, the row
    at position 0 has identity 1. *)
Lemma stored_identities_are_kept :
  let s := run [AAdvance 500] (init Unordered.table_ba empty_state) in
  rows s !! 0%nat = Some (VRef 2) ∧
  (js_get (VRef 2) (KStr "_idx") s).1 = VNum 1 ∧
  ¬ identity_is_position s ∧
  issued (trace (fire 0 s)) =
    [Upsert [Scenario.rec_ 1 "b"; Scenario.rec_ 0 "a"]].
Proof.
  intros s. split; [reflexivity|]. split; [reflexivity|]. split; [|reflexivity].
  intros H. specialize (H 0%nat (VRef 2) eq_refl). vm_compute in H. discriminate.
Qed.

Lemma identity_is_position_after_positional_load_witness :
  let acts := [AWrite (VRef 2) "name" (VStr "a2");
               ANew [("name"%string, JStr "c")];
               APush (VRef 6);
               ASplice 0 1 [];
               AAdvance 500; AFire 0] in
  positional_table Scenario.table_ab ∧
  permitted acts (init Scenario.table_ab empty_state) ∧
  identity_is_position (run acts (init Scenario.table_ab empty_state)).
Proof.
  intros acts.
  assert (Hpos : positional_table Scenario.table_ab).
  { intros i fields Hi j Hj.
    destruct i as [|[|i]]; simpl in Hi; try discriminate; injection Hi as <-.
    - apply elem_of_cons in Hj as [Hj|Hj]; [by injection Hj as ->|].
      apply elem_of_cons in Hj as [Hj|Hj]; [discriminate|by apply elem_of_nil in Hj].
    - apply elem_of_cons in Hj as [Hj|Hj]; [by injection Hj as ->|].
      apply elem_of_cons in Hj as [Hj|Hj]; [discriminate|by apply elem_of_nil in Hj]. }
  assert (Hperm : permitted acts (init Scenario.table_ab empty_state)).
  { split; [discriminate|]. split; [exact I|]. split.
    - exists 6%nat, [(KStr "name", Slot (VStr "c") true true)].
      split; [reflexivity|]. split; vm_compute; reflexivity.
    - split; [split; [apply List.Forall_nil|apply NoDup_nil_2]|].
      split; [exact I|]. split; [exact I|exact I]. }
  split; [exact Hpos|]. split; [exact Hperm|].
  exact (identity_is_position_after_positional_load Scenario.table_ab acts Hpos Hperm).
Defined.

(** ** splice *)

(** [_queueOperation] of a row that has its identity only enqueues. *)
Lemma queueOperation_row p t cb j type s :
  heap s !! p = Some (Prx t cb) → obj_get t (KStr "_idx") s = VNum j →
  _queueOperation (VRef p) type s = enqueue (VNum j) (Op (VRef p) type) s.
Proof.
  intros Hp Hj.
  assert (Hg : js_get (VRef p) (KStr "_idx") s = (VNum j, s)).
  { unfold js_get. rewrite Hp. unfold get_trap. by rewrite Hj. }
  unfold _queueOperation, queueOperation_with. rewrite Hg.
  destruct (decide (VNum j = VUndef)); [discriminate|]. by rewrite Hg.
Qed.

Lemma row_at_heap_eq s s' j w : heap s' = heap s → row_at s j w → row_at s' j w.
Proof.
  intros Hh (t & (p & ps & -> & Hp & Ht & Hm) & Hi). exists t. split.
  - exists p, ps. by rewrite Hh.
  - by rewrite (obj_get_heap_eq _ _ s s').
Qed.

Lemma queued_enqueue key o s :
  queued (trace (enqueue key o s)) = queued (trace s) ++ [(key, o)].
Proof.
  rewrite trace_enqueue, queued_app. simpl. by destruct (queueTimer s).
Qed.

(** [removed.forEach((r) => this._queueOperation(r, "delete"))] for rows that
    have their identities: one [set] per row, under its identity; nothing
    else changes. *)
Lemma delete_phase l j0 s :
  (∀ m w, l !! m = Some w → row_at s (j0 + m) w) →
  let s' := foreach_from (λ r _, _queueOperation r Delete) l 0%nat s in
  heap s' = heap s ∧ rows s' = rows s ∧
  queued (trace s') = queued (trace s) ++ imap (λ m r, (VNum (Z.of_nat (j0 + m)), Op r Delete)) l ∧
  (∀ key, (∀ m, (m < length l)%nat → key ≠ VNum (Z.of_nat (j0 + m))) →
          assoc_get key (operationQueue s') = assoc_get key (operationQueue s)).
Proof.
  generalize 0%nat as i. revert j0 s.
  induction l as [|w l IH]; intros j0 s i Hrows s'.
  - subst s'. simpl. by rewrite app_nil_r.
  - subst s'. cbn [foreach_from].
    destruct (Hrows 0%nat w eq_refl) as (t & (p & ps & -> & Hp & Ht & Hm) & Hi).
    rewrite (queueOperation_row p t _ _ Delete s Hp Hi).
    set (s1 := enqueue _ _ s).
    destruct (IH (S j0) s1 (S i)) as (Hh & Hr & Hq & Hk).
    { intros m w Hw. replace (S j0 + m)%nat with (j0 + S m)%nat by lia.
      eapply row_at_heap_eq; [apply heap_enqueue|]. by apply (Hrows (S m)). }
    split; [rewrite Hh; apply heap_enqueue|].
    split; [rewrite Hr; subst s1; unfold enqueue; by rewrite rows_arm|].
    split.
    + rewrite Hq. subst s1. rewrite queued_enqueue, <- app_assoc. f_equal.
      rewrite imap_cons. cbn [app]. f_equal.
      apply imap_ext. intros m w _. simpl. do 3 f_equal. lia.
    + intros key Hkey. rewrite Hk.
      * subst s1. rewrite queue_enqueue. unfold assoc_set. apply assoc_get_upd_ne.
        intros <-. by apply (Hkey 0%nat); simpl; [lia|].
      * intros m Hm'. replace (S j0 + m)%nat with (j0 + S m)%nat by lia.
        apply Hkey. simpl. lia.
Qed.

Lemma row_struct_inj s w t t' : row_struct s w t → row_struct s w t' → t = t'.
Proof.
  intros (p & ps & -> & Hp & _) (p' & ps' & [= <-] & Hp' & _). congruence.
Qed.

(** The queue after [row._idx = i] through the Proxy of a row. *)
Lemma set_idx_effect p t ps i s :
  heap s !! p = Some (Prx t (QueueSave t)) → heap s !! t = Some (Obj ps) →
  let s' := js_set (VRef p) (KStr "_idx") (VNum i) s in
  (obj_get t (KStr "_idx") s = VNum i →
     queued (trace s') = queued (trace s) ∧ operationQueue s' = operationQueue s) ∧
  (obj_get t (KStr "_idx") s ≠ VNum i →
     queued (trace s') = queued (trace s) ++ [(VNum i, Op (VRef t) Save)] ∧
     operationQueue s' = assoc_set (VNum i) (Op (VRef t) Save) (operationQueue s)).
Proof.
  intros Hp Ht s'. subst s'. unfold js_set. rewrite Hp. unfold set_trap.
  set (w := obj_set t (KStr "_idx") (VNum i) s).
  assert (Hw : obj_get t (KStr "_idx") w = VNum i) by (by eapply obj_get_set_eq).
  assert (Hwq : operationQueue w = operationQueue s ∧ trace w = trace s).
  { subst w. by destruct (obj_set_with_heap t (KStr "_idx") (VNum i) s) as (h & -> & _). }
  destruct Hwq as [Hwq Hwt].
  destruct (decide _) as [Heq|Hne]; (split; [intros Hy|intros Hn]); try done.
  - by rewrite Hwq, Hwt.
  - rewrite (onChange_with_idx t i w Hw), queued_enqueue, queue_enqueue. simpl.
    rewrite queued_app, Hwq, Hwt. simpl. by rewrite app_nil_r.
Qed.

(** The reindexing loop, event by event: a row is queued for a save, under
    its new identity, exactly when its identity changes. *)
Lemma reindex_effects l ts i0 s :
  Forall2 (row_struct s) l ts → NoDup ts →
  let s' := foreach_from (λ row idx, js_set row (KStr "_idx") (VNum (Z.of_nat idx))) l i0 s in
  ∃ q, queued (trace s') = queued (trace s) ++ q ∧
    (∀ e, e ∈ q → ∃ m w t, l !! m = Some w ∧ row_struct s w t ∧
       obj_get t (KStr "_idx") s ≠ VNum (Z.of_nat (i0 + m)) ∧
       e = (VNum (Z.of_nat (i0 + m)), Op (VRef t) Save)) ∧
    (∀ m w t, l !! m = Some w → row_struct s w t →
       obj_get t (KStr "_idx") s ≠ VNum (Z.of_nat (i0 + m)) →
       (VNum (Z.of_nat (i0 + m)), Op (VRef t) Save) ∈ q ∧
       assoc_get (VNum (Z.of_nat (i0 + m))) (operationQueue s') = Some (Op (VRef t) Save)) ∧
    (∀ key, (∀ m, (m < length l)%nat → key ≠ VNum (Z.of_nat (i0 + m))) →
       assoc_get key (operationQueue s') = assoc_get key (operationQueue s)).
Proof.
  revert ts i0 s. induction l as [|w l IH]; intros ts i0 s Hl Hnd s'.
  - exists []. subst s'. simpl. rewrite app_nil_r. split; [done|].
    split; [by intros e He%elem_of_nil|]. split; [by intros m w t Hm|done].
  - apply Forall2_cons_inv_l in Hl as (t & ts' & Hw & Hl & ->).
    apply NoDup_cons in Hnd as [Hnin Hnd]. subst s'. cbn [foreach_from].
    pose proof Hw as (p & ps & -> & Hp & Ht & Hm).
    destruct (set_idx_step p t ps (Z.of_nat i0) s Hp Ht) as (_ & Hto & Htr).
    destruct (set_idx_effect p t ps (Z.of_nat i0) s Hp Ht) as [Hsame Hdiff].
    set (s1 := js_set (VRef p) (KStr "_idx") (VNum (Z.of_nat i0)) s) in *.
    assert (Hl1 : Forall2 (row_struct s1) l ts').
    { eapply Forall2_impl; [exact Hl|]. intros w' t' Hs.
      eapply row_struct_evolves; [apply tracked_evolves, Htr|done]. }
    assert (Hsame_idx : ∀ m w' t', l !! m = Some w' → row_struct s w' t' →
              obj_get t' (KStr "_idx") s1 = obj_get t' (KStr "_idx") s).
    { intros m w' t' Hm' Hs'. apply (obj_get_touches [t] s s1); [done| |].
      - intros Hin. apply list_elem_of_singleton in Hin as ->.
        destruct (Forall2_lookup_l _ _ _ _ _ Hl Hm') as (t'' & Ht'' & Hs'').
        rewrite (row_struct_inj _ _ _ _ Hs' Hs'') in Hnin.
        apply Hnin. by eapply list_elem_of_lookup_2.
      - destruct Hs' as (? & ? & _ & _ & -> & _). by eexists. }
    assert (Hback : ∀ m w' t', l !! m = Some w' → row_struct s1 w' t' → row_struct s w' t').
    { intros m w' t' Hm' Hs1.
      destruct (Forall2_lookup_l _ _ _ _ _ Hl Hm') as (t'' & Ht'' & Hs'').
      assert (Hs1'' : row_struct s1 w' t'').
      { eapply row_struct_evolves; [apply tracked_evolves, Htr|done]. }
      by rewrite (row_struct_inj _ _ _ _ Hs1 Hs1''). }
    destruct (IH ts' (S i0) s1 Hl1 Hnd) as (q' & Hq' & Honly & Hall & Hkeys).
    set (s2 := foreach_from _ l (S i0) s1) in *.
    set (q0 := if decide (obj_get t (KStr "_idx") s = VNum (Z.of_nat i0)) then []
               else [(VNum (Z.of_nat i0), Op (VRef t) Save)]).
    assert (Hq1 : queued (trace s1) = queued (trace s) ++ q0).
    { subst q0. destruct (decide _) as [Hy|Hn].
      - rewrite app_nil_r. by apply Hsame.
      - by apply Hdiff. }
    exists (q0 ++ q'). split; [by rewrite Hq', Hq1, app_assoc|]. split; [|split].
    + intros e [He|He]%elem_of_app.
      * subst q0. destruct (decide _) as [Hy|Hn]; [by apply elem_of_nil in He|].
        apply list_elem_of_singleton in He as ->.
        exists 0%nat, (VRef p), t. rewrite Nat.add_0_r. done.
      * destruct (Honly e He) as (m & w' & t' & Hm' & Hs1 & Hne & ->).
        exists (S m), w', t'. split; [done|]. split; [by eapply Hback|].
        replace (i0 + S m)%nat with (S i0 + m)%nat by lia.
        split; [|done]. rewrite <- (Hsame_idx m w' t' Hm'); [done|by eapply Hback].
    + intros [|m] w' t' Hm' Hs' Hne; simpl in Hm'.
      * injection Hm' as <-. rewrite (row_struct_inj _ _ _ _ Hs' Hw) in *.
        rewrite Nat.add_0_r in *. destruct (Hdiff Hne) as [_ Hqs]. split.
        { apply elem_of_app. left. subst q0. rewrite decide_False by done.
          apply list_elem_of_here. }
        rewrite Hkeys.
        { rewrite Hqs. unfold assoc_set. by rewrite assoc_get_upd_eq. }
        intros m _ [= Heq]. lia.
      * replace (i0 + S m)%nat with (S i0 + m)%nat in * by lia.
        assert (Hs1 : row_struct s1 w' t').
        { eapply row_struct_evolves; [apply tracked_evolves, Htr|done]. }
        destruct (Hall m w' t' Hm' Hs1) as [Hin Hget].
        { by rewrite (Hsame_idx m w' t' Hm' Hs'). }
        split; [apply elem_of_app; by right|done].
    + intros key Hkey. rewrite Hkeys.
      * destruct (decide (obj_get t (KStr "_idx") s = VNum (Z.of_nat i0))) as [Hy|Hn].
        { by destruct (Hsame Hy) as [_ ->]. }
        destruct (Hdiff Hn) as [_ ->]. unfold assoc_set. apply assoc_get_upd_ne.
        intros <-. apply (Hkey 0%nat); [simpl; lia|]. by rewrite Nat.add_0_r.
      * intros m Hm'. replace (S i0 + m)%nat with (i0 + S m)%nat by lia.
        apply Hkey. simpl. lia.
Qed.

(** Every [_queueOperation(row, type)] ends with
    [operationQueue.set(row._idx, { row, type })]. *)
Lemma queueOperation_queued row type s :
  ∃ key q0, queued (trace (_queueOperation row type s)) =
            queued (trace s) ++ q0 ++ [(key, Op row type)].
Proof.
  unfold _queueOperation, queueOperation_with.
  pose proof (tracked_js_get true row "_idx" s) as H1.
  destruct (js_get row (KStr "_idx") s) as [i s1]. simpl in H1.
  set (s2 := if decide (i = VUndef) then _ else s1).
  assert (H2 : ∃ t, trace s2 = trace s1 ++ t).
  { subst s2. destruct (decide _); [|exists []; by rewrite app_nil_r].
    destruct (tr_trace _ _ _ (tracked_js_set false row "_idx"
      (VNum (Z.of_nat (length (rows s1)))) s1 ltac:(discriminate))) as (t & Ht & _).
    by exists t. }
  pose proof (tracked_js_get true row "_idx" s2) as H3.
  destruct (js_get row (KStr "_idx") s2) as [key s3]. simpl in H3.
  destruct (tr_trace _ _ _ H1) as (t1 & Ht1 & _), H2 as (t2 & Ht2),
    (tr_trace _ _ _ H3) as (t3 & Ht3 & _).
  exists key, (queued t1 ++ queued t2 ++ queued t3).
  rewrite queued_enqueue, Ht3, Ht2, Ht1, !queued_app, <- !app_assoc. done.
Qed.

Lemma foreach_queueOperation_queued type l s :
  ∃ q, queued (trace (foreach (λ r, _queueOperation r type) l s)) = queued (trace s) ++ q ∧
       ∀ r, r ∈ l → ∃ key, (key, Op r type) ∈ q.
Proof.
  unfold foreach. generalize 0%nat as i. revert s.
  induction l as [|r l IH]; intros s i.
  - exists []. rewrite app_nil_r. split; [done|]. by intros r Hr%elem_of_nil.
  - cbn [foreach_from].
    destruct (queueOperation_queued r type s) as (key & q0 & Hq0).
    destruct (IH (_queueOperation r type s) (S i)) as (q & Hq & Hall).
    exists ((q0 ++ [(key, Op r type)]) ++ q). split.
    + by rewrite Hq, Hq0, <- !app_assoc.
    + intros r' [->|Hr']%elem_of_cons.
      * exists key. apply elem_of_app. left. apply elem_of_app. right. apply list_elem_of_here.
      * destruct (Hall r' Hr') as [key' Hk']. exists key'. apply elem_of_app. by right.
Qed.

Lemma tracked_queued b s s' : tracked b s s' → ∃ q, queued (trace s') = queued (trace s) ++ q.
Proof.
  intros Htr. destruct (tr_trace _ _ _ Htr) as (t & Ht & _).
  exists (queued t). by rewrite Ht, queued_app.
Qed.

(** What [splice] queues: a delete for every removed row and a save for
    every item. *)
Lemma splice_queues start deleteCount items s :
  ∃ q, queued (trace (splice start deleteCount items s).2) = queued (trace s) ++ q ∧
       (∀ r, r ∈ (splice start deleteCount items s).1 → ∃ key, (key, Op r Delete) ∈ q) ∧
       (∀ i, i ∈ items → ∃ key, (key, Op i Save) ∈ q).
Proof.
  unfold splice.
  pose proof (tracked_mapi_st false
    (λ i idx s, _wrapRow i (js_set i (KStr "_idx") (VNum (start + Z.of_nat idx)) s))
    items 0%nat s) as H1.
  destruct (mapi_st _ _ _ _) as [wrapped s1].
  destruct (array_splice _ _ _ _) as [removed kept]. cbn [fst snd].
  destruct (tracked_queued false s s1) as [qA HqA].
  { apply H1. intros x i s0.
    eapply tracked_trans; [by apply tracked_js_set|apply tracked_wrapRow]. }
  set (s2 := with_rows kept s1).
  destruct (foreach_queueOperation_queued Delete removed s2) as (qD & HqD & HD).
  set (s3 := foreach _ removed s2) in *.
  destruct (foreach_queueOperation_queued Save items s3) as (qS & HqS & HS).
  set (s4 := foreach _ items s3) in *.
  destruct (tracked_queued false s4
    (foreach_from (λ row idx, js_set row (KStr "_idx") (VNum (Z.of_nat idx))) (rows s4) 0%nat s4))
    as [qR HqR].
  { apply tracked_foreach_from. intros. by apply tracked_js_set. }
  exists (qA ++ qD ++ qS ++ qR). split; [|split].
  - rewrite HqR, HqS, HqD. simpl. by rewrite HqA, <- !app_assoc.
  - intros r Hr. destruct (HD r Hr) as [key Hk]. exists key.
    apply elem_of_app. right. apply elem_of_app. by left.
  - intros i Hi. destruct (HS i Hi) as [key Hk]. exists key.
    apply elem_of_app. right. apply elem_of_app. right. apply elem_of_app. by left.
Qed.

Lemma kept_lookup_lt {A} (l : list A) p k j :
  (j < p)%nat → (p ≤ length l)%nat → (take p l ++ drop (p + k) l) !! j = l !! j.
Proof.
  intros Hj Hp. rewrite lookup_app_l by (rewrite length_take; lia).
  by rewrite lookup_take_lt.
Qed.

Lemma kept_lookup_ge {A} (l : list A) p k m :
  (p ≤ m)%nat → (p ≤ length l)%nat → (take p l ++ drop (p + k) l) !! m = l !! (m + k)%nat.
Proof.
  intros Hm Hp. rewrite lookup_app_r by (rewrite length_take; lia).
  rewrite length_take, lookup_drop. f_equal. lia.
Qed.

Lemma splice_start_in len p : (p ≤ len)%nat → splice_start len (Z.of_nat p) = p.
Proof.
  intros Hp. unfold splice_start. destruct (Z.ltb_spec (Z.of_nat p) 0); [lia|].
  rewrite Z.min_l by lia. apply Nat2Z.id.
Qed.

Lemma splice_count_in len p k :
  (p + k ≤ len)%nat → splice_count len (Z.of_nat p) (Z.of_nat k) = k.
Proof.
  intros Hp. unfold splice_count. rewrite splice_start_in by lia.
  rewrite Z.max_l by lia. rewrite Z.min_l by lia. apply Nat2Z.id.
Qed.

Lemma row_struct_heap_eq s s' w t : heap s' = heap s → row_struct s w t → row_struct s' w t.
Proof. intros Hh (p & ps & -> & Hp & Ht & Hm). exists p, ps. by rewrite Hh. Qed.

(** Removing [k ≥ 1] rows at position [p] of a mirror whose identities are
    positions. *)
Lemma splice_remove p k s :
  mirror_inv s → (1 ≤ k)%nat → (p + k ≤ length (rows s))%nat →
  let removed := (splice (Z.of_nat p) (Z.of_nat k) [] s).1 in
  let s' := (splice (Z.of_nat p) (Z.of_nat k) [] s).2 in
  removed = take k (drop p (rows s)) ∧
  rows s' = take p (rows s) ++ drop (p + k) (rows s) ∧
  ∃ q, queued (trace s') = queued (trace s) ++ q ∧
    (∀ j w, (p + k ≤ j)%nat → rows s !! j = Some w →
       rows s' !! (j - k)%nat = Some w ∧
       (VNum (Z.of_nat (j - k)), Op (VRef (target_of s w)) Save) ∈ q ∧
       assoc_get (VNum (Z.of_nat (j - k))) (operationQueue s') =
         Some (Op (VRef (target_of s w)) Save)) ∧
    (∀ j w, (j < p)%nat → rows s !! j = Some w →
       rows s' !! j = Some w ∧
       ∀ e, e ∈ q → op_row e.2 ≠ w ∧ op_row e.2 ≠ VRef (target_of s w)).
Proof.
  intros Hinv Hk Hlen removed s'. subst removed s'. unfold splice. cbn [mapi_st].
  unfold array_splice. rewrite splice_start_in, splice_count_in by lia. cbn [app fst snd].
  destruct (mirror_inv_targets s Hinv) as [Hold Hndold].
  set (ts_old := target_of s <$> rows s) in *.
  set (removed := take k (drop p (rows s))).
  set (kept := take p (rows s) ++ drop (p + k) (rows s)).
  set (s2 := with_rows kept s).
  destruct (delete_phase removed p s2) as (Hh3 & Hr3 & Hq3 & Hk3).
  { intros m w Hw. subst removed. apply lookup_take_Some in Hw as [Hw _].
    rewrite lookup_drop in Hw. apply (row_at_heap_eq s); [done|]. by apply Hinv. }
  change (foreach (λ r, _queueOperation r Delete) removed s2)
    with (foreach_from (λ r _, _queueOperation r Delete) removed 0%nat s2).
  set (s3 := foreach_from _ removed 0%nat s2) in *.
  change (foreach (λ i, _queueOperation i Save) [] s3) with s3.
  assert (Hrows3 : rows s3 = kept) by (by rewrite Hr3).
  rewrite Hrows3.
  set (ts := take p ts_old ++ drop (p + k) ts_old).
  assert (Hkept : Forall2 (row_struct s3) kept ts).
  { subst kept ts. apply Forall2_app; [apply Forall2_take|apply Forall2_drop];
      (eapply Forall2_impl; [exact Hold|]); intros w t Hs;
      apply (row_struct_heap_eq s); try done; by rewrite Hh3. }
  assert (Hndts : NoDup ts).
  { eapply sublist_NoDup; [exact Hndold|apply take_drop_sublist]. }
  destruct (reindex_rows kept ts 0%nat s3 Hkept Hndts) as (_ & _ & Htr5).
  destruct (reindex_effects kept ts 0%nat s3 Hkept Hndts) as (qR & HqR & Honly & Hall & _).
  set (s5 := foreach_from _ kept 0%nat s3) in *.
  split; [done|]. split; [by rewrite (tr_rows _ _ _ Htr5)|].
  assert (Hs3 : ∀ j w, rows s !! j = Some w →
            row_struct s3 w (target_of s w) ∧
            obj_get (target_of s w) (KStr "_idx") s3 = VNum (Z.of_nat j)).
  { intros j w Hj. destruct (Hinv j w Hj) as (t & Hs & Hi).
    rewrite (row_struct_target _ _ _ Hs). split.
    - apply (row_struct_heap_eq s); [by rewrite Hh3|done].
    - rewrite (obj_get_heap_eq _ _ s s3); [done|by rewrite Hh3]. }
  exists (imap (λ m r, (VNum (Z.of_nat (p + m)), Op r Delete)) removed ++ qR).
  split; [by rewrite HqR, Hq3, app_assoc|]. split.
  - intros j w Hj Hw.
    assert (Hkj : kept !! (j - k)%nat = Some w).
    { subst kept. rewrite kept_lookup_ge by lia. rewrite <- Hw. f_equal. lia. }
    destruct (Hs3 j w Hw) as [Hs Hi].
    destruct (Hall (j - k)%nat w (target_of s w) Hkj Hs) as [Hin Hget].
    { rewrite Hi. intros [= Heq]. lia. }
    simpl in Hin, Hget. split; [by rewrite (tr_rows _ _ _ Htr5), Hrows3|].
    split; [apply elem_of_app; by right|done].
  - intros j w Hj Hw. split.
    { rewrite (tr_rows _ _ _ Htr5), Hrows3. subst kept. rewrite kept_lookup_lt by lia. done. }
    destruct (Hs3 j w Hw) as [Hs Hi].
    intros e [He|He]%elem_of_app.
    + apply elem_of_lookup_imap in He as (m & r & -> & Hr). simpl.
      subst removed. apply lookup_take_Some in Hr as [Hr _]. rewrite lookup_drop in Hr.
      destruct (Hs3 _ r Hr) as [Hsr Hir]. split.
      * intros ->. rewrite Hi in Hir. injection Hir. lia.
      * intros ->. destruct Hsr as (pr & psr & [= <-] & Hpr & _).
        destruct Hs as (pw & psw & _ & _ & Htw & _). congruence.
    + destruct (Honly e He) as (m & w' & t' & Hm' & Hs' & Hne & ->). simpl. split.
      * intros <-. destruct Hs as (pw & psw & [= <-] & Hpw & _).
        destruct Hs' as (? & ps' & _ & _ & Ht' & _). congruence.
      * intros [= ->]. simpl in Hne.
        destruct (decide (m < p)%nat) as [Hlt|Hge].
        -- subst kept. rewrite kept_lookup_lt in Hm' by lia.
           destruct (Hs3 m w' Hm') as [Hsw' Hiw'].
           rewrite (row_struct_inj _ _ _ _ Hs' Hsw') in Hne. by rewrite Hiw' in Hne.
        -- subst kept. rewrite kept_lookup_ge in Hm' by lia.
           destruct (Hs3 _ w' Hm') as [Hsw' Hiw'].
           rewrite <- (row_struct_inj _ _ _ _ Hs' Hsw') in Hiw'.
           rewrite Hi in Hiw'. injection Hiw'. lia.
Qed.

(** X21. For a mirror whose rows are tracked rows (Proxies of distinct
    objects) and items that are new objects: after
    [splice(start, deleteCount, ...items)] the identity of every row is its
    position; the call queues a delete for every removed row and a save for
    every item; and when [k ≥ 1] rows are removed at position [p] of a mirror
    whose identities were positions, every row that was at a position
    [j ≥ p + k] is now at [j - k] with identity [j - k] and was queued for a
    save under it (the entry is in the queue when the call returns), while
    no operation was queued for a row that was before [p]. *)
Theorem splice_reindexes (start deleteCount : Z) (items : list value)
    (s : state) (ts : list addr) :
  Forall2 (row_struct s) (rows s) ts → NoDup ts →
  Forall (unmarked_row s) items → NoDup items →
  let removed := (splice start deleteCount items s).1 in
  let s' := (splice start deleteCount items s).2 in
  identity_is_position s' ∧
  (∃ q, queued (trace s') = queued (trace s) ++ q ∧
        (∀ r, r ∈ removed → ∃ key, (key, Op r Delete) ∈ q) ∧
        (∀ i, i ∈ items → ∃ key, (key, Op i Save) ∈ q)) ∧
  (∀ p k, mirror_inv s → items = [] →
     start = Z.of_nat p → deleteCount = Z.of_nat k →
     (1 ≤ k)%nat → (p + k ≤ length (rows s))%nat →
     removed = take k (drop p (rows s)) ∧
     rows s' = take p (rows s) ++ drop (p + k) (rows s) ∧
     ∃ q, queued (trace s') = queued (trace s) ++ q ∧
       (∀ j w, (p + k ≤ j)%nat → rows s !! j = Some w →
          (js_get w (KStr "_idx") s).1 = VNum (Z.of_nat j) ∧
          rows s' !! (j - k)%nat = Some w ∧
          (js_get w (KStr "_idx") s').1 = VNum (Z.of_nat j - Z.of_nat k) ∧
          (VNum (Z.of_nat j - Z.of_nat k), Op (VRef (target_of s w)) Save) ∈ q ∧
          assoc_get (VNum (Z.of_nat j - Z.of_nat k)) (operationQueue s') =
            Some (Op (VRef (target_of s w)) Save)) ∧
       (∀ j w, (j < p)%nat → rows s !! j = Some w →
          rows s' !! j = Some w ∧
          ∀ e, e ∈ q → op_row e.2 ≠ w ∧ op_row e.2 ≠ VRef (target_of s w))).
Proof.
  intros Hrows Hnd Hit Hndi removed s'.
  assert (Hpos : identity_is_position s').
  { apply mirror_inv_identity. by eapply splice_identities. }
  split; [done|]. split; [apply splice_queues|].
  intros p k Hinv -> -> -> Hk Hlen.
  destruct (splice_remove p k s Hinv Hk Hlen) as (Hrem & Hkept & q & Hq & Hshift & Hbefore).
  split; [done|]. split; [done|]. exists q. split; [done|]. split; [|done].
  intros j w Hj Hw. destruct (Hshift j w Hj Hw) as (Hrow & Hin & Hget).
  rewrite <- Nat2Z.inj_sub by lia.
  split; [by apply (mirror_inv_identity s Hinv)|]. split; [done|].
  split; [by apply Hpos|]. done.
Qed.

Lemma splice_reindexes_witness :
  let s := Scenario.settled in
  Forall2 (row_struct s) (rows s) [0%nat; 1%nat] ∧ NoDup [0%nat; 1%nat] ∧
  Forall (unmarked_row s) [] ∧ NoDup ([] : list value) ∧
  identity_is_position (splice 0 1 [] s).2.
Proof.
  intros s.
  assert (H0 : row_struct s (VRef 2) 0%nat).
  { exists 2%nat, [(KStr "_idx", Slot (VNum 0) true true);
                   (KStr "name", Slot (VStr "a") true true);
                   (KInternal, Slot (VBool true) true true);
                   (KStr "_internal", Slot (VRef 3) false false)].
    split; [reflexivity|]. split; [vm_compute; reflexivity|].
    split; vm_compute; reflexivity. }
  assert (H1 : row_struct s (VRef 4) 1%nat).
  { exists 4%nat, [(KStr "_idx", Slot (VNum 1) true true);
                   (KStr "name", Slot (VStr "b") true true);
                   (KInternal, Slot (VBool true) true true);
                   (KStr "_internal", Slot (VRef 5) false false)].
    split; [reflexivity|]. split; [vm_compute; reflexivity|].
    split; vm_compute; reflexivity. }
  assert (Hrows : Forall2 (row_struct s) (rows s) [0%nat; 1%nat]).
  { change (rows s) with [VRef 2; VRef 4]. repeat constructor; assumption. }
  assert (Hnd : NoDup [0%nat; 1%nat]).
  { apply NoDup_cons. split; [|apply NoDup_singleton].
    intros Hin. apply list_elem_of_singleton in Hin. discriminate. }
  assert (Hit : Forall (unmarked_row s) []) by apply List.Forall_nil.
  assert (Hndi : NoDup ([] : list value)) by apply NoDup_nil_2.
  split; [exact Hrows|]. split; [exact Hnd|]. split; [exact Hit|]. split; [exact Hndi|].
  exact (proj1 (splice_reindexes 0 1 [] s [0%nat; 1%nat] Hrows Hnd Hit Hndi)).
Defined.

(** C7. When [splice] returns, a delete is not in the queue for every row
    it removed.  [_queueOperation(r, "delete")] queues the delete of a
    removed row under the identity the row had, and the reindexing that
    follows gives that identity to a row that stays: its save is set under
    the same key of the Map and replaces the delete.
    - Two rows, [splice(0, 1)]: the delete of row 0 was queued under 0; on
      return the queue holds the save of the former row 1 under 0 and no
      delete.
    - Four rows [a, b, c, d], [splice(1, 2)]: the deletes of [b] and [c]
      were queued under 1 and 2; [d] moves to position 1 and its save
      replaces the delete of [b].  The flush upserts [d] as 1 and deletes
      identity 2 only. *)
Theorem splice_overwrites_its_delete :
  let s := Scenario.settled in
  let s' := (splice 0 1 [] s).2 in
  let t := Scenario.settled_abcd in
  let t' := (splice 1 2 [] t).2 in
  (rows s = [VRef 2; VRef 4] ∧ operationQueue s = [] ∧
   (splice 0 1 [] s).1 = [VRef 2] ∧ rows s' = [VRef 4] ∧
   queued (trace s') = queued (trace s) ++
     [(VNum 0, Op (VRef 2) Delete); (VNum 0, Op (VRef 1) Save)] ∧
   operationQueue s' = [(VNum 0, Op (VRef 1) Save)]) ∧
  (rows t = [VRef 4; VRef 6; VRef 8; VRef 10] ∧ operationQueue t = [] ∧
   (splice 1 2 [] t).1 = [VRef 6; VRef 8] ∧ rows t' = [VRef 4; VRef 10] ∧
   queued (trace t') = queued (trace t) ++
     [(VNum 1, Op (VRef 6) Delete); (VNum 2, Op (VRef 8) Delete);
      (VNum 1, Op (VRef 3) Save)] ∧
   operationQueue t' = [(VNum 1, Op (VRef 3) Save); (VNum 2, Op (VRef 8) Delete)] ∧
   issued (trace (run [AAdvance 500; AFire 1; ASettle 0 true] t')) =
     issued (trace t) ++ [Upsert [Scenario.rec_ 1 "d"]; DeleteIn [VNum 2]]) ∧
  ¬ (∀ r, r ∈ (splice 0 1 [] s).1 →
          ∃ key, (key, Op r Delete) ∈ operationQueue s') ∧
  ¬ (∀ r, r ∈ (splice 1 2 [] t).1 →
          ∃ key, (key, Op r Delete) ∈ operationQueue t').
Proof.
  split; [vm_compute; repeat split|]. split; [vm_compute; repeat split|]. split.
  - intros H. destruct (H (VRef 2)) as [key Hin]; [vm_compute; apply list_elem_of_here|].
    vm_compute in Hin. apply list_elem_of_singleton in Hin. discriminate.
  - intros H. destruct (H (VRef 6)) as [key Hin]; [vm_compute; apply list_elem_of_here|].
    vm_compute in Hin. apply elem_of_cons in Hin as [Hin|Hin]; [discriminate|].
    apply list_elem_of_singleton in Hin. discriminate.
Qed.

(** ** A flush and what arrives while it is in flight *)

Lemma quiet_trans s1 s2 s3 : quiet s1 s2 → quiet s2 s3 → quiet s1 s3.
Proof. intros [? ?] [? ?]. split; congruence. Qed.

Lemma tracked_quiet b s s' : tracked b s s' → quiet s s'.
Proof.
  intros Htr. split; [apply Htr|]. destruct (tr_trace _ _ _ Htr) as (t & -> & Hi & _).
  by rewrite issued_app, Hi, app_nil_r.
Qed.

Lemma caller_quiet a s : is_caller a = true → quiet s (exec a s).
Proof.
  destruct a as [fields|v k|v k x|v k|row|start dc items|d|id|n ok]; try done; intros _; simpl.
  - eapply tracked_quiet, (tracked_alloc_json false).
  - eapply tracked_quiet, (tracked_js_get false).
  - eapply tracked_quiet, (tracked_js_set false). discriminate.
  - eapply tracked_quiet, (tracked_js_delete false). discriminate.
  - unfold push.
    pose proof (tracked_js_set false row "_idx" (VNum (Z.of_nat (length (rows s)))) s
                  ltac:(discriminate)) as H1.
    pose proof (tracked_wrapRow false row
                  (js_set row (KStr "_idx") (VNum (Z.of_nat (length (rows s)))) s)) as H2.
    destruct (_wrapRow _ _) as [proxied s2]. simpl in *.
    eapply quiet_trans; [eapply tracked_quiet, H1|].
    eapply quiet_trans; [eapply tracked_quiet, H2|].
    eapply quiet_trans; [|eapply tracked_quiet, (tracked_queueOperation false)]. done.
  - unfold splice.
    pose proof (tracked_mapi_st false
      (λ i idx s, _wrapRow i (js_set i (KStr "_idx") (VNum (start + Z.of_nat idx)) s))
      items 0%nat s) as H1.
    destruct (mapi_st _ _ _ _) as [wrapped s1].
    destruct (array_splice _ _ _ _) as [removed kept]. simpl.
    eapply quiet_trans;
      [|eapply tracked_quiet, (tracked_foreach_from false); intros; by apply tracked_js_set].
    eapply quiet_trans;
      [|eapply tracked_quiet, (tracked_foreach false); intros; apply tracked_queueOperation].
    eapply quiet_trans;
      [|eapply tracked_quiet, (tracked_foreach false); intros; apply tracked_queueOperation].
    eapply quiet_trans; [eapply tracked_quiet, H1|done].
    intros x i s0. eapply tracked_trans; [by apply tracked_js_set|apply tracked_wrapRow].
Qed.

Lemma keys_enqueues s s' key :
  enqueues s s' → key ∈ (operationQueue s).*1 → key ∈ (operationQueue s').*1.
Proof.
  intros Henq.
  apply (enqueues_ind_ctl (λ c, key ∈ (c.1.1.1.1).*1) s s'); [|done].
  intros key' o s0 Hin. simpl in *. rewrite queue_enqueue. unfold assoc_set.
  destruct (assoc_get key' (operationQueue s0)) as [o'|] eqn:Hg.
  - rewrite assoc_upd_keys_in; [done|by eexists].
  - rewrite assoc_upd_keys_notin by done. apply elem_of_app. by left.
Qed.

Lemma js_get_scalar_view v k s :
  scalar_view s v → k ≠ "_internal"%string →
  ∃ x, js_get v (KStr k) s = (x, s) ∧ is_object x = false.
Proof.
  intros (a & ps & -> & Hc & Hsc) Hk. unfold js_get.
  destruct Hc as [Ha|(t & cb & Ha & Ht)]; rewrite Ha.
  - exists (props_get (KStr k) ps). split; [done|by apply Hsc].
  - unfold get_trap. rewrite (obj_get_lookup _ _ _ _ Ht), (Hsc k Hk).
    exists (props_get (KStr k) ps). split; [done|by apply Hsc].
Qed.

Lemma rowToSave_fields_scalar_view row keys acc s :
  scalar_view s row → ∃ r, rowToSave_fields row keys acc s = (Some r, s).
Proof.
  intros Hv. revert acc. induction keys as [|key keys IH]; intros acc; [by eexists|].
  simpl. destruct (decide (key = "_internal"%string)) as [|Hk]; [apply IH|].
  destruct (js_get_scalar_view row key s Hv Hk) as (x & -> & ->). apply IH.
Qed.

Lemma insertRows_scalar_view saves s :
  Forall (λ o, scalar_view s (op_row o)) saves → ∃ rs, insertRows saves s = (Some rs, s).
Proof.
  induction 1 as [|o saves Ho _ [rs IH]]; [by eexists|].
  simpl. unfold rowToSave.
  destruct (js_get_scalar_view (op_row o) "_idx" s Ho) as (i & -> & _); [done|].
  destruct (rowToSave_fields_scalar_view (op_row o) (js_keys (op_row o) s)
              [("_idx"%string, CVal i)] s Ho) as [r ->].
  rewrite IH. by eexists.
Qed.

Lemma flush_deletes_scalar_view deletes s :
  Forall (λ o, scalar_view s (op_row o)) deletes →
  ctl_of (flush_deletes deletes s) = ctl_of s.
Proof.
  intros Hd. unfold flush_deletes. destruct deletes as [|o deletes]; [done|].
  assert (Hm : ∃ ids, map_st (λ o, js_get (op_row o) (KStr "_idx")) (o :: deletes) s = (ids, s)).
  { induction Hd as [|o' l Ho _ [ids IH]]; [by eexists|].
    simpl. destruct (js_get_scalar_view (op_row o') "_idx" s Ho) as (i & -> & _); [done|].
    rewrite IH. by eexists. }
  destruct Hm as [ids ->]. done.
Qed.

(** A flush of rows with scalar fields leaves the scheduler as
    [flush_begin] left it. *)
Lemma flush_body_scalar_view operations s :
  Forall (λ o, scalar_view s (op_row o)) operations →
  ctl_of (flush_body operations s) = ctl_of s.
Proof.
  intros Hops. unfold flush_body.
  assert (Hs : Forall (λ o, scalar_view s (op_row o))
                 (filter (λ o, is_save o = true) operations)).
  { apply Forall_forall. intros o Ho%list_elem_of_filter. rewrite Forall_forall in Hops.
    apply Hops, Ho. }
  assert (Hd : Forall (λ o, scalar_view s (op_row o))
                 (filter (λ o, is_delete o = true) operations)).
  { apply Forall_forall. intros o Ho%list_elem_of_filter. rewrite Forall_forall in Hops.
    apply Hops, Ho. }
  destruct (filter (λ o, is_save o = true) operations) as [|o saves] eqn:Hsv.
  - by apply flush_deletes_scalar_view.
  - destruct (insertRows_scalar_view _ s Hs) as [rs ->]. done.
Qed.

(** A write through the Proxy [p] of the row [r] that changes the field. *)
Lemma write_row_effective p r i k v s :
  heap s !! p = Some (Prx r (QueueSave r)) →
  obj_get r (KStr "_idx") s = VNum i →
  k ≠ "_idx"%string → obj_get r (KStr k) s ≠ v →
  js_set (VRef p) (KStr k) v s =
    enqueue (VNum i) (Op (VRef r) Save)
      (log (Changed (QueueSave r)) (obj_set r (KStr k) v s)).
Proof.
  intros Hp Hi Hk Hne.
  assert (Hr : ∃ ps, heap s !! r = Some (Obj ps)).
  { unfold obj_get in Hi. destruct (heap s !! r) as [[ps|]|]; try discriminate. by exists ps. }
  destruct Hr as [ps Hr].
  assert (Hwi : obj_get r (KStr "_idx") (obj_set r (KStr k) v s) = VNum i).
  { rewrite obj_get_obj_set_ne; [done|]. intros [= ?]. done. }
  rewrite <- (onChange_with_idx r i _ Hwi).
  unfold js_set. rewrite Hp. cbn [set_trap]. unfold set_trap.
  destruct (decide _) as [Heq|_]; [done|reflexivity].
Qed.

Lemma ctl_of_eq s s' :
  ctl_of s' = ctl_of s →
  operationQueue s' = operationQueue s ∧ queueTimer s' = queueTimer s ∧
  timers s' = timers s ∧ timer_ids s' = timer_ids s ∧ now s' = now s.
Proof. unfold ctl_of. intros [= -> -> -> -> ->]. done. Qed.

Lemma scalar_view_heap_eq s s' v : heap s' = heap s → scalar_view s v → scalar_view s' v.
Proof. unfold scalar_view. intros ->. done. Qed.

(** X20.  When a timeout that is due runs: the queue is copied, the
    Map is emptied and [queueTimer] is set to null before anything else
    happens, and in particular before a statement is handed to the gateway;
    the flush then works on the copy.  A call of the caller that arrives
    while the statement is awaited touches neither the awaited call nor the
    statements sent.  A write through a row's Proxy that changes a field is
    recorded in the live queue under the row's identity, with a timeout
    pending that is not the one that fired, and the flush in progress, when
    it resolves or rejects, removes neither.  When the rows of the copy hold
    only scalar fields, the queue is still empty when the statement is
    sent, so this write is the only entry and arms a timeout of 500 ms. *)
Theorem flush_clears_before_io (s : state) (id : nat) (due : Z) :
  sched_inv s → (id, due) ∈ timers s → due ≤ now s →
  let cleared := (flush_begin id s).2 in
  let s1 := fire id s in
  ((flush_begin id s).1 = map snd (operationQueue s) ∧
   operationQueue cleared = [] ∧ queueTimer cleared = None ∧ timers cleared = [] ∧
   heap cleared = heap s ∧ quiet s cleared ∧
   s1 = flush_body (map snd (operationQueue s)) cleared) ∧
  (∀ a, is_caller a = true → quiet s1 (exec a s1)) ∧
  (∀ p r i k v,
     heap s1 !! p = Some (Prx r (QueueSave r)) →
     obj_get r (KStr "_idx") s1 = VNum i → k ≠ "_idx"%string →
     obj_get r (KStr k) s1 ≠ v →
     let s2 := js_set (VRef p) (KStr k) v s1 in
     assoc_get (VNum i) (operationQueue s2) = Some (Op (VRef r) Save) ∧
     (∃ id' due', queueTimer s2 = Some id' ∧ timers s2 = [(id', due')] ∧ id' ≠ id ∧
        ∀ n ok, VNum i ∈ (operationQueue (settle n ok s2)).*1 ∧
                queueTimer (settle n ok s2) = Some id' ∧
                timers (settle n ok s2) = [(id', due')]) ∧
     (Forall (λ e, scalar_view s (op_row e.2)) (operationQueue s) →
      operationQueue s1 = [] ∧ queueTimer s1 = None ∧ timers s1 = [] ∧
      operationQueue s2 = [(VNum i, Op (VRef r) Save)] ∧
      queueTimer s2 = Some (timer_ids s1) ∧
      timers s2 = [(timer_ids s1, now s1 + 500)])).
Proof.
  intros Hinv Hin Hdue cleared s1.
  pose proof (si_timer _ Hinv) as Hok.
  destruct (timer_ok_single s id due Hok Hin) as [Hq Hts].
  assert (Hdel : timers cleared = []).
  { subst cleared. simpl. rewrite Hts. simpl. by rewrite decide_True. }
  assert (Hs1 : s1 = flush_body (map snd (operationQueue s)) cleared).
  { subst s1. unfold fire. rewrite Hts. simpl. rewrite decide_True by done.
    rewrite decide_True by done. reflexivity. }
  assert (Hokc : timer_ok cleared) by (unfold timer_ok; simpl; exact Hdel).
  assert (Hev : evolves true cleared s1).
  { rewrite Hs1. apply evolves_flush_body. }
  assert (Hok1 : timer_ok s1).
  { eapply timer_ok_enqueues; [apply Hev|done]. }
  split; [|split].
  - repeat split; try done.
    subst cleared. simpl. by rewrite issued_app, app_nil_r.
  - intros a Ha. by apply caller_quiet.
  - intros p r i k v Hp Hi Hk Hne s2.
    assert (Hs2 : s2 = enqueue (VNum i) (Op (VRef r) Save)
                         (log (Changed (QueueSave r)) (obj_set r (KStr k) v s1))).
    { by apply write_row_effective. }
    destruct (obj_set_with_heap r (KStr k) v s1) as (h & Hset & _).
    assert (Henq : enqueues s1 s2).
    { apply (tr_ctl false). apply tracked_js_set. discriminate. }
    assert (Hok2 : timer_ok s2) by (by eapply timer_ok_enqueues).
    assert (Hsome : is_Some (queueTimer s2)).
    { rewrite Hs2. apply is_Some_queueTimer_enqueue. }
    split; [|split].
    + rewrite Hs2, queue_enqueue. apply assoc_get_upd_eq.
    + destruct Hsome as [id' Hq2]. unfold timer_ok in Hok2. rewrite Hq2 in Hok2.
      destruct Hok2 as [due' Ht2]. exists id', due'. split; [done|]. split; [done|].
      split.
      * assert (Hinv2 : sched_inv s2).
        { eapply (sched_inv_evolves false);
            [apply tracked_evolves, tracked_js_set; discriminate|].
          subst s1. by apply sched_inv_fire. }
        assert (Hf : id ∈ fired (trace s2)).
        { destruct (ev_trace _ _ _ Hev) as (t1 & Ht1 & _).
          destruct (tr_trace _ _ _ (tracked_js_set false (VRef p) k v s1 ltac:(discriminate)))
            as (t2 & Htr2 & _).
          fold s2 in Htr2. rewrite Htr2, Ht1. subst cleared. simpl.
          rewrite !fired_app. simpl. rewrite !elem_of_app, list_elem_of_singleton. tauto. }
        destruct (si_done _ Hinv2 id Hf) as [_ Hnot]. intros ->. apply Hnot.
        rewrite Ht2. simpl. apply list_elem_of_singleton. done.
      * intros n ok. destruct (evolves_settle n ok s2) as [[Hctl _ _ _ _] _].
        destruct (pending_enqueues _ _ _ Hctl Hq2) as (Hq3 & Ht3 & _).
        split; [|split; congruence].
        eapply keys_enqueues; [done|]. rewrite Hs2, queue_enqueue.
        eapply assoc_get_Some_fst, assoc_get_upd_eq.
    + intros Hsc.
      assert (Hctl : ctl_of s1 = ctl_of cleared).
      { rewrite Hs1. apply flush_body_scalar_view. apply Forall_fmap.
        eapply Forall_impl; [exact Hsc|]. intros e He. simpl.
        eapply scalar_view_heap_eq; [|exact He]. done. }
      apply ctl_of_eq in Hctl as (Hq1 & Hqt1 & Ht1 & _).
      split; [by rewrite Hq1|]. split; [by rewrite Hqt1|]. split; [by rewrite Ht1, Hdel|].
      rewrite Hs2, Hset. unfold enqueue, arm. simpl. rewrite Hqt1. simpl.
      rewrite Hq1, Ht1, Hdel. done.
Qed.

(** C4. A mutation that arrives while a flush is in flight does not always
    find an empty queue and arm a fresh timer.  The mirror holds the row
    [{_idx: 0, data: {inner: {x: 1}}}] and the caller has read
    [rows[0].data] once.  When the timer fires, the queue is cleared, but
    [JSON.stringify] of the [data] Proxy then reads [inner] through the get
    trap, which wraps it, and the marker write of the new Proxy calls
    [onChange]: the row is queued again and a timeout armed before the
    upsert is sent.  With the upsert in flight the queue is not empty, and
    the write [rows[0].name = "z"] that arrives then notifies but arms
    nothing: it joins the cycle that the flush itself began. *)
Lemma serialising_requeues_before_io :
  let s := run [ARead (VRef 3) "data"; AAdvance 500] Scenario.nested in
  let s1 := fire 1 s in
  let s2 := js_set (VRef 3) (KStr "name") (VStr "z") s1 in
  timers s = [(1%nat, now s)] ∧
  inflight s = [] ∧ inflight s1 = [[]] ∧
  length (issued (trace s1)) = S (length (issued (trace s))) ∧
  operationQueue s1 = [(VNum 0, Op (VRef 2) Save)] ∧
  queueTimer s1 = Some 2%nat ∧ timers s1 = [(2%nat, now s1 + 500)] ∧
  operationQueue s2 = operationQueue s1 ∧
  queueTimer s2 = queueTimer s1 ∧ timers s2 = timers s1 ∧
  changes (trace s2) = changes (trace s1) ++ [QueueSave 2].
Proof. vm_compute. repeat split. Qed.

Lemma flush_clears_before_io_witness :
  let s := run [AAdvance 500] (init Scenario.table_ab empty_state) in
  sched_inv s ∧ (0%nat, 500) ∈ timers s ∧ 500 ≤ now s ∧
  operationQueue (flush_begin 0 s).2 = [] ∧
  queueTimer (flush_begin 0 s).2 = None ∧
  quiet s (flush_begin 0 s).2.
Proof.
  intros s.
  assert (Hinv : sched_inv s) by apply sched_inv_reach.
  assert (Hin : (0%nat, 500) ∈ timers s).
  { change (timers s) with [(0%nat, 500)]. apply list_elem_of_here. }
  assert (Hdue : 500 ≤ now s).
  { change (now s) with 500. lia. }
  split; [exact Hinv|]. split; [exact Hin|]. split; [exact Hdue|].
  destruct (flush_clears_before_io s 0%nat 500 Hinv Hin Hdue)
    as [(_ & Hq & Ht & _ & _ & Hquiet & _) _].
  split; [exact Hq|]. split; [exact Ht|exact Hquiet].
Defined.

(** ** The debounce window *)



(** * Further properties of the code *)

(** ** The queue and its timer *)

Lemma assoc_upd_not_nil {K V} `{EqDecision K} (k : K) (f : option V → V) l :
  assoc_upd k f l ≠ [].
Proof. destruct l as [|[k' v] l]; simpl; [done|]. by destruct (decide _). Qed.

Lemma queue_timer_agree_enqueues s s' :
  enqueues s s' → queue_timer_agree s → queue_timer_agree s'.
Proof.
  intros Henq.
  apply (enqueues_ind_ctl (λ c, c.1.1.1.2 = None ↔ c.1.1.1.1 = []) s s'); [|done].
  intros key o s0 _. simpl. rewrite queue_enqueue.
  destruct (is_Some_queueTimer_enqueue key o s0) as [id ->].
  split; [discriminate|]. intros H. by apply assoc_upd_not_nil in H.
Qed.

Lemma queue_timer_agree_exec a s : queue_timer_agree s → queue_timer_agree (exec a s).
Proof.
  intros Hinv. destruct (is_call a) eqn:Hc.
  - eapply queue_timer_agree_enqueues; [apply (evolves_exec a s Hc)|done].
  - destruct a; try done; simpl.
    + unfold advance. by destruct (decide _).
    + unfold fire. destruct (assoc_get _ _); [|done]. destruct (decide _); [|done].
      unfold flush.
      pose proof (evolves_flush_body (flush_begin id s).1 (flush_begin id s).2) as [Hev _].
      destruct (flush_begin id s) as [operations s1] eqn:Hfb. simpl in Hev.
      eapply queue_timer_agree_enqueues; [apply Hev|].
      injection Hfb as _ <-. done.
Qed.

Lemma queue_timer_agree_reach table acts :
  queue_timer_agree (run acts (init table empty_state)).
Proof.
  assert (H0 : queue_timer_agree (init table empty_state)).
  { eapply queue_timer_agree_enqueues; [apply (evolves_init table empty_state)|done]. }
  revert H0. generalize (init table empty_state).
  induction acts as [|a acts IH]; intros s Hinv; [done|].
  simpl. apply IH. by apply queue_timer_agree_exec.
Qed.

(** X1. In every state the mirror reaches, an operation is queued exactly
    when a timeout is armed: nothing waits in the queue without a timer that
    will flush it, and a timer callback never finds the queue empty. *)
Theorem queue_and_timer_go_together (table : list (list (string * json)))
    (acts : list action) :
  let s := run acts (init table empty_state) in
  (operationQueue s ≠ [] ↔ ∃ id due, queueTimer s = Some id ∧ timers s = [(id, due)]) ∧
  (operationQueue s = [] ↔ queueTimer s = None ∧ timers s = []) ∧
  (∀ id due, (id, due) ∈ timers s → (flush_begin id s).1 ≠ []).
Proof.
  intros s.
  pose proof (queue_timer_agree_reach table acts) as Hag. fold s in Hag.
  pose proof (si_timer _ (sched_inv_reach table acts)) as Hok. fold s in Hok.
  unfold queue_timer_agree in Hag. unfold timer_ok in Hok.
  split; [|split].
  - destruct (queueTimer s) as [id|].
    + destruct Hok as [due Hts]. split; [intros _; by exists id, due|].
      intros _ Hq. apply Hag in Hq. discriminate.
    + split; [intros Hq; by destruct Hq; apply Hag|]. by intros (id & due & ? & _).
  - destruct (queueTimer s) as [id|].
    + split; [intros Hq; apply Hag in Hq; discriminate|]. by intros [? _].
    + split; [done|]. intros _. by apply Hag.
  - intros id due Hin. simpl. intros Hnil.
    apply fmap_nil_inv in Hnil. apply Hag in Hnil.
    rewrite Hnil in Hok. rewrite Hok in Hin. by apply elem_of_nil in Hin.
Qed.

(** ** The statements of one flush *)


Lemma map_st_length {A B} (f : A → state → B * state) l s :
  length (map_st f l s).1 = length l.
Proof.
  revert s. induction l as [|x l IH]; intros s; simpl; [done|].
  destruct (f x s) as [y s1]. specialize (IH s1).
  destruct (map_st f l s1) as [ys s2]. simpl in *. by rewrite IH.
Qed.

(** Reading the identity of a row whose [_idx] is a scalar changes nothing. *)
Lemma js_get_scalar_pure v k s :
  is_object (js_get v k s).1 = false → (js_get v k s).2 = s.
Proof.
  unfold js_get. destruct v as [| | | | |a]; try done.
  destruct (heap s !! a) as [[ps|t cb]|]; try done.
  unfold get_trap. destruct (is_object (obj_get t k s)) eqn:Ho; [|done].
  unfold createDeepProxy. destruct (obj_get t k s) as [| | | | |c]; try done.
  destruct (has_marker (VRef c) s); simpl; [done|]. done.
Qed.

Lemma map_st_idx_pure deletes s :
  Forall (λ o, is_object (idx_of s (op_row o)) = false) deletes →
  map_st (λ o, js_get (op_row o) (KStr "_idx")) deletes s =
    (map (λ o, idx_of s (op_row o)) deletes, s).
Proof.
  induction 1 as [|o l Ho _ IH]; [done|]. simpl.
  pose proof (js_get_scalar_pure (op_row o) (KStr "_idx") s Ho) as Hs.
  unfold idx_of in *. destruct (js_get (op_row o) (KStr "_idx") s) as [i s1].
  simpl in *. subst s1. by rewrite IH.
Qed.

Lemma flush_deletes_one deletes s :
  deletes ≠ [] →
  ∃ ids, issued (trace (flush_deletes deletes s)) = issued (trace s) ++ [DeleteIn ids] ∧
    length ids = length deletes ∧
    inflight (flush_deletes deletes s) = inflight s ++ [[]] ∧
    (Forall (λ o, is_object (idx_of s (op_row o)) = false) deletes →
     ids = map (λ o, idx_of s (op_row o)) deletes).
Proof.
  intros Hne. unfold flush_deletes. destruct deletes as [|o deletes]; [done|].
  pose proof (tracked_map_st false (λ o, js_get (op_row o) (KStr "_idx")) (o :: deletes) s
                ltac:(intros; apply tracked_js_get)) as Htr.
  pose proof (map_st_length (λ o, js_get (op_row o) (KStr "_idx")) (o :: deletes) s) as Hlen.
  pose proof (map_st_idx_pure (o :: deletes) s) as Hpure.
  destruct (map_st _ (o :: deletes) s) as [ids s1]. simpl in Htr, Hlen.
  destruct (tracked_quiet _ _ _ Htr) as [Hin His].
  exists ids. unfold issue. simpl. rewrite issued_app, His, Hin. simpl.
  split; [done|]. split; [done|]. split; [done|].
  intros Hf. specialize (Hpure Hf). by injection Hpure as ->.
Qed.


Lemma idx_of_heap_eq s s' v : heap s' = heap s → idx_of s' v = idx_of s v.
Proof.
  intros Hh. unfold idx_of, js_get. destruct v as [| | | | |a]; try done.
  rewrite Hh. destruct (heap s !! a) as [[ps|t cb]|]; try done.
  unfold get_trap. rewrite (obj_get_heap_eq _ _ s s' Hh).
  destruct (is_object _); [|done].
  unfold createDeepProxy. destruct (obj_get t (KStr "_idx") s) as [| | | | |c]; try done.
  assert (Hm : has_marker (VRef c) s' = has_marker (VRef c) s).
  { unfold has_marker. rewrite Hh. destruct (heap s !! c) as [[?|??]|]; try done.
    by rewrite (obj_get_heap_eq _ _ s s' Hh). }
  rewrite Hm. destruct (has_marker (VRef c) s); [done|]. simpl. by rewrite Hh.
Qed.

(** X3. The deletes of a flush that had saves are sent when its upsert
    resolves, never before: one delete statement with one identity per
    delete, each read from the row at that moment.  An upsert that had no
    deletes behind it sends nothing more. *)
Theorem deletes_follow_the_upsert (s : state) (n : nat) (k : list op) :
  inflight s !! n = Some k →
  let s' := settle n true s in
  (k = [] → issued (trace s') = issued (trace s) ∧ inflight s' = delete n (inflight s)) ∧
  (k ≠ [] →
     ∃ ids, issued (trace s') = issued (trace s) ++ [DeleteIn ids] ∧
       length ids = length k ∧
       inflight s' = delete n (inflight s) ++ [[]] ∧
       (Forall (λ o, is_object (idx_of s (op_row o)) = false) k →
        ids = map (λ o, idx_of s (op_row o)) k)).
Proof.
  intros Hn s'. subst s'. unfold settle. rewrite Hn.
  set (s1 := log (Settled true) (with_inflight (delete n (inflight s)) s)).
  assert (Hi1 : issued (trace s1) = issued (trace s)).
  { subst s1. simpl. by rewrite issued_app, app_nil_r. }
  split.
  - intros ->. simpl. by rewrite issued_app, app_nil_r.
  - intros Hne. destruct (flush_deletes_one k s1 Hne) as (ids & Hi & Hl & Hf & Hids).
    exists ids. rewrite Hi, Hf, Hi1. split; [done|]. split; [done|]. split; [done|].
    intros Hsc. rewrite Hids.
    + apply map_ext. intros o. by apply idx_of_heap_eq.
    + eapply Forall_impl; [exact Hsc|]. intros o Ho. simpl.
      by rewrite (idx_of_heap_eq s s1).
Qed.

(** ** Wrapping once *)

Lemma props_set_same k v ps :
  props_get k ps = v → v ≠ VUndef → props_set k v ps = ps.
Proof.
  unfold props_get, props_set. induction ps as [|[k' sl] ps IH]; simpl.
  - intros <-. done.
  - destruct (decide (k = k')) as [->|Hne].
    + intros <- _. by destruct sl.
    + intros Hg Hv. by rewrite IH.
Qed.

(** Writing to a property the value it holds changes nothing. *)
Lemma obj_set_same a k v s :
  obj_get a k s = v → v ≠ VUndef → obj_set a k v s = s.
Proof.
  unfold obj_get, obj_set. destruct (heap s !! a) as [[ps|t cb]|] eqn:Ha; try done.
  intros Hg Hv. rewrite (props_set_same k v ps Hg Hv).
  rewrite list_insert_id by done. by destruct s.
Qed.

Lemma has_marker_obj_set_str a k v c s :
  has_marker (VRef c) (obj_set a (KStr k) v s) = has_marker (VRef c) s.
Proof.
  assert (Hm : ∀ x, obj_get x KInternal (obj_set a (KStr k) v s) = obj_get x KInternal s).
  { intros x. apply obj_get_obj_set_ne. intros [= _ ?]. }
  unfold has_marker. destruct (heap s !! a) as [[psa|ta cba]|] eqn:Ha.
  - destruct (decide (a = c)) as [->|Hne].
    + specialize (Hm c). unfold obj_get in Hm. rewrite Ha in Hm |- *.
      unfold obj_set in *. rewrite Ha in *. simpl in *.
      rewrite list_lookup_insert_eq in * by (by eapply lookup_lt_Some). by rewrite Hm.
    + assert (Hc : heap (obj_set a (KStr k) v s) !! c = heap s !! c).
      { by apply heap_obj_set_other. }
      rewrite Hc. destruct (heap s !! c) as [[?|??]|]; try done. by rewrite Hm.
  - assert (Hs : obj_set a (KStr k) v s = s) by (unfold obj_set; by rewrite Ha).
    by rewrite Hs.
  - assert (Hs : obj_set a (KStr k) v s = s) by (unfold obj_set; by rewrite Ha).
    by rewrite Hs.
Qed.

(** What wrapping leaves behind: a value that is wrapped no more. *)
Lemma createDeepProxy_marks target cb s :
  (∀ a, target = VRef a → has_marker target s = true ∨ ∃ ps, heap s !! a = Some (Obj ps)) →
  ∀ c, (createDeepProxy target cb s).1 = VRef c →
       has_marker (VRef c) (createDeepProxy target cb s).2 = true.
Proof.
  intros Hwf c. destruct target as [| | | | |a]; try done.
  destruct (has_marker (VRef a) s) eqn:Hm.
  - unfold createDeepProxy. rewrite Hm. simpl. by intros [= <-].
  - destruct (Hwf a eq_refl) as [?|[ps Ha]]; [congruence|].
    destruct cb as [r].
    destruct (createDeepProxy_fresh a r s Hm) as (key & s' & Heq & Hp & _ & _ & _ & _ & _ & Hmk).
    rewrite Heq. cbn [fst snd]. intros [= <-]. unfold has_marker, addr in *. rewrite Hp.
    by rewrite (Hmk ps Ha).
Qed.

(** X4. [createDeepProxy] wraps once: applied to what it returned, with any
    callback, it returns the same value and does nothing — no second Proxy,
    no notification.  (A reference is to a plain object or is already
    marked.) *)
Theorem createDeepProxy_wraps_once (target : value) (cb cb' : callback) (s : state) :
  (∀ a, target = VRef a → has_marker target s = true ∨ ∃ ps, heap s !! a = Some (Obj ps)) →
  let w := (createDeepProxy target cb s).1 in
  let s1 := (createDeepProxy target cb s).2 in
  createDeepProxy w cb' s1 = (w, s1) ∧
  (is_object target = false → w = target ∧ s1 = s) ∧
  (has_marker target s = true → w = target ∧ s1 = s) ∧
  (is_object target = true → has_marker target s = false →
     w = VRef (length (heap s)) ∧
     changes (trace s1) = changes (trace s) ++ [cb]).
Proof.
  intros Hwf w s1.
  pose proof (createDeepProxy_marks target cb s Hwf) as Hmk. fold w s1 in Hmk.
  split; [|split; [|split]].
  - destruct w as [| | | | |c] eqn:Hw; try done.
    unfold createDeepProxy at 1. by rewrite (Hmk c eq_refl).
  - subst w s1. by destruct target.
  - subst w s1. unfold createDeepProxy. destruct target; try done. by intros ->.
  - subst w s1. destruct target as [| | | | |a]; try done. intros _ Hm.
    destruct cb as [r].
    destruct (createDeepProxy_fresh a r s Hm) as (key & s' & Heq & _ & Hc & _).
    rewrite Heq. cbn [fst snd]. done.
Qed.

(** ** Reading through a tracked value *)

(** X5. A read [p[k]] through a tracked value is stable: reading the same
    field again gives the same value and changes nothing, whatever the first
    read did.  A scalar is handed back as it is, with no effect at all; a
    composite is handed back wrapped, and the field now holds that Proxy. *)
Theorem reread_is_stable (s : state) (p t : addr) (cb : callback) (k : string) :
  heap s !! p = Some (Prx t cb) →
  (∀ c, obj_get t (KStr k) s = VRef c →
        has_marker (VRef c) s = true ∨ ∃ psc, heap s !! c = Some (Obj psc)) →
  let x := (js_get (VRef p) (KStr k) s).1 in
  let s1 := (js_get (VRef p) (KStr k) s).2 in
  js_get (VRef p) (KStr k) s1 = (x, s1) ∧
  obj_get t (KStr k) s1 = x ∧
  (is_object (obj_get t (KStr k) s) = false → x = obj_get t (KStr k) s ∧ s1 = s) ∧
  (is_object x = true → has_marker x s1 = true).
Proof.
  intros Hp Hwf x s1.
  assert (Hjs : js_get (VRef p) (KStr k) s = get_trap t cb (KStr k) s).
  { unfold js_get. by rewrite Hp. }
  destruct (is_object (obj_get t (KStr k) s)) eqn:Hobj.
  - destruct (obj_get t (KStr k) s) as [| | | | |c] eqn:Hf; try done.
    assert (Ht : ∃ pst, heap s !! t = Some (Obj pst)).
    { unfold obj_get in Hf. destruct (heap s !! t) as [[pst|]|]; try done. by eexists. }
    destruct Ht as [pst Ht].
    pose proof (createDeepProxy_marks (VRef c) cb s) as Hmk.
    pose proof (tracked_createDeepProxy false (VRef c) cb s) as Htr.
    assert (Hw : ∃ n, (createDeepProxy (VRef c) cb s).1 = VRef n).
    { unfold createDeepProxy. destruct (has_marker (VRef c) s); simpl; by eexists. }
    destruct Hw as [n Hn].
    destruct (createDeepProxy (VRef c) cb s) as [w s'] eqn:Hcr. cbn [fst snd] in *. subst w.
    assert (Hx : x = VRef n ∧ s1 = obj_set t (KStr k) (VRef n) s').
    { subst x s1. rewrite Hjs. unfold get_trap. rewrite Hf. cbn [is_object].
      by rewrite Hcr. }
    destruct Hx as [-> ->].
    assert (Hmn : has_marker (VRef n) s' = true).
    { apply Hmk; [|done]. intros a [= <-]. by apply Hwf. }
    destruct (tr_obj _ _ _ Htr t pst Ht) as (pst' & Ht' & _).
    assert (Hp' : heap (obj_set t (KStr k) (VRef n) s') !! p = Some (Prx t cb)).
    { rewrite heap_obj_set_other; [by apply (tr_prx _ _ _ Htr)|]. intros ->. congruence. }
    assert (Hg : obj_get t (KStr k) (obj_set t (KStr k) (VRef n) s') = VRef n).
    { by eapply obj_get_set_eq. }
    assert (Hm2 : has_marker (VRef n) (obj_set t (KStr k) (VRef n) s') = true).
    { by rewrite has_marker_obj_set_str. }
    split; [|split; [done|split; [done|by intros _]]].
    unfold js_get. unfold addr in *. rewrite Hp'. unfold get_trap. rewrite Hg. cbn [is_object].
    unfold createDeepProxy. rewrite Hm2. f_equal.
    apply obj_set_same; done.
  - assert (Hx : x = obj_get t (KStr k) s ∧ s1 = s).
    { subst x s1. rewrite Hjs. unfold get_trap. by rewrite Hobj. }
    destruct Hx as [-> ->].
    split; [|split; [done|split; [done|by rewrite Hobj]]].
    rewrite Hjs. unfold get_trap. by rewrite Hobj.
Qed.

(** ** Deleting through a tracked value *)

Lemma assoc_get_del_eq {K V} `{EqDecision K} (k : K) (l : list (K * V)) :
  NoDup l.*1 → assoc_get k (assoc_del k l) = None.
Proof.
  induction l as [|[k' v] l IH]; csimpl; [done|].
  intros [Hnin Hnd]%NoDup_cons. destruct (decide (k = k')) as [->|Hne].
  - by apply assoc_get_None.
  - simpl. rewrite decide_False by done. by apply IH.
Qed.

Lemma assoc_get_del_ne {K V} `{EqDecision K} (k k' : K) (l : list (K * V)) :
  k ≠ k' → assoc_get k' (assoc_del k l) = assoc_get k' l.
Proof.
  intros Hne. induction l as [|[k0 v] l IH]; simpl; [done|].
  destruct (decide (k = k0)) as [->|Hk0].
  - destruct (decide (k' = k0)); [congruence|done].
  - simpl. by rewrite IH.
Qed.

Lemma props_keys_elem k ps :
  k ∈ props_keys ps → is_Some (assoc_get (KStr k) ps).
Proof.
  induction ps as [|[[k'|] sl] ps IH]; simpl.
  - by intros ?%elem_of_nil.
  - destruct (decide (KStr k = KStr k')); [by eexists|].
    destruct (senum sl); [|done]. intros [->|?]%elem_of_cons; [congruence|]. by apply IH.
  - done.
Qed.

Lemma obj_delete_with_heap a k s :
  ∃ h, obj_delete a k s = with_heap h s ∧ length h = length (heap s).
Proof.
  unfold obj_delete. destruct (heap s !! a) as [[ps|t cb]|].
  - eexists. split; [done|]. by rewrite length_insert.
  - exists (heap s). by destruct s.
  - exists (heap s). by destruct s.
Qed.

(** X6. [delete p[k]] through a tracked value notifies every time, whether
    or not the property was there; a property that can be deleted is gone
    afterwards.  When the property is the identity of the row itself,
    [_queueOperation] finds the row without [_idx] and gives it the length
    of [rows]: the save is queued under that key. *)
Theorem delete_through_tracked_value (s : state) (p t r : addr)
    (ps : list (pkey * slot)) (k : string) :
  heap s !! p = Some (Prx t (QueueSave r)) →
  heap s !! t = Some (Obj ps) → NoDup ps.*1 →
  (∀ sl, assoc_get (KStr k) ps = Some sl → sconf sl = true) →
  let s' := js_delete (VRef p) (KStr k) s in
  changes (trace s') = changes (trace s) ++ [QueueSave r] ∧
  (∃ key, assoc_get key (operationQueue s') = Some (Op (VRef r) Save)) ∧
  is_Some (queueTimer s') ∧
  ((t, k) ≠ (r, "_idx"%string) →
     obj_get t (KStr k) s' = VUndef ∧ k ∉ js_keys (VRef p) s') ∧
  (t = r → k = "_idx"%string →
     obj_get r (KStr "_idx") s' = VNum (Z.of_nat (length (rows s))) ∧
     assoc_get (VNum (Z.of_nat (length (rows s)))) (operationQueue s') =
       Some (Op (VRef r) Save)).
Proof.
  intros Hp Ht Hnd Hconf s'.
  assert (Hs' : s' = onChange (QueueSave r) (obj_delete t (KStr k) s)).
  { subst s'. unfold js_delete. by rewrite Hp. }
  set (d := obj_delete t (KStr k) s) in *.
  assert (Hpd : props_delete (KStr k) ps = assoc_del (KStr k) ps).
  { unfold props_delete. destruct (assoc_get (KStr k) ps) as [sl|] eqn:Hg.
    - by rewrite (Hconf sl eq_refl).
    - clear -Hg. induction ps as [|[k' v] ps IH]; simpl in *; [done|].
      destruct (decide _); [done|]. by rewrite <- IH. }
  assert (Hd : heap d = <[t := Obj (assoc_del (KStr k) ps)]> (heap s) ∧ rows d = rows s ∧
               trace d = trace s).
  { subst d. unfold obj_delete. rewrite Ht, Hpd. done. }
  destruct Hd as (Hhd & Hrd & Htd).
  assert (Htd' : heap d !! t = Some (Obj (assoc_del (KStr k) ps))).
  { rewrite Hhd. apply list_lookup_insert_eq. by eapply lookup_lt_Some. }
  assert (Hgone : obj_get t (KStr k) d = VUndef).
  { rewrite (obj_get_lookup _ _ _ _ Htd'). unfold props_get.
    by rewrite assoc_get_del_eq. }
  destruct (onChange_effect r d) as (key & Hch & _ & Hq & Htm & _).
  rewrite <- Hs' in Hch, Hq, Htm.
  split; [by rewrite Hch, Htd|]. split; [by exists key|]. split; [done|].
  rewrite Hs', onChange_unfold. cbv zeta.
  set (l := log (Changed (QueueSave r)) d).
  assert (Hhl : heap l = heap d) by done.
  split.
  - intros Hne.
    assert (Hcell : ∃ ps', heap (fill_idx r l) !! t = Some (Obj ps') ∧
                           assoc_get (KStr k) ps' = None).
    { unfold fill_idx. destruct (decide _) as [_|_].
      - destruct (decide (r = t)) as [->|Hrt].
        + exists (props_set (KStr "_idx") (VNum (Z.of_nat (length (rows l)))) (assoc_del (KStr k) ps)).
          split.
          * unfold obj_set. rewrite Hhl, Htd'. simpl.
            apply list_lookup_insert_eq. by eapply lookup_lt_Some.
          * unfold props_set. rewrite assoc_get_upd_ne by (intros [= <-]; done).
            by apply assoc_get_del_eq.
        + exists (assoc_del (KStr k) ps). split; [|by apply assoc_get_del_eq].
          rewrite heap_obj_set_other by done. by rewrite Hhl.
      - exists (assoc_del (KStr k) ps). split; [by rewrite Hhl|by apply assoc_get_del_eq]. }
    destruct Hcell as (ps' & Hcell & Hnone).
    rewrite <- (heap_enqueue (obj_get r (KStr "_idx") (fill_idx r l)) (Op (VRef r) Save))
      in Hcell.
    split.
    + rewrite (obj_get_lookup _ _ _ _ Hcell). unfold props_get. by rewrite Hnone.
    + pose proof (tracked_js_delete false (VRef p) k s ltac:(discriminate)) as Htr.
      fold s' in Htr. rewrite Hs', onChange_unfold in Htr. cbv zeta in Htr. fold l in Htr.
      pose proof (tr_prx _ _ _ Htr p t (QueueSave r) Hp) as Hp'.
      unfold js_keys. unfold addr in *. rewrite Hp', Hcell.
      intros Hin%elem_of_own_keys%props_keys_elem. rewrite Hnone in Hin. by destruct Hin.
  - intros -> ->.
    assert (Hf : fill_idx r l = obj_set r (KStr "_idx") (VNum (Z.of_nat (length (rows s)))) l).
    { unfold fill_idx. rewrite (obj_get_heap_eq _ _ d l Hhl), Hgone.
      rewrite decide_True by done. by rewrite <- Hrd. }
    rewrite Hf.
    assert (Hi : obj_get r (KStr "_idx")
                   (obj_set r (KStr "_idx") (VNum (Z.of_nat (length (rows s)))) l) =
                 VNum (Z.of_nat (length (rows s)))).
    { eapply obj_get_set_eq. rewrite Hhl. exact Htd'. }
    rewrite Hi. split.
    + by rewrite (obj_get_heap_eq _ _ _ (enqueue _ _ _) (heap_enqueue _ _ _)).
    + rewrite queue_enqueue. apply assoc_get_upd_eq.
Qed.

(** ** Deep tracking: a write below a row *)

Lemma unwrapped_path_frame s s' a path seen :
  (∀ k, obj_get a (KStr k) s' = obj_get a (KStr k) s) →
  (∀ (x : addr) ps, x ∉ seen → heap s !! x = Some (Obj ps) → heap s' !! x = Some (Obj ps)) →
  unwrapped_path s a path seen → unwrapped_path s' a path seen.
Proof.
  revert a seen. induction path as [|k path IH]; intros a seen Ha Hfr; [done|].
  simpl. intros (c & psc & Hk & Hc & Hu & Hnin & Hrest).
  exists c, psc. split; [by rewrite Ha|]. split; [by apply Hfr|]. split; [done|].
  split; [done|]. apply IH; [| |done].
  - intros k'. unfold obj_get. by rewrite Hc, (Hfr c psc Hnin Hc).
  - intros x ps Hx. apply Hfr. intros Hin. apply Hx. by apply list_elem_of_further.
Qed.

(** A write through a tracked value bound to the row [r], anywhere below
    the row. *)
Lemma write_nested_effective q c r i k v s :
  heap s !! q = Some (Prx c (QueueSave r)) →
  obj_get r (KStr "_idx") s = VNum i →
  (c, k) ≠ (r, KStr "_idx") → obj_get c k s ≠ v →
  js_set (VRef q) k v s =
    enqueue (VNum i) (Op (VRef r) Save) (log (Changed (QueueSave r)) (obj_set c k v s)).
Proof.
  intros Hq Hi Hne Hv.
  assert (Hwi : obj_get r (KStr "_idx") (obj_set c k v s) = VNum i).
  { by rewrite obj_get_obj_set_ne. }
  rewrite <- (onChange_with_idx r i _ Hwi).
  unfold js_set. rewrite Hq. unfold set_trap.
  destruct (decide _) as [Heq|_]; [done|reflexivity].
Qed.

(** One read of a field that holds an object not wrapped yet. *)
Lemma read_unwrapped_step p t r i k c psc s :
  heap s !! p = Some (Prx t (QueueSave r)) →
  obj_get r (KStr "_idx") s = VNum i →
  obj_get t (KStr k) s = VRef c →
  heap s !! c = Some (Obj psc) → props_get KInternal psc = VUndef →
  c ≠ t → c ≠ r →
  ∃ s', js_get (VRef p) (KStr k) s = (VRef (length (heap s)), s') ∧
    heap s' !! length (heap s) = Some (Prx c (QueueSave r)) ∧
    length (heap s') = S (length (heap s)) ∧
    obj_get r (KStr "_idx") s' = VNum i ∧
    (∀ x : addr, x ≠ t → x ≠ c → (x < length (heap s))%nat → heap s' !! x = heap s !! x) ∧
    (∃ psc', heap s' !! c = Some (Obj psc') ∧
             ∀ k', props_get (KStr k') psc' = props_get (KStr k') psc) ∧
    changes (trace s') = changes (trace s) ++ [QueueSave r] ∧
    operationQueue s' = assoc_set (VNum i) (Op (VRef r) Save) (operationQueue s) ∧
    is_Some (queueTimer s').
Proof.
  intros Hp Hi Hk Hc Hu Hct Hcr.
  assert (Ht : ∃ pst, heap s !! t = Some (Obj pst)).
  { unfold obj_get in Hk. destruct (heap s !! t) as [[pst|]|]; try done. by eexists. }
  destruct Ht as [pst Ht].
  set (n := length (heap s)).
  set (sa := (alloc (Prx c (QueueSave r)) s).2).
  assert (Hha : heap sa = heap s ++ [Prx c (QueueSave r)]) by done.
  assert (Hold : ∀ (x : addr) cell, heap s !! x = Some cell → heap sa !! x = Some cell).
  { intros x cell Hx. rewrite Hha. by apply lookup_app_l_Some. }
  set (sm := obj_set c KInternal (VBool true) sa).
  assert (Hhm : heap sm = <[c := Obj (props_set KInternal (VBool true) psc)]> (heap sa)).
  { subst sm. unfold obj_set. by rewrite (Hold c _ Hc). }
  assert (Him : obj_get r (KStr "_idx") sm = VNum i).
  { subst sm. rewrite obj_get_obj_set_ne by (intros [= ? ?]; done).
    unfold obj_get. unfold obj_get in Hi.
    destruct (heap s !! r) as [cell|] eqn:Hr; [|done]. by rewrite (Hold r cell Hr). }
  set (se := enqueue (VNum i) (Op (VRef r) Save) (log (Changed (QueueSave r)) sm)).
  assert (Hhe : heap se = heap sm) by (subst se; by rewrite heap_enqueue).
  assert (Hcreate : createDeepProxy (VRef c) (QueueSave r) s = (VRef n, se)).
  { unfold createDeepProxy, has_marker. rewrite Hc, Hu. simpl.
    fold n. f_equal. unfold set_trap.
    change (with_heap (heap s ++ [Prx c (QueueSave r)]) s) with sa.
    assert (Ho : obj_get c KInternal sa = VUndef).
    { by rewrite (obj_get_lookup _ _ _ _ (Hold c _ Hc)). }
    rewrite Ho. rewrite decide_False by done.
    fold sm. by rewrite (onChange_with_idx r i sm Him). }
  exists (obj_set t (KStr k) (VRef n) se).
  assert (Hlen_a : length (heap sa) = S n).
  { rewrite Hha, length_app. simpl. subst n. lia. }
  assert (Hlen_m : length (heap sm) = S n) by (by rewrite Hhm, length_insert).
  assert (Htm : heap sm !! t = Some (Obj pst)).
  { rewrite Hhm, list_lookup_insert_ne by done. by apply Hold. }
  assert (Hfin : heap (obj_set t (KStr k) (VRef n) se) =
                 <[t := Obj (props_set (KStr k) (VRef n) pst)]> (heap sm)).
  { unfold obj_set. by rewrite Hhe, Htm. }
  split.
  { unfold js_get. rewrite Hp. unfold get_trap. rewrite Hk. cbn [is_object].
    by rewrite Hcreate. }
  split.
  { rewrite Hfin, list_lookup_insert_ne.
    - rewrite Hhm, list_lookup_insert_ne.
      + rewrite Hha. apply list_lookup_middle. done.
      + intros ->. apply lookup_lt_Some in Hc. subst n. lia.
    - intros ->. apply lookup_lt_Some in Ht. subst n. lia. }
  split; [by rewrite Hfin, length_insert|].
  split.
  { rewrite obj_get_obj_set_ne.
    - by rewrite (obj_get_heap_eq _ _ sm se Hhe).
    - intros [= -> ->]. rewrite Hi in Hk. discriminate. }
  split.
  { intros x Hxt Hxc Hlt. rewrite Hfin, list_lookup_insert_ne by done.
    rewrite Hhm, list_lookup_insert_ne by done. rewrite Hha. by apply lookup_app_l. }
  split.
  { exists (props_set KInternal (VBool true) psc). split.
    - rewrite Hfin, list_lookup_insert_ne by done. rewrite Hhm.
      apply list_lookup_insert_eq. rewrite Hlen_a. apply lookup_lt_Some in Hc. subst n. lia.
    - intros k'. by apply props_get_set_ne. }
  assert (Htr : trace (obj_set t (KStr k) (VRef n) se) = trace se) by apply trace_obj_set.
  assert (Hctl : ∀ x, operationQueue (obj_set t (KStr k) (VRef n) x) = operationQueue x ∧
                      queueTimer (obj_set t (KStr k) (VRef n) x) = queueTimer x).
  { intros x. by destruct (obj_set_with_heap t (KStr k) (VRef n) x) as (h & -> & _). }
  assert (Hsm : operationQueue sm = operationQueue s ∧ trace sm = trace s).
  { subst sm. destruct (obj_set_with_heap c KInternal (VBool true) sa) as (h & -> & _). done. }
  split.
  { rewrite Htr. subst se. rewrite <- (onChange_with_idx r i sm Him), changes_onChange.
    by rewrite (proj2 Hsm). }
  split.
  { rewrite (proj1 (Hctl se)). subst se. rewrite queue_enqueue. simpl.
    by rewrite (proj1 Hsm). }
  rewrite (proj2 (Hctl se)). apply is_Some_queueTimer_enqueue.
Qed.

Lemma reads_unwrapped r i path :
  ∀ p t pst seen s,
    heap s !! p = Some (Prx t (QueueSave r)) →
    heap s !! t = Some (Obj pst) →
    obj_get r (KStr "_idx") s = VNum i →
    t ∈ seen → r ∈ seen →
    unwrapped_path s t path seen →
    ∃ q c psc s1,
      reads (VRef p) path s = (VRef q, s1) ∧
      heap s1 !! q = Some (Prx c (QueueSave r)) ∧
      heap s1 !! c = Some (Obj psc) ∧
      (path ≠ [] → c ≠ r) ∧
      obj_get r (KStr "_idx") s1 = VNum i ∧
      length (heap s1) = (length (heap s) + length path)%nat ∧
      changes (trace s1) = changes (trace s) ++ replicate (length path) (QueueSave r) ∧
      (path ≠ [] →
         operationQueue s1 = assoc_set (VNum i) (Op (VRef r) Save) (operationQueue s) ∧
         is_Some (queueTimer s1)).
Proof.
  induction path as [|k path IH]; intros p t pst seen s Hp Ht Hi Htin Hrin Hpath.
  - exists p, t, pst, s. simpl. rewrite app_nil_r.
    split; [done|]. split; [done|]. split; [done|]. split; [done|].
    split; [done|]. split; [lia|]. done.
  - destruct Hpath as (c & psc & Hk & Hc & Hu & Hnin & Hrest).
    assert (Hct : c ≠ t) by (intros ->; done).
    assert (Hcr : c ≠ r) by (intros ->; done).
    destruct (read_unwrapped_step p t r i k c psc s Hp Hi Hk Hc Hu Hct Hcr)
      as (s' & Hread & Hn & Hlen & Hi' & Hfr & (psc' & Hc' & Hsame) & Hch & Hq & Htm).
    assert (Hrest' : unwrapped_path s' c path (c :: seen)).
    { apply (unwrapped_path_frame s); [| |done].
      - intros k'. by rewrite (obj_get_lookup _ _ _ _ Hc'), (obj_get_lookup _ _ _ _ Hc).
      - intros x ps Hx Hxs. rewrite Hfr; [done| | |by eapply lookup_lt_Some].
        + intros ->. apply Hx. by apply list_elem_of_further.
        + intros ->. apply Hx. apply list_elem_of_here. }
    destruct (IH (length (heap s)) c psc' (c :: seen) s' Hn Hc' Hi'
                ltac:(apply list_elem_of_here) ltac:(by apply list_elem_of_further) Hrest')
      as (q & c2 & psc2 & s1 & Hreads & Hq1 & Hc2 & Hcons & Hi1 & Hlen1 & Hch1 & Hq1').
    exists q, c2, psc2, s1.
    split; [cbn [reads]; by rewrite Hread|]. split; [done|]. split; [done|].
    split.
    { intros _. destruct (decide (path = [])) as [->|Hne]; [|by apply Hcons].
      simpl in Hreads. injection Hreads as <- <-. unfold addr in *. rewrite Hn in Hq1.
      by injection Hq1 as <-. }
    split; [done|]. split; [rewrite Hlen1, Hlen; simpl; lia|].
    split.
    { rewrite Hch1, Hch, <- app_assoc. done. }
    intros _. destruct (decide (path = [])) as [->|Hne].
    + simpl in Hreads. injection Hreads as <- <-. done.
    + destruct (Hq1' Hne) as [Hqq Htt]. split; [|done].
      rewrite Hqq, Hq. apply assoc_upd_idem.
Qed.

(** X7. Deep tracking.  Let [p] be a tracked value bound to the row [r] (the
    row's own Proxy, or a Proxy below it), and let [path] lead from its
    target through plain objects that have not been wrapped yet.  Reading
    [p.k1. ... .kn] hands back a Proxy bound to the same row, having
    notified once per step; a write through that Proxy is performed, and
    when it changes the field it queues a save of the row [r] under the
    row's identity, with a timer armed, while a write of the value the
    field already holds notifies nobody. *)
Theorem nested_write_saves_owner (s : state) (p t r : addr) (i : Z)
    (pst : list (pkey * slot)) (path : list string) (seen : list addr) :
  heap s !! p = Some (Prx t (QueueSave r)) →
  heap s !! t = Some (Obj pst) →
  obj_get r (KStr "_idx") s = VNum i →
  t ∈ seen → r ∈ seen →
  unwrapped_path s t path seen →
  let x := (reads (VRef p) path s).1 in
  let s1 := (reads (VRef p) path s).2 in
  ∃ q c, x = VRef q ∧ heap s1 !! q = Some (Prx c (QueueSave r)) ∧
    length (heap s1) = (length (heap s) + length path)%nat ∧
    changes (trace s1) = changes (trace s) ++ replicate (length path) (QueueSave r) ∧
    (path ≠ [] → assoc_get (VNum i) (operationQueue s1) = Some (Op (VRef r) Save)) ∧
    ∀ k v, (c, k) ≠ (r, "_idx"%string) →
      let s2 := js_set (VRef q) (KStr k) v s1 in
      obj_get c (KStr k) s2 = v ∧
      (obj_get c (KStr k) s1 = v → changes (trace s2) = changes (trace s1)) ∧
      (obj_get c (KStr k) s1 ≠ v →
         changes (trace s2) = changes (trace s1) ++ [QueueSave r] ∧
         assoc_get (VNum i) (operationQueue s2) = Some (Op (VRef r) Save) ∧
         is_Some (queueTimer s2)).
Proof.
  intros Hp Ht Hi Htin Hrin Hpath x s1.
  destruct (reads_unwrapped r i path p t pst seen s Hp Ht Hi Htin Hrin Hpath)
    as (q & c & psc & s1' & Hreads & Hq & Hc & Hcons & Hi1 & Hlen & Hch & Hqueue).
  subst x s1. rewrite Hreads. cbn [fst snd].
  exists q, c. split; [done|]. split; [done|]. split; [done|]. split; [done|].
  split.
  { intros Hne. destruct (Hqueue Hne) as [-> _]. apply assoc_get_upd_eq. }
  intros k v Hne. set (s2 := js_set (VRef q) (KStr k) v s1').
  assert (Hs2 : s2 = if decide (obj_get c (KStr k) s1' = v)
                     then obj_set c (KStr k) v s1'
                     else enqueue (VNum i) (Op (VRef r) Save)
                            (log (Changed (QueueSave r)) (obj_set c (KStr k) v s1'))).
  { destruct (decide _) as [Heq|Hv].
    - subst s2. unfold js_set. rewrite Hq. unfold set_trap. by rewrite decide_True.
    - apply write_nested_effective; try done. intros [= -> ->]. done. }
  assert (Hw : obj_get c (KStr k) (obj_set c (KStr k) v s1') = v).
  { by eapply obj_get_set_eq. }
  split; [|split].
  - rewrite Hs2. destruct (decide _); [done|].
    by rewrite (obj_get_heap_eq _ _ (obj_set c (KStr k) v s1') (enqueue _ _ _))
      by (by rewrite heap_enqueue).
  - intros Heq. rewrite Hs2, decide_True by done. by rewrite trace_obj_set.
  - intros Hv. rewrite Hs2, decide_False by done.
    split.
    { rewrite <- (onChange_with_idx r i), changes_onChange, trace_obj_set; [done|].
      rewrite obj_get_obj_set_ne; [done|]. intros [= -> ->]. done. }
    split; [rewrite queue_enqueue; apply assoc_get_upd_eq|].
    apply is_Some_queueTimer_enqueue.
Qed.

(** ** The columns of an upserted record *)

Lemma assoc_set_keys {K V} `{EqDecision K} (k : K) (v : V) l :
  ∀ k', k' ∈ (assoc_set k v l).*1 ↔ k' ∈ l.*1 ∨ k' = k.
Proof.
  intros k'. unfold assoc_set. destruct (assoc_get k l) as [v0|] eqn:Hg.
  - rewrite assoc_upd_keys_in by (by eexists). split; [by left|].
    intros [?| ->]; [done|]. by eapply assoc_get_Some_fst.
  - rewrite assoc_upd_keys_notin by done. rewrite elem_of_app, list_elem_of_singleton. done.
Qed.

Lemma assoc_set_head {K V} `{EqDecision K} (k k0 : K) (v v0 : V) l :
  ∃ v1 l1, assoc_set k v ((k0, v0) :: l) = (k0, v1) :: l1.
Proof. unfold assoc_set. simpl. destruct (decide _); by eexists _, _. Qed.

Lemma rowToSave_fields_keys row keys acc s r s' :
  rowToSave_fields row keys acc s = (Some r, s') →
  (∀ k, k ∈ r.*1 ↔ k ∈ acc.*1 ∨ (k ∈ keys ∧ k ≠ "_internal"%string)) ∧
  (NoDup acc.*1 → NoDup r.*1) ∧
  (∀ k0 v0 l, acc = (k0, v0) :: l → ∃ v1 l1, r = (k0, v1) :: l1).
Proof.
  revert acc s. induction keys as [|key keys IH]; intros acc s; simpl.
  - intros [= <- _]. split; [|split; [done|]].
    + intros k. split; [by left|]. intros [?|[?%elem_of_nil _]]; done.
    + intros k0 v0 l ->. by eexists _, _.
  - assert (Hstep : ∀ c s1, rowToSave_fields row keys (assoc_set key c acc) s1 = (Some r, s') →
              key ≠ "_internal"%string →
              (∀ k, k ∈ r.*1 ↔ k ∈ acc.*1 ∨ (k ∈ key :: keys ∧ k ≠ "_internal"%string)) ∧
              (NoDup acc.*1 → NoDup r.*1) ∧
              (∀ k0 v0 l, acc = (k0, v0) :: l → ∃ v1 l1, r = (k0, v1) :: l1)).
    { intros c s1 Hr Hkey. destruct (IH _ _ Hr) as (Hk & Hnd & Hhd).
      split; [|split].
      - intros k. rewrite Hk, assoc_set_keys, elem_of_cons.
        split; [intros [[?| ->]|[? ?]]; eauto|].
        intros [?|[[->|?] ?]]; eauto.
      - intros Hacc. apply Hnd. by apply assoc_upd_NoDup.
      - intros k0 v0 l ->. destruct (assoc_set_head key k0 c v0 l) as (v1 & l1 & Heq).
        by apply (Hhd k0 v1 l1). }
    destruct (decide (key = "_internal"%string)) as [->|Hkey].
    + intros Hr. destruct (IH _ _ Hr) as (Hk & Hnd & Hhd). split; [|done].
      intros k. rewrite Hk, elem_of_cons. split; [intros [?|[? ?]]; eauto|].
      intros [?|[[->|?] ?]]; eauto. done.
    + destruct (js_get row (KStr key) s) as [value s1].
      destruct (is_object value).
      * destruct (JSON_stringify value s1) as [[[j|]|] s2]; [| |discriminate];
          intros Hr; by eapply Hstep.
      * intros Hr; by eapply Hstep.
Qed.

(** X8. The record that the flush builds for a row names no column twice,
    never has a column [_internal], and has otherwise exactly [_idx] and the
    enumerable keys of the row.  Its columns come in the order in which an
    object lists its keys: first the columns whose names are array indices,
    in ascending order, then [_idx], then the other columns.  When no key
    of the row is an array index, the record starts with [_idx]. *)
Theorem upsert_record_columns (o : op) (s : state) (r : record) (s' : state) :
  rowToSave o s = (Some r, s') →
  NoDup r.*1 ∧
  ("_internal"%string ∉ r.*1) ∧
  (∀ k, k ∈ r.*1 ↔
        k = "_idx"%string ∨
        (k ∈ js_keys (op_row o) (js_get (op_row o) (KStr "_idx") s).2 ∧
         k ≠ "_internal"%string)) ∧
  (∃ front c rest, r = front.*2 ++ ("_idx"%string, c) :: rest ∧
     Forall (λ nx : N * (string * col), array_index nx.2.1 = Some nx.1) front ∧
     StronglySorted (λ a b : N * (string * col), (a.1 ≤ b.1)%N) front ∧
     Forall (λ x : string * col, array_index x.1 = None) rest) ∧
  ((∀ k, k ∈ js_keys (op_row o) (js_get (op_row o) (KStr "_idx") s).2 →
         array_index k = None) →
   ∃ c rest, r = ("_idx"%string, c) :: rest).
Proof.
  rewrite rowToSave_loop. cbn zeta.
  destruct (js_get (op_row o) (KStr "_idx") s) as [i s1]. cbn [fst snd].
  destruct (rowToSave_fields _ _ _ _) as [[r0|] s2] eqn:Hr0; [|discriminate].
  cbn [fst snd fmap option_fmap option_map]. intros [= <- <-].
  destruct (rowToSave_fields_keys _ _ _ _ _ _ Hr0) as (Hk & Hnd & Hhd).
  destruct (Hhd _ _ _ eq_refl) as (c & l1 & ->).
  assert (Hkeys : ∀ k, k ∈ (own_order fst (("_idx"%string, c) :: l1)).*1 ↔
            k = "_idx"%string ∨
            (k ∈ js_keys (op_row o) s1 ∧ k ≠ "_internal"%string)).
  { intros k. rewrite own_order_fst_keys, Hk. simpl. by rewrite list_elem_of_singleton. }
  split; [|split; [|split; [exact Hkeys|split]]].
  - rewrite own_order_fst_keys. apply Hnd, NoDup_singleton.
  - rewrite Hkeys. intros [?|[_ ?]]; done.
  - exists (index_entries fst l1), c, (named_entries fst l1).
    split; [by apply named_entries_cons_named|].
    split; [apply (index_entries_keys fst)|].
    split; [apply index_entries_sorted|apply (named_entries_keys fst)].
  - intros Hnone. exists c, l1. apply own_order_named.
    apply Forall_forall. intros [k x] Hin.
    assert (Hkin : k ∈ (("_idx"%string, c) :: l1).*1).
    { apply list_elem_of_fmap. by exists (k, x). }
    apply Hk in Hkin as [Hidx%list_elem_of_singleton|[Hkin _]].
    + simpl in *. by subst k.
    + by apply Hnone.
Qed.

(** ** push *)

(** Wrapping a row that has its identity queues its save under it. *)
Lemma wrapRow_queue a ps i s :
  heap s !! a = Some (Obj ps) → props_get KInternal ps = VUndef →
  props_get (KStr "_idx") ps = VNum i →
  operationQueue (_wrapRow (VRef a) s).2 =
    assoc_set (VNum i) (Op (VRef a) Save) (operationQueue s).
Proof.
  intros Ha Hu Hi. unfold _wrapRow, has_marker. rewrite Ha, Hu. cbn [truthy].
  unfold createDeepProxy, has_marker. rewrite Ha, Hu. cbn [truthy].
  set (sa := (alloc (Prx a (QueueSave a)) s)).
  assert (Hsa : sa = (length (heap s), with_heap (heap s ++ [Prx a (QueueSave a)]) s)) by done.
  rewrite Hsa. clear Hsa sa.
  set (sa := with_heap (heap s ++ [Prx a (QueueSave a)]) s).
  assert (Haa : heap sa !! a = Some (Obj ps)) by (by apply lookup_app_l_Some).
  unfold set_trap. rewrite (obj_get_lookup _ _ _ _ Haa), Hu.
  rewrite decide_False by done.
  assert (Him : obj_get a (KStr "_idx") (obj_set a KInternal (VBool true) sa) = VNum i).
  { rewrite obj_get_obj_set_ne by (intros [= ?]).
    by rewrite (obj_get_lookup _ _ _ _ Haa). }
  rewrite (onChange_with_idx a i _ Him).
  set (se := enqueue _ _ _).
  assert (Hq : operationQueue se = assoc_set (VNum i) (Op (VRef a) Save) (operationQueue s)).
  { subst se. rewrite queue_enqueue. simpl.
    by destruct (obj_set_with_heap a KInternal (VBool true) sa) as (h & -> & _). }
  destruct (alloc _ se) as [i0 s2] eqn:Hal.
  assert (Hq2 : operationQueue s2 = operationQueue se) by (by injection Hal as _ <-).
  destruct (heap s2 !! a) as [[ps2|]|]; simpl; by rewrite ?Hq2.
Qed.

(** X9. [push(row)] of a new object: the row goes to the end of [rows] as
    a Proxy, which is what [push] returns; its identity is the length that
    [rows] had; a save of it is queued under that identity, replacing
    whatever was queued there, every other queue entry being left alone;
    a timer is armed; the rows that were there stay where they are. *)
Theorem push_appends_a_tracked_row (row : value) (s : state) :
  unmarked_row s row →
  let proxied := (push row s).1 in
  let s' := (push row s).2 in
  let n := length (rows s) in
  proxied = VRef (length (heap s)) ∧
  rows s' = rows s ++ [proxied] ∧
  row_at s' n proxied ∧
  row_struct s' proxied (addr_of row) ∧
  assoc_get (VNum (Z.of_nat n)) (operationQueue s') = Some (Op proxied Save) ∧
  (∀ key, key ≠ VNum (Z.of_nat n) →
     assoc_get key (operationQueue s') = assoc_get key (operationQueue s)) ∧
  is_Some (queueTimer s').
Proof.
  intros (a & ps & -> & Ha & Hu) proxied s' n.
  assert (Hs1 : js_set (VRef a) (KStr "_idx") (VNum (Z.of_nat n)) s =
                obj_set a (KStr "_idx") (VNum (Z.of_nat n)) s).
  { unfold js_set. by rewrite Ha. }
  set (s1 := obj_set a (KStr "_idx") (VNum (Z.of_nat n)) s).
  assert (Hs1' : rows s1 = rows s ∧ operationQueue s1 = operationQueue s ∧
                 length (heap s1) = length (heap s)).
  { subst s1. by destruct (obj_set_with_heap a (KStr "_idx") (VNum (Z.of_nat n)) s)
      as (h & -> & ?). }
  destruct Hs1' as (Hr1 & Hq1 & Hl1).
  assert (Ha1 : heap s1 !! a = Some (Obj (props_set (KStr "_idx") (VNum (Z.of_nat n)) ps))).
  { subst s1. unfold obj_set. rewrite Ha. simpl.
    apply list_lookup_insert_eq. by eapply lookup_lt_Some. }
  assert (Hu1 : props_get KInternal (props_set (KStr "_idx") (VNum (Z.of_nat n)) ps) = VUndef).
  { by rewrite props_get_set_ne. }
  destruct (wrapRow_fresh a _ s1 Ha1 Hu1) as (key & s2 & Heq & Hp2 & _ & _ & _ & _ & Hrs).
  pose proof (wrapRow_queue a _ (Z.of_nat n) s1 Ha1 Hu1 (props_get_set_eq _ _ _)) as Hq2.
  pose proof (tracked_wrapRow true (VRef a) s1) as Htr.
  rewrite Heq in Hq2, Htr. cbn [fst snd] in Hq2, Htr.
  set (w0 := VRef (length (heap s1))) in *.
  set (s3 := with_rows (rows s2 ++ [w0]) s2).
  destruct (tr_obj _ _ _ Htr a _ Ha1) as (ps2 & Ha2 & _ & Hi2).
  assert (Hidx : obj_get a (KStr "_idx") s3 = VNum (Z.of_nat n)).
  { unfold obj_get. simpl. unfold addr in *. rewrite Ha2. apply Hi2; [done|].
    apply props_get_set_eq. }
  assert (Hpush : push (VRef a) s = (w0, enqueue (VNum (Z.of_nat n)) (Op w0 Save) s3)).
  { unfold push. fold n. rewrite Hs1. fold s1. rewrite Heq. fold w0. fold s3.
    f_equal. apply (queueOperation_row _ a (QueueSave a)); [exact Hp2|exact Hidx]. }
  subst proxied s'. rewrite Hpush. cbn [fst snd].
  split; [subst w0; by rewrite Hl1|].
  split.
  { rewrite (tr_rows _ _ _ (tracked_enqueue false _ _ s3)). simpl.
    by rewrite (tr_rows _ _ _ Htr), Hr1. }
  assert (Hrs3 : row_struct (enqueue (VNum (Z.of_nat n)) (Op w0 Save) s3) w0 a).
  { eapply row_struct_heap_eq; [|exact Hrs]. by rewrite heap_enqueue. }
  split.
  { exists a. split; [done|].
    by rewrite (obj_get_heap_eq _ _ s3 (enqueue _ _ _)) by (by rewrite heap_enqueue). }
  split; [done|].
  split; [rewrite queue_enqueue; apply assoc_get_upd_eq|].
  split; [|apply is_Some_queueTimer_enqueue].
  intros key' Hne. rewrite queue_enqueue. unfold assoc_set.
  rewrite assoc_get_upd_ne by done. simpl. rewrite Hq2. unfold assoc_set.
  rewrite assoc_get_upd_ne by done. by rewrite Hq1.
Qed.

(** ** splice: what leaves, what stays *)

Lemma splice_bounds len start deleteCount :
  (splice_start len start ≤ len)%nat ∧
  (splice_start len start + splice_count len start deleteCount ≤ len)%nat.
Proof.
  unfold splice_count. assert (H : (splice_start len start ≤ len)%nat).
  { unfold splice_start. destruct (start <? 0) eqn:Hs; lia. }
  split; [done|]. lia.
Qed.

(** X10. [splice(start, deleteCount, ...items)] with new objects as items
    cuts [rows] as [Array.prototype.splice] does, for any [start] and
    [deleteCount] (negative or too large ones are clamped): what it returns
    is the run of rows that left, and [rows] is afterwards the rows before
    the cut, one row Proxy per item in the order given, and the rows after
    the cut. *)
Theorem splice_cuts_like_an_array (start deleteCount : Z) (items : list value) (s : state) :
  Forall (unmarked_row s) items → NoDup items →
  let removed := (splice start deleteCount items s).1 in
  let s' := (splice start deleteCount items s).2 in
  let p := splice_start (length (rows s)) start in
  let k := splice_count (length (rows s)) start deleteCount in
  (p + k ≤ length (rows s))%nat ∧
  removed = take k (drop p (rows s)) ∧
  length removed = k ∧
  ∃ wrapped,
    rows s' = take p (rows s) ++ wrapped ++ drop (p + k) (rows s) ∧
    Forall2 (λ i w, ∃ a, i = VRef a ∧ row_struct s' w a) items wrapped ∧
    length (rows s') = (length (rows s) - k + length items)%nat.
Proof.
  intros Hit Hnd removed s' p k.
  pose proof (splice_bounds (length (rows s)) start deleteCount) as [Hp Hpk].
  fold p k in Hp, Hpk. subst removed s'. unfold splice.
  destruct (wrap_loop false
      (λ i idx s, js_set i (KStr "_idx") (VNum (start + Z.of_nat idx)) s)
      (λ v i s, tracked_js_set false v "_idx" _ s (λ H, ltac:(discriminate)))
      (λ v i s v', unmarked_row_js_set v "_idx" _ s v')
      items 0%nat s Hit Hnd) as (ws & s1 & -> & Hws & Htr1).
  assert (Hr1 : rows s1 = rows s) by apply Htr1. rewrite Hr1.
  unfold array_splice. fold p k. cbv zeta. cbn [fst snd].
  set (kept := take p (rows s) ++ ws ++ drop (p + k) (rows s)).
  set (s2 := with_rows kept s1).
  set (s3 := foreach (λ r, _queueOperation r Delete) (take k (drop p (rows s))) s2).
  set (s4 := foreach (λ i, _queueOperation i Save) items s3).
  set (s5 := foreach_from _ (rows s4) 0%nat s4).
  assert (Htr3 : tracked false s2 s3).
  { apply tracked_foreach. intros. apply tracked_queueOperation. }
  assert (Htr4 : tracked false s3 s4).
  { apply tracked_foreach. intros. apply tracked_queueOperation. }
  assert (Htr5 : tracked false s4 s5).
  { apply tracked_foreach_from. intros. by apply tracked_js_set. }
  assert (Hr5 : rows s5 = kept).
  { by rewrite (tr_rows _ _ _ Htr5), (tr_rows _ _ _ Htr4), (tr_rows _ _ _ Htr3). }
  split; [done|]. split; [done|].
  split; [rewrite length_take, length_drop; lia|].
  exists ws. split; [done|]. split.
  - eapply Forall2_impl; [exact Hws|]. intros v w (a & -> & Hs). exists a. split; [done|].
    eapply row_struct_evolves; [apply tracked_evolves, Htr5|].
    eapply row_struct_evolves; [apply tracked_evolves, Htr4|].
    eapply row_struct_evolves; [apply tracked_evolves, Htr3|].
    eapply row_struct_evolves; [apply (evolves_with_rows false kept s1)|done].
  - rewrite Hr5. subst kept. rewrite !length_app, length_take, length_drop.
    rewrite <- (Forall2_length _ _ _ Hws). lia.
Qed.

(** Giving a row the identity it has is no change at all. *)
Lemma reindex_noop l i0 s :
  (∀ j w, l !! j = Some w → row_at s (i0 + j) w) →
  foreach_from (λ row idx, js_set row (KStr "_idx") (VNum (Z.of_nat idx))) l i0 s = s.
Proof.
  revert i0. induction l as [|w l IH]; intros i0 Hl; [done|].
  cbn [foreach_from].
  destruct (Hl 0%nat w eq_refl) as (t & (p & ps & -> & Hp & Ht & _) & Hi).
  replace (i0 + 0)%nat with i0 in Hi by lia.
  assert (Hw : js_set (VRef p) (KStr "_idx") (VNum (Z.of_nat i0)) s = s).
  { unfold js_set. rewrite Hp. unfold set_trap. rewrite decide_True by done.
    by apply obj_set_same. }
  rewrite Hw. apply IH. intros j w' Hj.
  replace (S i0 + j)%nat with (i0 + S j)%nat by lia. by apply Hl.
Qed.

(** X11. A [splice] that removes nothing and inserts nothing leaves the
    mirror exactly as it was: every row is given the identity it already
    has, which notifies nobody, so nothing is queued and no timer armed. *)
Theorem splice_of_nothing_changes_nothing (start deleteCount : Z) (s : state) :
  mirror_inv s → deleteCount ≤ 0 →
  splice start deleteCount [] s = ([], s).
Proof.
  intros Hinv Hdc. unfold splice. cbn [mapi_st]. unfold array_splice.
  assert (Hk : splice_count (length (rows s)) start deleteCount = 0%nat).
  { unfold splice_count. lia. }
  rewrite Hk. cbn [take app]. rewrite Nat.add_0_r, take_drop.
  assert (Hs : with_rows (rows s) s = s) by (by destruct s).
  rewrite Hs. unfold foreach. cbn [foreach_from].
  f_equal. apply reindex_noop. intros j w Hj. by apply Hinv.
Qed.

(** ** A JSON value, loaded and serialised *)






Lemma assoc_get_app_None {K V} `{EqDecision K} (k : K) (l1 l2 : list (K * V)) :
  assoc_get k (l1 ++ l2) = None ↔ assoc_get k l1 = None ∧ assoc_get k l2 = None.
Proof.
  induction l1 as [|[k' v] l1 IH]; simpl; [tauto|].
  destruct (decide _); [|done]. split; [done|]. by intros [? _].
Qed.





(** ** The first flush writes back what was loaded *)









(** *** Loading *)



(** *** Giving identities *)





Lemma props_get_define_hidden_ne k k' v ps :
  KStr k ≠ k' → props_get k' (props_define_hidden (KStr k) v ps) = props_get k' ps.
Proof. intros Hne. unfold props_get, props_define_hidden. by rewrite assoc_get_upd_ne. Qed.


(** *** Wrapping *)

Lemma wrapRow_exact (a : addr) ps i s :
  heap s !! a = Some (Obj ps) → props_get KInternal ps = VUndef →
  props_get (KStr "_idx") ps = VNum i →
  ∃ s', _wrapRow (VRef a) s = (VRef (length (heap s)), s') ∧
    heap s' = <[a := Obj (props_define_hidden (KStr "_internal") (VRef (S (length (heap s))))
                            (props_set KInternal (VBool true) ps))]>
                (heap s ++ [Prx a (QueueSave a);
                            Obj [(KStr "_isProxy", Slot (VBool true) true true)]]) ∧
    operationQueue s' = assoc_set (VNum i) (Op (VRef a) Save) (operationQueue s).
Proof.
  intros Ha Hu Hi. unfold _wrapRow, has_marker. rewrite Ha, Hu. cbn [truthy].
  unfold createDeepProxy, has_marker. rewrite Ha, Hu. cbn [truthy].
  set (sa := (alloc (Prx a (QueueSave a)) s)).
  assert (Hsa : sa = (length (heap s), with_heap (heap s ++ [Prx a (QueueSave a)]) s)) by done.
  rewrite Hsa. clear Hsa sa.
  set (sa := with_heap (heap s ++ [Prx a (QueueSave a)]) s).
  assert (Haa : heap sa !! a = Some (Obj ps)) by (by apply lookup_app_l_Some).
  unfold set_trap. rewrite (obj_get_lookup _ _ _ _ Haa), Hu.
  rewrite decide_False by done.
  set (sm := obj_set a KInternal (VBool true) sa).
  assert (Hhm : heap sm = <[a := Obj (props_set KInternal (VBool true) ps)]> (heap sa)).
  { subst sm. unfold obj_set. by rewrite Haa. }
  assert (Hqm : operationQueue sm = operationQueue s).
  { subst sm. by destruct (obj_set_with_heap a KInternal (VBool true) sa) as (h & -> & _). }
  assert (Him : obj_get a (KStr "_idx") sm = VNum i).
  { subst sm. rewrite obj_get_obj_set_ne by (intros [= ?]).
    by rewrite (obj_get_lookup _ _ _ _ Haa). }
  rewrite (onChange_with_idx a i _ Him).
  set (se := enqueue _ _ _).
  assert (Hq : operationQueue se = assoc_set (VNum i) (Op (VRef a) Save) (operationQueue s)).
  { subst se. rewrite queue_enqueue. simpl. by rewrite Hqm. }
  assert (Hhe : heap se = heap sm) by (subst se; by rewrite heap_enqueue).
  unfold alloc. cbn [fst snd].
  assert (Hlen : length (heap se) = S (length (heap s))).
  { rewrite Hhe, Hhm, length_insert. simpl. rewrite length_app. simpl. lia. }
  assert (Hlk : (heap se ++ [Obj [(KStr "_isProxy", Slot (VBool true) true true)]]) !! a =
                Some (Obj (props_set KInternal (VBool true) ps))).
  { apply lookup_app_l_Some. rewrite Hhe, Hhm. apply list_lookup_insert_eq.
    simpl. rewrite length_app. apply lookup_lt_Some in Ha. lia. }
  simpl. unfold addr in *. rewrite Hlk.
  eexists. split; [done|]. split; [|done]. simpl.
  rewrite Hlen, Hhe, Hhm. simpl.
  assert (Hlt : (a < length (heap s))%nat) by (by eapply lookup_lt_Some).
  rewrite <- insert_app_l by (rewrite length_app; lia).
  rewrite list_insert_insert_eq. by rewrite <- app_assoc.
Qed.




(** *** Building the records *)









(** *** The load, then the flush *)








(** ** What stays in the queue *)

Lemma assoc_upd_keys_prefix {K V} `{EqDecision K} (k : K) (f : option V → V) l :
  l.*1 `prefix_of` (assoc_upd k f l).*1.
Proof.
  destruct (assoc_get k l) as [v|] eqn:Hg.
  - rewrite assoc_upd_keys_in by (by eexists). done.
  - rewrite assoc_upd_keys_notin by done. by apply prefix_app_r.
Qed.

Lemma keys_prefix_enqueues s s' :
  enqueues s s' → (operationQueue s).*1 `prefix_of` (operationQueue s').*1.
Proof.
  intros Henq.
  apply (enqueues_ind_ctl (λ c, (operationQueue s).*1 `prefix_of` (c.1.1.1.1).*1) s s');
    [|done|done].
  intros key o s0 Hpre. simpl in *. rewrite queue_enqueue.
  etrans; [exact Hpre|]. apply assoc_upd_keys_prefix.
Qed.

(** X14. Nothing but the timer callback takes an operation out of the
    queue.  Whatever the caller does (reads, writes, deletes, [push],
    [splice]) and whenever a gateway call settles, the identities that are
    queued stay queued, in the order in which they arrived, new ones being
    added behind them; and time passing changes nothing.  Until the timer
    fires, an entry can only be replaced under its own identity. *)
Theorem queued_until_flushed (a : action) (s : state) :
  (∀ id, a ≠ AFire id) →
  (operationQueue s).*1 `prefix_of` (operationQueue (exec a s)).*1 ∧
  (∀ key, key ∈ (operationQueue s).*1 → key ∈ (operationQueue (exec a s)).*1) ∧
  (is_Some (queueTimer s) → queueTimer (exec a s) = queueTimer s ∧
                            timers (exec a s) = timers s).
Proof.
  intros Hnf.
  assert (Hcases : enqueues s (exec a s) ∨
            (operationQueue (exec a s) = operationQueue s ∧
             queueTimer (exec a s) = queueTimer s ∧ timers (exec a s) = timers s)).
  { destruct (is_call a) eqn:Hc.
    - left. apply (evolves_exec a s Hc).
    - destruct a; try done.
      + right. simpl. unfold advance. by destruct (decide _).
      + by destruct (Hnf id). }
  destruct Hcases as [Henq|(Hq & Hqt & Hts)].
  - split; [by apply keys_prefix_enqueues|]. split.
    + intros key Hk. eapply keys_enqueues; done.
    + intros [id Hq]. destruct (pending_enqueues _ _ _ Henq Hq) as (-> & -> & _). done.
  - rewrite Hq, Hqt, Hts. done.
Qed.

(** ** What a flush leaves alone *)

Lemma evolves_keeps_idx s s' (a : addr) i :
  evolves true s s' → obj_get a (KStr "_idx") s = VNum i → obj_get a (KStr "_idx") s' = VNum i.
Proof.
  intros Hev Hi. unfold obj_get in Hi. destruct (heap s !! a) as [[ps|]|] eqn:Ha; try done.
  destruct (ev_obj _ _ _ Hev a ps Ha) as (ps' & Ha' & _ & Hidx).
  rewrite (obj_get_lookup _ _ _ _ Ha'). by apply Hidx.
Qed.

Lemma fire_frame id s :
  fire id s = s ∨
  ∃ s1, heap s1 = heap s ∧ rows s1 = rows s ∧ evolves true s1 (fire id s) ∧
        rows (fire id s) = rows s1.
Proof.
  unfold fire. destruct (assoc_get id (timers s)); [|by left].
  destruct (decide _); [|by left]. right. unfold flush.
  exists (flush_begin id s).2. split; [done|]. split; [done|].
  apply (evolves_flush_body (map snd (operationQueue s))).
Qed.

(** X15. A flush never moves a row.  The timer callback, and the rest of
    the flush when its upsert settles, leave [rows] as it is, keep every
    numeric [_idx] and every Proxy bound to its target and to its row:
    serialising may wrap nested values, it never touches what the mirror
    is made of.  In particular rows that have their position as identity
    keep it. *)
Theorem flush_never_moves_a_row (s : state) (id n : nat) (ok : bool) :
  (rows (fire id s) = rows s ∧ rows (settle n ok s) = rows s) ∧
  (∀ (a : addr) i, obj_get a (KStr "_idx") s = VNum i →
     obj_get a (KStr "_idx") (fire id s) = VNum i ∧
     obj_get a (KStr "_idx") (settle n ok s) = VNum i) ∧
  (∀ (p t : addr) cb, heap s !! p = Some (Prx t cb) →
     heap (fire id s) !! p = Some (Prx t cb) ∧
     heap (settle n ok s) !! p = Some (Prx t cb)) ∧
  (mirror_inv s → mirror_inv (fire id s) ∧ mirror_inv (settle n ok s)).
Proof.
  destruct (evolves_settle n ok s) as [Hes Hrs].
  destruct (fire_frame id s) as [Hf|(s1 & Hh1 & Hr1 & Hev & Hrf)].
  - rewrite Hf. split; [done|]. split; [|split].
    + intros a i Hi. split; [done|]. by eapply evolves_keeps_idx.
    + intros p t cb Hp. split; [done|]. by apply (ev_prx _ _ _ Hes).
    + intros Hinv. split; [done|]. by eapply mirror_inv_evolves.
  - split; [split; [congruence|done]|]. split; [|split].
    + intros a i Hi. split; [|by eapply evolves_keeps_idx].
      eapply evolves_keeps_idx; [exact Hev|]. by rewrite (obj_get_heap_eq _ _ s s1 Hh1).
    + intros p t cb Hp. split; [|by apply (ev_prx _ _ _ Hes)].
      apply (ev_prx _ _ _ Hev). by rewrite Hh1.
    + intros Hinv. split; [by apply mirror_inv_fire|by eapply mirror_inv_evolves].
Qed.

(** ** The names a mirror is built with *)

Lemma split_no_sep c s : includes c s = false → split c s = [s].
Proof.
  induction s as [|x s IH]; simpl; [done|].
  destruct (Ascii.eqb x c); [done|]. intros Hs. by rewrite (IH Hs).
Qed.

Lemma split_app_sep c a r :
  includes c a = false → split c (a +:+ String c r) = a :: split c r.
Proof.
  induction a as [|x a IH]; simpl.
  - by rewrite Ascii.eqb_refl.
  - destruct (Ascii.eqb x c); [done|]. intros Ha. by rewrite (IH Ha).
Qed.

Lemma includes_app_sep c a r : includes c (a +:+ String c r) = true.
Proof.
  induction a as [|x a IH]; simpl; [by rewrite Ascii.eqb_refl|].
  by destruct (Ascii.eqb x c).
Qed.

Lemma split_nonempty c s : ∃ part parts, split c s = part :: parts.
Proof.
  induction s as [|x s (part & parts & IH)]; simpl; [by eexists _, _|].
  destruct (Ascii.eqb x c); [by eexists _, _|]. rewrite IH. by eexists _, _.
Qed.

Lemma split_two c s :
  includes c s = true → ∃ x y parts, split c s = x :: y :: parts.
Proof.
  induction s as [|x s IH]; simpl; [done|].
  destruct (Ascii.eqb x c).
  - intros _. destruct (split_nonempty c s) as (part & parts & ->). by eexists _, _, _.
  - intros Hs. destruct (IH Hs) as (x' & y & parts & ->). by eexists _, _, _.
Qed.

(** X16. The names a mirror works with.  A table name without a dot is
    taken as it is, in the schema given or else in ["tk"]; a name
    [schema.table] gives both, whatever schema the caller passed; of a name
    with more dots only the first two parts are used; and neither name is
    ever left undefined. *)
Theorem constructor_names_spec (schema : option string) (table : string) :
  (includes dot table = false →
     constructor_names schema table = (Some (default "tk"%string schema), Some table)) ∧
  (∀ a b, includes dot a = false → includes dot b = false →
     table = (a +:+ "." +:+ b)%string →
     constructor_names schema table = (Some a, Some b)) ∧
  (∀ a b rest, includes dot a = false → includes dot b = false →
     table = (a +:+ "." +:+ b +:+ "." +:+ rest)%string →
     constructor_names schema table = (Some a, Some b)) ∧
  (∃ x y, constructor_names schema table = (Some x, Some y)).
Proof.
  unfold constructor_names. split; [|split; [|split]].
  - by intros ->.
  - intros a b Ha Hb ->. change ("." +:+ b)%string with (String dot b).
    rewrite includes_app_sep, split_app_sep, split_no_sep by done. done.
  - intros a b rest Ha Hb ->.
    change ("." +:+ b +:+ "." +:+ rest)%string with (String dot (b +:+ String dot rest)).
    rewrite includes_app_sep, !split_app_sep by done. done.
  - destruct (includes dot table) eqn:Hi; [|by eexists _, _].
    destruct (split_two dot table Hi) as (x & y & parts & ->). by eexists _, _.
Qed.

(** ** What wrapping a row adds to it *)

Lemma props_keys_in k ps :
  k ∈ props_keys ps ↔ ∃ sl, (KStr k, sl) ∈ ps ∧ senum sl = true.
Proof.
  induction ps as [|[[k'|] sl] ps IH]; simpl.
  - split; [by intros ?%elem_of_nil|by intros (sl & ?%elem_of_nil & _)].
  - destruct (senum sl) eqn:He.
    + rewrite elem_of_cons, IH. split.
      * intros [->|(sl' & Hin & Hs)]; [exists sl|exists sl'];
          (split; [|done]); [apply list_elem_of_here|by apply list_elem_of_further].
      * intros (sl' & [[= -> ->]|Hin]%elem_of_cons & Hs); [by left|right; by exists sl'].
    + rewrite IH. split.
      * intros (sl' & Hin & Hs). exists sl'. split; [by apply list_elem_of_further|done].
      * intros (sl' & [[= -> ->]|Hin]%elem_of_cons & Hs); [congruence|by exists sl'].
  - rewrite IH. split.
    + intros (sl' & Hin & Hs). exists sl'. split; [by apply list_elem_of_further|done].
    + intros (sl' & [[=]|Hin]%elem_of_cons & Hs). by exists sl'.
Qed.

Lemma assoc_upd_elem {K V} `{EqDecision K} (k : K) (f : option V → V) l k' v :
  NoDup l.*1 → k' ≠ k → (k', v) ∈ assoc_upd k f l ↔ (k', v) ∈ l.
Proof.
  intros Hnd Hne. induction l as [|[k0 v0] l IH]; simpl.
  - rewrite list_elem_of_singleton. split; [by intros [= ? ?]|by intros ?%elem_of_nil].
  - apply NoDup_cons in Hnd as [Hnin Hnd]. destruct (decide (k = k0)) as [->|Hk].
    + rewrite !elem_of_cons. split; (intros [[= ? ?]|?]; [done|by right]).
    + rewrite !elem_of_cons, (IH Hnd). done.
Qed.

Lemma assoc_upd_elem_eq {K V} `{EqDecision K} (k : K) (f : option V → V) l v :
  NoDup l.*1 → (k, v) ∈ assoc_upd k f l → v = f (assoc_get k l).
Proof.
  intros Hnd. induction l as [|[k0 v0] l IH]; simpl.
  - by intros [= ->]%list_elem_of_singleton.
  - apply NoDup_cons in Hnd as [Hnin Hnd]. destruct (decide (k = k0)) as [->|Hk].
    + intros [[= ->]|Hin]%elem_of_cons; [done|].
      exfalso. apply Hnin. apply list_elem_of_fmap. by exists (k0, v).
    + intros [[= ? ?]|Hin]%elem_of_cons; [done|]. by apply IH.
Qed.

(** X17. What [_wrapRow] adds to a row that has its identity: a Proxy in
    front of it, the marker, and the property [_internal], which is not
    enumerable.  The row keeps every other field and lists the keys it
    listed, but for [_internal]: a column of that name is overwritten and
    is listed no more.  Wrapping again changes nothing, whether the Proxy
    or the row itself is handed in; the row itself comes back as it is,
    not as its Proxy. *)
Theorem wrapRow_hides_its_bookkeeping (a : addr) (ps : list (pkey * slot)) (i : Z)
    (s : state) :
  heap s !! a = Some (Obj ps) → NoDup ps.*1 →
  props_get KInternal ps = VUndef → props_get (KStr "_idx") ps = VNum i →
  let w := (_wrapRow (VRef a) s).1 in
  let s' := (_wrapRow (VRef a) s).2 in
  let n := length (heap s) in
  w = VRef n ∧ heap s' !! n = Some (Prx a (QueueSave a)) ∧
  obj_get a (KStr "_internal") s' = VRef (S n) ∧
  heap s' !! S n = Some (Obj [(KStr "_isProxy", Slot (VBool true) true true)]) ∧
  (∀ k, k ≠ "_internal"%string → obj_get a (KStr k) s' = props_get (KStr k) ps) ∧
  (∀ k, k ∈ js_keys w s' ↔ k ∈ props_keys ps ∧ k ≠ "_internal"%string) ∧
  _wrapRow w s' = (w, s') ∧
  _wrapRow (VRef a) s' = (VRef a, s').
Proof.
  intros Ha Hnd Hu Hi w s' n.
  destruct (wrapRow_exact a ps i s Ha Hu Hi) as (s1 & Hw & Hh & _).
  subst w s'. rewrite Hw. cbn [fst snd]. fold n in Hh |- *.
  set (ps' := props_define_hidden (KStr "_internal") (VRef (S n))
                (props_set KInternal (VBool true) ps)) in *.
  assert (Hlt : (a < n)%nat) by (by eapply lookup_lt_Some).
  assert (Ha1 : heap s1 !! a = Some (Obj ps')).
  { rewrite Hh. apply list_lookup_insert_eq. rewrite length_app. lia. }
  assert (Hn : heap s1 !! n = Some (Prx a (QueueSave a))).
  { rewrite Hh, list_lookup_insert_ne by lia. by apply list_lookup_middle. }
  assert (Hn1 : heap s1 !! S n =
                Some (Obj [(KStr "_isProxy", Slot (VBool true) true true)])).
  { rewrite Hh, list_lookup_insert_ne by lia.
    rewrite lookup_app_r by (subst n; lia).
    replace (S n - length (heap s))%nat with 1%nat by (subst n; lia). done. }
  assert (Hmk : props_get KInternal ps' = VBool true).
  { subst ps'. rewrite props_get_define_hidden_ne by done. apply props_get_set_eq. }
  split; [done|]. split; [done|]. split.
  { rewrite (obj_get_lookup _ _ _ _ Ha1). subst ps'. unfold props_get, props_define_hidden.
    rewrite assoc_get_upd_eq. by destruct (assoc_get _ _). }
  split; [done|]. split.
  { intros k Hk. rewrite (obj_get_lookup _ _ _ _ Ha1). subst ps'.
    rewrite props_get_define_hidden_ne by (intros [= <-]; done).
    by apply props_get_set_ne. }
  split.
  { intros k. unfold js_keys. unfold addr in *. rewrite Hn, Ha1.
    assert (Hnd1 : NoDup (props_set KInternal (VBool true) ps).*1).
    { by apply assoc_upd_NoDup. }
    rewrite elem_of_own_keys, !props_keys_in. subst ps'. unfold props_define_hidden. split.
    - intros (sl & Hin & He).
      destruct (decide (k = "_internal"%string)) as [->|Hk].
      + apply (assoc_upd_elem_eq _ _ _ _ Hnd1) in Hin. subst sl.
        by destruct (assoc_get _ _).
      + split; [|done]. exists sl. split; [|done].
        apply assoc_upd_elem in Hin; [|done|by intros [= ?]].
        unfold props_set in Hin. by apply assoc_upd_elem in Hin.
    - intros [(sl & Hin & He) Hk]. exists sl. split; [|done].
      apply assoc_upd_elem; [done|by intros [= ?]|].
      unfold props_set. by apply assoc_upd_elem. }
  split.
  - unfold _wrapRow, has_marker. unfold addr in *. rewrite Hn.
    by rewrite (obj_get_lookup _ _ _ _ Ha1), Hmk.
  - unfold _wrapRow, has_marker. unfold addr in *. by rewrite Ha1, Hmk.
Qed.

(** ** Handing the mirror a row it already has *)

(** X18. [push] of a row that is already in the mirror does not copy it:
    the same Proxy is appended, so the row is in [rows] twice; its identity
    becomes the last position, which the place it already had no longer
    matches; a save of it is queued under the new identity. *)
Theorem push_of_a_tracked_row (s : state) (j : nat) (w : value) :
  mirror_inv s → rows s !! j = Some w →
  let s' := (push w s).2 in
  let n := length (rows s) in
  (push w s).1 = w ∧
  rows s' = rows s ++ [w] ∧
  (js_get w (KStr "_idx") s').1 = VNum (Z.of_nat n) ∧
  assoc_get (VNum (Z.of_nat n)) (operationQueue s') = Some (Op w Save) ∧
  rows s' !! j = Some w ∧ rows s' !! n = Some w ∧
  ¬ identity_is_position s'.
Proof.
  intros Hinv Hj s' n.
  destruct (Hinv j w Hj) as (t & (p & ps & -> & Hp & Ht & Hm) & Hi).
  assert (Hjn : (j < n)%nat) by (by eapply lookup_lt_Some).
  set (s1 := js_set (VRef p) (KStr "_idx") (VNum (Z.of_nat n)) s).
  assert (Hs1 : s1 = enqueue (VNum (Z.of_nat n)) (Op (VRef t) Save)
                       (log (Changed (QueueSave t))
                            (obj_set t (KStr "_idx") (VNum (Z.of_nat n)) s))).
  { subst s1. unfold js_set. rewrite Hp. unfold set_trap.
    rewrite Hi, decide_False by (intros [= ?]; lia).
    apply onChange_with_idx. by eapply obj_get_set_eq. }
  assert (Hh1 : heap s1 = <[t := Obj (props_set (KStr "_idx") (VNum (Z.of_nat n)) ps)]> (heap s)).
  { rewrite Hs1, heap_enqueue. simpl. unfold obj_set. by rewrite Ht. }
  assert (Hpt : p ≠ t) by (intros ->; congruence).
  assert (Hp1 : heap s1 !! p = Some (Prx t (QueueSave t))).
  { by rewrite Hh1, list_lookup_insert_ne. }
  assert (Ht1 : heap s1 !! t = Some (Obj (props_set (KStr "_idx") (VNum (Z.of_nat n)) ps))).
  { rewrite Hh1. apply list_lookup_insert_eq. by eapply lookup_lt_Some. }
  assert (Hr1 : rows s1 = rows s).
  { apply (tr_rows false). apply tracked_js_set. discriminate. }
  assert (Hwrap : _wrapRow (VRef p) s1 = (VRef p, s1)).
  { unfold _wrapRow, has_marker. rewrite Hp1, (obj_get_lookup _ _ _ _ Ht1).
    rewrite props_get_set_ne by done. unfold props_get in Hm. unfold props_get.
    rewrite Hm. done. }
  set (s3 := with_rows (rows s1 ++ [VRef p]) s1).
  assert (Hi3 : obj_get t (KStr "_idx") s3 = VNum (Z.of_nat n)).
  { unfold obj_get. simpl. unfold addr in *. rewrite Ht1. apply props_get_set_eq. }
  assert (Hpush : push (VRef p) s = (VRef p, enqueue (VNum (Z.of_nat n)) (Op (VRef p) Save) s3)).
  { unfold push. fold n. fold s1. rewrite Hwrap. fold s3. f_equal.
    by apply (queueOperation_row p t (QueueSave t)). }
  subst s'. rewrite Hpush. cbn [fst snd].
  assert (Hrows : rows (enqueue (VNum (Z.of_nat n)) (Op (VRef p) Save) s3) = rows s ++ [VRef p]).
  { rewrite (tr_rows _ _ _ (tracked_enqueue false _ _ s3)). simpl. by rewrite Hr1. }
  assert (Hget : (js_get (VRef p) (KStr "_idx")
                    (enqueue (VNum (Z.of_nat n)) (Op (VRef p) Save) s3)).1 = VNum (Z.of_nat n)).
  { unfold js_get. rewrite heap_enqueue. simpl. unfold addr in *. rewrite Hp1.
    unfold get_trap. rewrite (obj_get_heap_eq _ _ s3) by apply heap_enqueue.
    by rewrite Hi3. }
  split; [done|]. split; [done|]. split; [done|].
  split; [rewrite queue_enqueue; apply assoc_get_upd_eq|].
  assert (Hj' : (rows s ++ [VRef p]) !! j = Some (VRef p)) by (by apply lookup_app_l_Some).
  split; [by rewrite Hrows|]. split.
  { rewrite Hrows. by apply list_lookup_middle. }
  intros Hid. specialize (Hid j (VRef p)). rewrite Hrows in Hid. specialize (Hid Hj').
  rewrite Hget in Hid. injection Hid as Hid. lia.
Qed.

(** ** splice past the end *)

Lemma foreach_from_app {A} (f : A → nat → state → state) l1 l2 i s :
  foreach_from f (l1 ++ l2) i s = foreach_from f l2 (i + length l1) (foreach_from f l1 i s).
Proof.
  revert i s. induction l1 as [|x l1 IH]; intros i s; simpl.
  - by rewrite Nat.add_0_r.
  - rewrite IH. f_equal. lia.
Qed.

(** X19. [splice(start, 0, row)] with [start] past the end of [rows]
    appends the row, as an array does, but the identity it is first given
    is [start] itself: the save is queued under [start], and when the row
    is then given its position, it is queued once more under that.  The
    queue holds two entries for the one row, which by then has its position
    as identity. *)
Theorem splice_past_the_end_queues_twice (start : Z) (row : value) (s : state) :
  mirror_inv s → unmarked_row s row →
  Z.of_nat (length (rows s)) < start →
  let s' := (splice start 0 [row] s).2 in
  let n := length (rows s) in
  (splice start 0 [row] s).1 = [] ∧
  rows s' = rows s ++ [VRef (length (heap s))] ∧
  row_at s' n (VRef (length (heap s))) ∧
  assoc_get (VNum start) (operationQueue s') = Some (Op row Save) ∧
  assoc_get (VNum (Z.of_nat n)) (operationQueue s') = Some (Op row Save) ∧
  VNum start ≠ VNum (Z.of_nat n).
Proof.
  intros Hinv (a & ps & -> & Ha & Hu) Hstart s' n.
  set (sa := obj_set a (KStr "_idx") (VNum start) s).
  assert (Hsa : js_set (VRef a) (KStr "_idx") (VNum (start + Z.of_nat 0)) s = sa).
  { unfold js_set. rewrite Ha. subst sa. do 2 f_equal. lia. }
  assert (Hsa' : rows sa = rows s ∧ operationQueue sa = operationQueue s ∧
                 length (heap sa) = length (heap s) ∧
                 heap sa = <[a := Obj (props_set (KStr "_idx") (VNum start) ps)]> (heap s)).
  { subst sa. unfold obj_set. rewrite Ha. simpl. by rewrite length_insert. }
  destruct Hsa' as (Hra & Hqa & Hla & Hha).
  assert (Haa : heap sa !! a = Some (Obj (props_set (KStr "_idx") (VNum start) ps))).
  { rewrite Hha. apply list_lookup_insert_eq. by eapply lookup_lt_Some. }
  destruct (wrapRow_exact a _ start sa Haa) as (s1 & Hw & Hh1 & Hq1).
  { by rewrite props_get_set_ne. }
  { apply props_get_set_eq. }
  rewrite Hla in Hw, Hh1.
  set (m := length (heap s)) in *.
  set (ps1 := props_define_hidden (KStr "_internal") (VRef (S m))
                (props_set KInternal (VBool true)
                   (props_set (KStr "_idx") (VNum start) ps))) in *.
  pose proof (tracked_wrapRow false (VRef a) sa) as Htr1. rewrite Hw in Htr1.
  cbn [snd] in Htr1.
  assert (Hr1 : rows s1 = rows s) by (by rewrite (tr_rows _ _ _ Htr1)).
  assert (Hlt : (a < m)%nat) by (by eapply lookup_lt_Some).
  assert (Ha1 : heap s1 !! a = Some (Obj ps1)).
  { rewrite Hh1. apply list_lookup_insert_eq. rewrite length_app, Hla. lia. }
  assert (Hm1 : heap s1 !! m = Some (Prx a (QueueSave a))).
  { rewrite Hh1, list_lookup_insert_ne by lia. rewrite <- Hla.
    by apply list_lookup_middle. }
  assert (Hold1 : ∀ x : addr, x ≠ a → (x < m)%nat → heap s1 !! x = heap s !! x).
  { intros x Hx Hxm. rewrite Hh1, list_lookup_insert_ne by done.
    rewrite lookup_app_l by lia. rewrite Hha. by apply list_lookup_insert_ne. }
  assert (Hi1 : props_get (KStr "_idx") ps1 = VNum start).
  { subst ps1. rewrite props_get_define_hidden_ne by done.
    rewrite props_get_set_ne by done. apply props_get_set_eq. }
  assert (Hmk1 : props_get KInternal ps1 = VBool true).
  { subst ps1. rewrite props_get_define_hidden_ne by done. apply props_get_set_eq. }
  (* the rows that were there are as they were *)
  assert (Hrows1 : ∀ j w, rows s !! j = Some w → ∀ x, heap x = heap s1 → row_at x j w).
  { intros j w Hj x Hx. destruct (Hinv j w Hj) as (t & (p & pst & -> & Hp & Ht & Hmt) & Hit).
    assert (Hta : t ≠ a).
    { intros ->. rewrite Ha in Ht. injection Ht as <-. rewrite Hu in Hmt. done. }
    assert (Hpa : p ≠ a) by (intros ->; congruence).
    exists t. split.
    - exists p, pst. split; [done|]. rewrite Hx.
      split; [rewrite Hold1; [done|done|by eapply lookup_lt_Some]|].
      split; [rewrite Hold1; [done|done|by eapply lookup_lt_Some]|done].
    - unfold obj_get. rewrite Hx, Hold1; [|done|by eapply lookup_lt_Some].
      unfold obj_get in Hit. done. }
  (* the call, step by step *)
  assert (Hcut : array_splice (rows s) start 0 [VRef m] = ([], rows s ++ [VRef m])).
  { unfold array_splice.
    assert (Hp0 : splice_start (length (rows s)) start = length (rows s)).
    { unfold splice_start. destruct (start <? 0) eqn:Hs0; lia. }
    assert (Hc0 : splice_count (length (rows s)) start 0 = 0%nat).
    { unfold splice_count. lia. }
    rewrite Hp0, Hc0. cbn [take]. rewrite Nat.add_0_r, firstn_all, drop_all. done. }
  set (s2 := with_rows (rows s ++ [VRef m]) s1).
  set (s4 := enqueue (VNum start) (Op (VRef a) Save) s2).
  assert (Hq4 : _queueOperation (VRef a) Save s2 = s4).
  { assert (Hg : ∀ x, heap x = heap s1 → js_get (VRef a) (KStr "_idx") x = (VNum start, x)).
    { intros x Hx. unfold js_get. by rewrite Hx, Ha1, Hi1. }
    unfold _queueOperation, queueOperation_with. rewrite (Hg s2) by done.
    rewrite decide_False by done. by rewrite (Hg s2). }
  assert (Hh4 : heap s4 = heap s1) by (subst s4; by rewrite heap_enqueue).
  assert (Hr4 : rows s4 = rows s ++ [VRef m]).
  { subst s4. by rewrite (tr_rows _ _ _ (tracked_enqueue false _ _ s2)). }
  set (s5 := js_set (VRef m) (KStr "_idx") (VNum (Z.of_nat n)) s4).
  assert (Hsplice : splice start 0 [VRef a] s = ([], s5)).
  { unfold splice. cbn [mapi_st]. rewrite Hsa, Hw. rewrite Hr1, Hcut.
    fold s2. unfold foreach. cbn [foreach_from]. rewrite Hq4, Hr4.
    rewrite foreach_from_app. rewrite (reindex_noop (rows s) 0%nat s4).
    - rewrite Nat.add_0_l. cbn [foreach_from]. done.
    - intros j w Hj. by apply Hrows1. }
  assert (Hs5 : s5 = enqueue (VNum (Z.of_nat n)) (Op (VRef a) Save)
                       (log (Changed (QueueSave a))
                            (obj_set a (KStr "_idx") (VNum (Z.of_nat n)) s4))).
  { assert (Ha4 : heap s4 !! a = Some (Obj ps1)) by (by rewrite Hh4).
    assert (Hm4 : heap s4 !! m = Some (Prx a (QueueSave a))) by (by rewrite Hh4).
    assert (Ho : obj_get a (KStr "_idx") s4 = VNum start).
    { by rewrite (obj_get_lookup _ _ _ _ Ha4). }
    subst s5. unfold js_set. unfold addr in *. rewrite Hm4. unfold set_trap.
    rewrite Ho, decide_False by (intros [= ?]; lia).
    apply onChange_with_idx. by eapply obj_get_set_eq. }
  subst s'. rewrite Hsplice. cbn [fst snd].
  assert (Hh5 : heap s5 = <[a := Obj (props_set (KStr "_idx") (VNum (Z.of_nat n)) ps1)]> (heap s1)).
  { rewrite Hs5, heap_enqueue. simpl. unfold obj_set. by rewrite Hh4, Ha1. }
  assert (Hq5 : operationQueue s5 =
                assoc_set (VNum (Z.of_nat n)) (Op (VRef a) Save)
                  (assoc_set (VNum start) (Op (VRef a) Save)
                     (assoc_set (VNum start) (Op (VRef a) Save) (operationQueue s)))).
  { rewrite Hs5, queue_enqueue. simpl.
    destruct (obj_set_with_heap a (KStr "_idx") (VNum (Z.of_nat n)) s4) as (h & -> & _).
    simpl. subst s4. rewrite queue_enqueue. simpl. by rewrite Hq1, Hqa. }
  split; [done|]. split.
  { rewrite Hs5. rewrite (tr_rows _ _ _ (tracked_enqueue false _ _ _)). simpl.
    destruct (obj_set_with_heap a (KStr "_idx") (VNum (Z.of_nat n)) s4) as (h & -> & _).
    done. }
  split.
  { exists a. split.
    - exists m, (props_set (KStr "_idx") (VNum (Z.of_nat n)) ps1). split; [done|].
      split; [rewrite Hh5, list_lookup_insert_ne by lia; done|].
      split; [rewrite Hh5; apply list_lookup_insert_eq; by eapply lookup_lt_Some|].
      by rewrite props_get_set_ne.
    - unfold obj_get. rewrite Hh5, list_lookup_insert_eq by (by eapply lookup_lt_Some).
      apply props_get_set_eq. }
  split.
  { rewrite Hq5. unfold assoc_set. rewrite assoc_get_upd_ne by (intros [= ?]; lia).
    apply assoc_get_upd_eq. }
  split; [rewrite Hq5; apply assoc_get_upd_eq|].
  intros [= ?]. lia.
Qed.

(** ** The properties above, on the scenarios *)


Lemma deletes_follow_the_upsert_witness :
  let s := run [ASplice 1 1 []; AWrite (VRef 2) "name" (VStr "z"); AAdvance 500; AFire 1]
               Scenario.settled in
  let k := [Op (VRef 4) Delete] in
  inflight s !! 0%nat = Some k ∧
  (k = [] → issued (trace (settle 0 true s)) = issued (trace s) ∧
            inflight (settle 0 true s) = delete 0%nat (inflight s)).
Proof.
  intros s k.
  assert (Hn : inflight s !! 0%nat = Some k) by (vm_compute; reflexivity).
  split; [exact Hn|].
  exact (proj1 (deletes_follow_the_upsert s 0%nat k Hn)).
Defined.

Lemma createDeepProxy_wraps_once_witness :
  let s := (new_object [("x"%string, JNum 1)] empty_state).2 in
  let target := VRef 0 in
  (∀ a, target = VRef a → has_marker target s = true ∨ ∃ ps, heap s !! a = Some (Obj ps)) ∧
  createDeepProxy (createDeepProxy target (QueueSave 0) s).1 (QueueSave 0)
                  (createDeepProxy target (QueueSave 0) s).2 =
    ((createDeepProxy target (QueueSave 0) s).1, (createDeepProxy target (QueueSave 0) s).2).
Proof.
  intros s target.
  assert (Hwf : ∀ a, target = VRef a →
                  has_marker target s = true ∨ ∃ ps, heap s !! a = Some (Obj ps)).
  { intros a [= <-]. right. eexists. vm_compute. reflexivity. }
  split; [exact Hwf|].
  exact (proj1 (createDeepProxy_wraps_once target (QueueSave 0) (QueueSave 0) s Hwf)).
Defined.

Lemma reread_is_stable_witness :
  let s := Scenario.nested in
  heap s !! 3%nat = Some (Prx 2 (QueueSave 2)) ∧
  (∀ c, obj_get 2 (KStr "data") s = VRef c →
        has_marker (VRef c) s = true ∨ ∃ psc, heap s !! c = Some (Obj psc)) ∧
  js_get (VRef 3) (KStr "data") (js_get (VRef 3) (KStr "data") s).2 =
    ((js_get (VRef 3) (KStr "data") s).1, (js_get (VRef 3) (KStr "data") s).2).
Proof.
  intros s.
  assert (Hp : heap s !! 3%nat = Some (Prx 2 (QueueSave 2))) by (vm_compute; reflexivity).
  assert (Hwf : ∀ c, obj_get 2 (KStr "data") s = VRef c →
                  has_marker (VRef c) s = true ∨ ∃ psc, heap s !! c = Some (Obj psc)).
  { intros c Hc. vm_compute in Hc. injection Hc as <-. right. eexists.
    vm_compute. reflexivity. }
  split; [exact Hp|]. split; [exact Hwf|].
  exact (proj1 (reread_is_stable s 3%nat 2%nat (QueueSave 2) "data" Hp Hwf)).
Defined.

Lemma delete_through_tracked_value_witness :
  let s := Scenario.settled in
  let ps := [(KStr "_idx", Slot (VNum 0) true true);
             (KStr "name", Slot (VStr "a") true true);
             (KInternal, Slot (VBool true) true true);
             (KStr "_internal", Slot (VRef 3) false false)] in
  heap s !! 2%nat = Some (Prx 0 (QueueSave 0)) ∧
  heap s !! 0%nat = Some (Obj ps) ∧ NoDup ps.*1 ∧
  (∀ sl, assoc_get (KStr "name") ps = Some sl → sconf sl = true) ∧
  changes (trace (js_delete (VRef 2) (KStr "name") s)) = changes (trace s) ++ [QueueSave 0].
Proof.
  intros s ps.
  assert (Hp : heap s !! 2%nat = Some (Prx 0 (QueueSave 0))) by (vm_compute; reflexivity).
  assert (Ht : heap s !! 0%nat = Some (Obj ps)) by (vm_compute; reflexivity).
  assert (Hnd : NoDup ps.*1).
  { apply (bool_decide_unpack (NoDup ps.*1)). vm_compute. exact I. }
  assert (Hc : ∀ sl, assoc_get (KStr "name") ps = Some sl → sconf sl = true).
  { intros sl Hsl. vm_compute in Hsl. injection Hsl as <-. reflexivity. }
  split; [exact Hp|]. split; [exact Ht|]. split; [exact Hnd|]. split; [exact Hc|].
  exact (proj1 (delete_through_tracked_value s 2%nat 0%nat 0%nat ps "name" Hp Ht Hnd Hc)).
Defined.

Lemma nested_write_saves_owner_witness :
  let s := Scenario.nested in
  let pst := [(KStr "_idx", Slot (VNum 0) true true);
              (KStr "data", Slot (VRef 1) true true);
              (KInternal, Slot (VBool true) true true);
              (KStr "_internal", Slot (VRef 4) false false)] in
  let path := ["data"%string; "inner"%string] in
  heap s !! 3%nat = Some (Prx 2 (QueueSave 2)) ∧
  heap s !! 2%nat = Some (Obj pst) ∧
  obj_get 2 (KStr "_idx") s = VNum 0 ∧
  unwrapped_path s 2%nat path [2%nat] ∧
  ∃ q c, (reads (VRef 3) path s).1 = VRef q ∧
         heap (reads (VRef 3) path s).2 !! q = Some (Prx c (QueueSave 2)).
Proof.
  intros s pst path.
  assert (Hp : heap s !! 3%nat = Some (Prx 2 (QueueSave 2))) by (vm_compute; reflexivity).
  assert (Ht : heap s !! 2%nat = Some (Obj pst)) by (vm_compute; reflexivity).
  assert (Hi : obj_get 2 (KStr "_idx") s = VNum 0) by (vm_compute; reflexivity).
  assert (Hin : 2%nat ∈ [2%nat]) by apply list_elem_of_here.
  assert (Hpath : unwrapped_path s 2%nat path [2%nat]).
  { exists 1%nat, [(KStr "inner", Slot (VRef 0) true true)].
    split; [vm_compute; reflexivity|]. split; [vm_compute; reflexivity|].
    split; [reflexivity|]. split.
    { intros H. apply list_elem_of_singleton in H. discriminate. }
    exists 0%nat, [(KStr "x", Slot (VNum 1) true true)].
    split; [vm_compute; reflexivity|]. split; [vm_compute; reflexivity|].
    split; [reflexivity|]. split; [|exact I].
    intros H. apply elem_of_cons in H as [H|H]; [discriminate|].
    apply list_elem_of_singleton in H. discriminate. }
  split; [exact Hp|]. split; [exact Ht|]. split; [exact Hi|]. split; [exact Hpath|].
  destruct (nested_write_saves_owner s 3%nat 2%nat 2%nat 0 pst path [2%nat]
              Hp Ht Hi Hin Hin Hpath) as (q & c & Hx & Hq & _).
  exists q, c. split; [exact Hx|exact Hq].
Defined.

Lemma upsert_record_columns_witness :
  let s := init [ [("b"%string, JStr "x"); ("1"%string, JNum 7)] ] empty_state in
  let r := [("1"%string, CVal (VNum 7)); ("_idx"%string, CVal (VNum 0));
            ("b"%string, CVal (VStr "x"))] in
  rowToSave (Op (VRef 0) Save) s = (Some r, s) ∧
  NoDup r.*1 ∧ ("_internal"%string ∉ r.*1).
Proof.
  intros s r.
  assert (Hr : rowToSave (Op (VRef 0) Save) s = (Some r, s)).
  { vm_compute. reflexivity. }
  split; [exact Hr|].
  destruct (upsert_record_columns (Op (VRef 0) Save) s r s Hr)
    as (Hnd & Hint & _).
  split; [exact Hnd|exact Hint].
Defined.

Lemma push_appends_a_tracked_row_witness :
  let s := (new_object [("name"%string, JStr "c")] Scenario.settled).2 in
  unmarked_row s (VRef 6) ∧
  (push (VRef 6) s).1 = VRef (length (heap s)) ∧
  rows (push (VRef 6) s).2 = rows s ++ [(push (VRef 6) s).1].
Proof.
  intros s.
  assert (Hu : unmarked_row s (VRef 6)).
  { exists 6%nat, [(KStr "name", Slot (VStr "c") true true)].
    split; [reflexivity|]. split; [vm_compute; reflexivity|reflexivity]. }
  split; [exact Hu|].
  destruct (push_appends_a_tracked_row (VRef 6) s Hu) as (H1 & H2 & _).
  split; [exact H1|exact H2].
Defined.

Lemma splice_cuts_like_an_array_witness :
  let s := Scenario.settled in
  Forall (unmarked_row s) [] ∧ NoDup ([] : list value) ∧
  (splice 0 1 [] s).1 =
    take (splice_count (length (rows s)) 0 1)
         (drop (splice_start (length (rows s)) 0) (rows s)).
Proof.
  intros s.
  assert (Hit : Forall (unmarked_row s) []) by apply List.Forall_nil.
  assert (Hnd : NoDup ([] : list value)) by apply NoDup_nil_2.
  split; [exact Hit|]. split; [exact Hnd|].
  exact (proj1 (proj2 (splice_cuts_like_an_array 0 1 [] s Hit Hnd))).
Defined.

Lemma settled_mirror_inv : mirror_inv Scenario.settled.
Proof.
  apply mirror_inv_run; [repeat split|]. apply mirror_inv_init.
  intros i fields Hi j Hj.
  destruct i as [|[|i]]; simpl in Hi; try discriminate; injection Hi as <-.
  - apply elem_of_cons in Hj as [Hj|Hj]; [by injection Hj as ->|].
    apply elem_of_cons in Hj as [Hj|Hj]; [discriminate|by apply elem_of_nil in Hj].
  - apply elem_of_cons in Hj as [Hj|Hj]; [by injection Hj as ->|].
    apply elem_of_cons in Hj as [Hj|Hj]; [discriminate|by apply elem_of_nil in Hj].
Defined.

Lemma splice_of_nothing_changes_nothing_witness :
  let s := Scenario.settled in
  mirror_inv s ∧ 0 ≤ 0 ∧ splice 1 0 [] s = ([], s).
Proof.
  intros s.
  assert (Hinv : mirror_inv s) by exact settled_mirror_inv.
  assert (Hdc : 0 ≤ 0) by lia.
  split; [exact Hinv|]. split; [exact Hdc|].
  exact (splice_of_nothing_changes_nothing 1 0 s Hinv Hdc).
Defined.



Lemma queued_until_flushed_witness :
  let s := Scenario.loaded in
  let a := AWrite (VRef 2) "name" (VStr "z") in
  (∀ id, a ≠ AFire id) ∧
  (operationQueue s).*1 `prefix_of` (operationQueue (exec a s)).*1.
Proof.
  intros s a.
  assert (Hnf : ∀ id, a ≠ AFire id) by (intros id; discriminate).
  split; [exact Hnf|].
  exact (proj1 (queued_until_flushed a s Hnf)).
Defined.

Lemma wrapRow_hides_its_bookkeeping_witness :
  let s := (new_object [("_idx"%string, JNum 0); ("_internal"%string, JStr "c")]
                       empty_state).2 in
  let ps := [(KStr "_idx", Slot (VNum 0) true true);
             (KStr "_internal", Slot (VStr "c") true true)] in
  heap s !! 0%nat = Some (Obj ps) ∧ NoDup ps.*1 ∧
  props_get KInternal ps = VUndef ∧ props_get (KStr "_idx") ps = VNum 0 ∧
  (_wrapRow (VRef 0) s).1 = VRef (length (heap s)) ∧
  obj_get 0 (KStr "_internal") (_wrapRow (VRef 0) s).2 = VRef (S (length (heap s))).
Proof.
  intros s ps.
  assert (Ha : heap s !! 0%nat = Some (Obj ps)) by (vm_compute; reflexivity).
  assert (Hnd : NoDup ps.*1).
  { apply (bool_decide_unpack (NoDup ps.*1)). vm_compute. exact I. }
  assert (Hu : props_get KInternal ps = VUndef) by reflexivity.
  assert (Hi : props_get (KStr "_idx") ps = VNum 0) by reflexivity.
  split; [exact Ha|]. split; [exact Hnd|]. split; [exact Hu|]. split; [exact Hi|].
  destruct (wrapRow_hides_its_bookkeeping 0%nat ps 0 s Ha Hnd Hu Hi) as (H1 & _ & H3 & _).
  split; [exact H1|exact H3].
Defined.

Lemma push_of_a_tracked_row_witness :
  let s := Scenario.settled in
  mirror_inv s ∧ rows s !! 0%nat = Some (VRef 2) ∧
  rows (push (VRef 2) s).2 = rows s ++ [VRef 2] ∧
  ¬ identity_is_position (push (VRef 2) s).2.
Proof.
  intros s.
  assert (Hinv : mirror_inv s) by exact settled_mirror_inv.
  assert (Hj : rows s !! 0%nat = Some (VRef 2)) by (vm_compute; reflexivity).
  split; [exact Hinv|]. split; [exact Hj|].
  destruct (push_of_a_tracked_row s 0%nat (VRef 2) Hinv Hj) as (_ & H2 & _ & _ & _ & _ & H7).
  split; [exact H2|exact H7].
Defined.

Lemma splice_past_the_end_queues_twice_witness :
  let s := exec (ANew [("name"%string, JStr "c")]) Scenario.settled in
  mirror_inv s ∧ unmarked_row s (VRef 6) ∧ Z.of_nat (length (rows s)) < 5 ∧
  assoc_get (VNum 5) (operationQueue (splice 5 0 [VRef 6] s).2) =
    Some (Op (VRef 6) Save) ∧
  assoc_get (VNum (Z.of_nat (length (rows s)))) (operationQueue (splice 5 0 [VRef 6] s).2) =
    Some (Op (VRef 6) Save).
Proof.
  intros s.
  assert (Hinv : mirror_inv s).
  { apply mirror_inv_exec; [exact I|exact settled_mirror_inv]. }
  assert (Hu : unmarked_row s (VRef 6)).
  { exists 6%nat, [(KStr "name", Slot (VStr "c") true true)].
    split; [reflexivity|]. split; [vm_compute; reflexivity|reflexivity]. }
  assert (Hlt : Z.of_nat (length (rows s)) < 5) by (vm_compute; reflexivity).
  split; [exact Hinv|]. split; [exact Hu|]. split; [exact Hlt|].
  destruct (splice_past_the_end_queues_twice 5 (VRef 6) s Hinv Hu Hlt)
    as (_ & _ & _ & H4 & H5 & _).
  split; [exact H4|exact H5].
Defined.

(** ** A rejected flush of scalar rows *)

(** A flush of rows with scalar fields changes nothing but what it hands to
    the gateway. *)
Lemma flush_body_scalar_issue operations s :
  Forall (λ o, scalar_view s (op_row o)) operations →
  flush_body operations s = s ∨ ∃ q k, flush_body operations s = issue q k s.
Proof.
  intros Hops. unfold flush_body.
  assert (Hs : Forall (λ o, scalar_view s (op_row o))
                 (filter (λ o, is_save o = true) operations)).
  { apply Forall_forall. intros o Ho%list_elem_of_filter. rewrite Forall_forall in Hops.
    apply Hops, Ho. }
  assert (Hd : Forall (λ o, scalar_view s (op_row o))
                 (filter (λ o, is_delete o = true) operations)).
  { apply Forall_forall. intros o Ho%list_elem_of_filter. rewrite Forall_forall in Hops.
    apply Hops, Ho. }
  destruct (filter (λ o, is_save o = true) operations) as [|o saves] eqn:Hsv.
  - unfold flush_deletes.
    destruct (filter (λ o, is_delete o = true) operations) as [|o deletes]; [by left|].
    assert (Hm : ∃ ids, map_st (λ o, js_get (op_row o) (KStr "_idx")) (o :: deletes) s = (ids, s)).
    { induction Hd as [|o' l Ho _ [ids IH]]; [by eexists|].
      simpl. destruct (js_get_scalar_view (op_row o') "_idx" s Ho) as (i & -> & _); [done|].
      rewrite IH. by eexists. }
    destruct Hm as [ids ->]. right. by eexists _, _.
  - destruct (insertRows_scalar_view _ s Hs) as [rs ->]. right. by eexists _, _.
Qed.

(** X22. A rejected flush of rows with scalar fields is lost.  When the
    timeout runs, the queue is emptied and stays empty while the statement
    is awaited; when the statement is rejected nothing is queued, no
    timeout is armed, no statement follows (the deletes that the flush
    held are dropped), and the rows and the store are what they were
    before the timeout ran.  No timeout is left that would send the batch
    again, however much time passes. *)
Theorem rejected_scalar_batch_is_lost (s : state) (id : nat) (due : Z)
    (n : nat) (k : list op) :
  sched_inv s → (id, due) ∈ timers s → due ≤ now s →
  Forall (λ e, scalar_view s (op_row e.2)) (operationQueue s) →
  inflight (fire id s) !! n = Some k →
  let s1 := fire id s in
  let s2 := settle n false s1 in
  (operationQueue s1 = [] ∧ queueTimer s1 = None) ∧
  (operationQueue s2 = [] ∧ queueTimer s2 = None ∧ timers s2 = []) ∧
  issued (trace s2) = issued (trace s1) ∧
  inflight s2 = delete n (inflight s1) ∧
  (heap s2 = heap s ∧ rows s2 = rows s) ∧
  (∀ d id', fire id' (advance d s2) = advance d s2).
Proof.
  intros Hinv Hin Hdue Hsc Hn s1 s2.
  pose proof (si_timer _ Hinv) as Hok.
  destruct (timer_ok_single s id due Hok Hin) as [Hq Hts].
  set (cleared := (flush_begin id s).2).
  assert (Hs1 : s1 = flush_body (map snd (operationQueue s)) cleared).
  { subst s1. unfold fire. rewrite Hts. simpl. rewrite decide_True by done.
    rewrite decide_True by done. reflexivity. }
  assert (Hc : operationQueue cleared = [] ∧ queueTimer cleared = None ∧
               timers cleared = [] ∧ heap cleared = heap s ∧ rows cleared = rows s).
  { subst cleared. simpl. rewrite Hts. simpl. by rewrite decide_True. }
  destruct Hc as (Hcq & Hct & Hcts & Hch & Hcr).
  assert (Hscc : Forall (λ o, scalar_view cleared (op_row o)) (map snd (operationQueue s))).
  { apply Forall_fmap. eapply Forall_impl; [exact Hsc|]. intros e He. simpl.
    eapply scalar_view_heap_eq; [|exact He]. done. }
  assert (H1 : operationQueue s1 = [] ∧ queueTimer s1 = None ∧ timers s1 = [] ∧
               heap s1 = heap s ∧ rows s1 = rows s).
  { rewrite Hs1. destruct (flush_body_scalar_issue _ _ Hscc) as [->|(q & k' & ->)]; done. }
  destruct H1 as (Hq1 & Hqt1 & Hts1 & Hh1 & Hr1).
  assert (Hs2 : s2 = log (Settled false) (with_inflight (delete n (inflight s1)) s1)).
  { subst s2. unfold settle. fold s1 in Hn. by rewrite Hn. }
  split; [done|]. rewrite Hs2. simpl.
  split; [done|]. split; [by rewrite issued_app, app_nil_r|]. split; [done|].
  split; [done|].
  intros d id'. unfold fire, advance. destruct (decide (0 ≤ d)); simpl; by rewrite Hts1.
Qed.

Lemma rejected_scalar_batch_is_lost_witness :
  let s := run [AAdvance 500] Scenario.loaded in
  sched_inv s ∧ (0%nat, 500) ∈ timers s ∧ 500 ≤ now s ∧
  Forall (λ e, scalar_view s (op_row e.2)) (operationQueue s) ∧
  inflight (fire 0 s) !! 0%nat = Some [] ∧
  operationQueue (settle 0 false (fire 0 s)) = [] ∧
  queueTimer (settle 0 false (fire 0 s)) = None.
Proof.
  intros s.
  assert (Hinv : sched_inv s) by apply (sched_inv_reach Scenario.table_ab [AAdvance 500]).
  assert (Hin : (0%nat, 500) ∈ timers s).
  { change (timers s) with [(0%nat, 500)]. apply list_elem_of_here. }
  assert (Hdue : 500 ≤ now s).
  { change (now s) with 500. lia. }
  assert (Hv : ∀ (a : addr) i name (x : addr),
            heap s !! a = Some (Obj [(KStr "_idx", Slot (VNum i) true true);
                                     (KStr "name", Slot (VStr name) true true);
                                     (KInternal, Slot (VBool true) true true);
                                     (KStr "_internal", Slot (VRef x) false false)]) →
            scalar_view s (VRef a)).
  { intros a i name x Ha. eexists a, _. split; [reflexivity|]. split; [left; exact Ha|].
    intros k Hk. unfold props_get. simpl.
    repeat case_decide; simplify_eq; done. }
  assert (Hsc : Forall (λ e, scalar_view s (op_row e.2)) (operationQueue s)).
  { change (operationQueue s) with
      [(VNum 0, Op (VRef 0) Save); (VNum 1, Op (VRef 1) Save)].
    apply Forall_cons. split; [apply (Hv 0%nat 0 "a"%string 3%nat); reflexivity|].
    apply Forall_cons. split; [apply (Hv 1%nat 1 "b"%string 5%nat); reflexivity|].
    apply Forall_nil_2. }
  assert (Hn : inflight (fire 0 s) !! 0%nat = Some []) by (vm_compute; reflexivity).
  split; [exact Hinv|]. split; [exact Hin|]. split; [exact Hdue|]. split; [exact Hsc|].
  split; [exact Hn|].
  destruct (rejected_scalar_batch_is_lost s 0%nat 500 0%nat [] Hinv Hin Hdue Hsc Hn)
    as (_ & (Hq & Ht & _) & _).
  split; [exact Hq|exact Ht].
Defined.
